(* ===== verification/_CoqProject ===== *)
-Q . S2P
Prelude.v
LinAlg.v
Distance.v
Linkage.v
ClusterLinkage.v
AggClust.v
KMeans.v
DpMeans.v
Persistence.v
