(* ===== verification/Prelude.v ===== *)
(** * A verification development of qminer's clustering engine

    Source: [src/src/glib/mine/clustering.h] (namespaces [TDistance] and
    [TClustering]).  The header declares the whole component; the bodies of
    the methods it only declares live in [clustering.cpp] and in glib's
    linear-algebra library, which are not part of [src/]: those are modelled
    from the specification and marked [spec_modelled] in the manifest.

    ** The program and how its parts interact

    - [TDistance::TDist] is an abstract distance strategy (virtual methods
      [GetDistV], [GetDistVV], [GetDist2VV], [UpdateNormX2], [UpdateNormC2]
      and the cached [GetDist2VV] overload).  [TEuclDist] implements it with
      the expansion |x-c|^2 = |x|^2 - 2 x.c + |c|^2 over glib's [TLinAlg]
      primitives; [TCosDist] is a stub whose bodies are empty.
    - [TClustering::TAbsKMeans] owns a centroid matrix and a [TDist*]; its
      subclasses [TDnsKMeans] (Lloyd's k-means) and [TDpMeans] (DP-means)
      implement the fitting loop.
    - [TAvgLink], [TCompleteLink], [TSingleLink] are linkage rules that fold
      cluster [j] into cluster [i] in a distance matrix; [TAggClust<TDist,
      TLink>::MakeDendro] is the agglomerative driver, instantiated by the
      typedefs [TAlAggClust], [TClAggClust], [TSlAggClust].
    - [TDist::Save] and [TAbsKMeans::Save]/[Load] persist a fitted model
      through glib's binary streams; a [TAbsKMeans*] is used through its
      virtual methods ([Apply], [GetType]).

    ** Files, in dependency order

    - [Prelude.v] (this file): the error monad [res] standing for glib's
      fatal assertions ([AssertR], [EAssertR]) and the shared lemmas on lists,
      [Q] and the monad, the hint database [clust] and the tactics.
    - [LinAlg.v]: the trusted numeric library the header calls ([TLinAlg::
      Norm2], [GetColNorm2V], [MultiplyT], [TLAMisc::Sqrt]) over exact
      rationals, the dense matrix [fltvv] (glib's [TFltVV]) with column
      access and in-place row/column writes, the sparse columns of
      [TIntFltKdV] (index/value lists) with their [Norm2], [DotProduct] and
      [MultiplyT], the equality [vv_equiv] of matrices up to [Qeq] as a
      setoid, and the interface [SqrtLib] of the square root with a
      concrete executable instance.
    - [Distance.v]: the [TDist] interface as a [Class] of operations with
      their dense and sparse overloads, the [TEuclDist] instance (its
      private templates as definitions generic in the representation,
      instantiated once per overload) and the [TCosDist] instance, and the
      laws a client may rely on ([DistLaws]), proved for [TEuclDist].
    - [Linkage.v]: the three [JoinClusts] rules, the [TLink] interface and
      its laws [LinkLaws] (symmetry, non-negativity, reducibility), proved
      per rule.
    - [ClusterLinkage.v]: the linkage of two sets of points (minimum,
      maximum, mean over the member pairs) and the class [SetLinkage] of a
      strategy whose rule combines set linkages; the three rules are
      instances.
    - [AggClust.v]: [MakeDendro] as its two nested scans and its merge loop,
      the abstract specification of a merge step (the lexicographically first
      globally minimal active pair), the merge machine [agg_step], the
      set-level reference algorithm [hac] and the theorems of the driver.
    - [KMeans.v]: the partitional engine [TAbsKMeans] (its state, the public
      [Apply] with its dimension check, [Assign], the distance queries,
      [UpdateCentroids], [SelectInitCentroids] with [TVec::Shuffle]), the
      random source as the interface [TRndLib] with glib's Park-Miller
      generator, the subclass algorithm as the interface [KMeansAlgo], and
      [TDnsKMeans] (Lloyd's loop) with its theorems.
    - [DpMeans.v]: [TDpMeans] (DP-means): its parameters, the pass that
      opens clusters for far instances, the update that drops empty
      clusters, the outer loop, the forced splits and its [Apply], with its
      theorems.
    - [Persistence.v]: a [TAbsKMeans*] as the record [engine] (its class with
      the subclass's fields, its [TDist*], its centroids and seed), [Apply]
      through the pointer ([engine_Apply]), the stream interface [TBinStream]
      (glib's [TSOut]/[TSIn] with round-trip laws for [TInt], [TFlt], [TStr],
      [TFltVV]) and a tagged-item implementation, [TDist::Save] and
      [TDist::Load], and the [Save]/[Load] of a model.

    ** What the theorems show

    - Distances ([Distance.v]): the expansion computed by [TEuclDist] equals
      the directly computed (squared) distance, for the dense overloads, for
      the cached overload fed by [UpdateNormX2]/[UpdateNormC2], and for the
      sparse overloads on the dense forms of their arguments
      ([GetDistV_sp_correct], [GetDistVV_sp_correct]); the distance matrix
      is symmetric under exchange of its operands.  Lemmas record that
      [TCosDist] does not meet the contract [DistLaws] and that the
      assertion of [GetDistV] is strict at [-1e-8].
    - Linkage ([Linkage.v]): each rule writes a square symmetric matrix that
      only changes row and column [i], and is reducible.
    - Agglomerative driver ([AggClust.v]): the scans find the first minimal
      active pair (a refinement of the abstract choice); one merge step is a
      step of an abstract merge machine; the loop keeps the invariant of
      that machine, performs exactly [NInst - 1] merges without error, emits
      well-formed records covering every point, never names a slot again
      once it is merged away (safety, [MakeDendro_no_reuse]), reaches the
      state where slot 0 holds every point (progress,
      [MakeDendro_one_cluster]), and for reducible rules its merge
      distances are non-decreasing.  For each of the three rules the
      records are those of the set-level algorithm of the specification,
      which recomputes the minimum, maximum or mean over member pairs at
      every step ([MakeDendro_refines_hac], a simulation of [hac] by the
      merge loop).  Two examples on [{0,1,9,10}] show that [TSlAggClust]
      is complete link and that average link averages squared distances.
    - k-means ([KMeans.v]): [Assign] refines the reference "first nearest
      centroid"; one Lloyd pass never increases the objective (the mean
      minimises the sum of squared distances); [TDnsKMeans::Apply] with its
      early exit equals [MaxIter] plain passes; the public [Apply] fails
      exactly on inputs without features or with fewer than [K] instances;
      the initial centroids are [K] distinct columns; the distance queries
      ([GetDist], [GetCentroidDistV], [GetDistVV]) return Euclidean
      distances to the centroids; the random state after [Apply] is the
      seed advanced by the [NInst - 1] draws of the shuffle,
      [16807^(NInst-1) Seed mod (2^31-1)], in the generator's cycle, with
      both products of Schrage's method within [int] range at every draw.
      Examples show the specification's scenario for a favourable seed and
      a local optimum for another.
    - DP-means ([DpMeans.v]): the number of clusters of a returned model is
      at most [MxClusts] for every distance strategy (the lower bound
      [MnClusts] is the final check of [Apply] itself); invalid
      arguments are rejected before clustering; a pass gives every instance
      a cluster within [sqrt Lambda] of it unless [MxClusts] is reached; the
      update keeps the partition, drops exactly the empty clusters and
      makes every centroid a mean.  Examples give a scenario and a
      counterexample to the specification's claim that a larger [Lambda]
      never gives more clusters.
    - Persistence ([Persistence.v]): loading what [Save] wrote gives back
      the model and leaves the rest of the stream (for every stream meeting
      the laws); unknown algorithm or distance names are rejected; a model
      fitted by [Apply] through the pointer is again loadable (its centroids
      have the data's dimension and an [int] number of columns), and, for
      either class, its centroids lie in the bounding box of the data
      ([engine_Apply_in_box]: initial centroids are instances, every
      update yields instances or means of them).

    ** Numbers and fuel

    [TFlt] (a C double) is modelled by the exact rationals [Q].  The
    expansion |x|^2 - 2x.c + |c|^2 is then exactly the squared distance, so
    the negative artefacts the code clamps cannot arise, and the theorems
    the assertion branch of [GetDistV] is unreachable in exact arithmetic
    and the clamp is the identity.  Rounding error is not modelled, so no
    theorem speaks about what the assertion and the clamp guard against;
    in particular [GetDistVV] (lines 110-113) takes the square root of
    [GetDist2VV] without clamping it, a divergence from section 4.1 of the
    specification that exact arithmetic cannot show (it is a finding of
    the manifest).  The square root is the trusted [SqrtLib] interface (monotone,
    non-negative, compatible with [Qeq]); [Qsqrt3] is an executable instance
    exact on squares of numbers with three decimals, used by the witnesses.
    [TInt] counters (item counts, indices) are [nat]: they are bounded by the
    number of columns of a matrix, itself an [int], so they cannot overflow.
    Where the width matters it is written out: the seed of [TRnd] is a [Z]
    kept in [1 .. 2^31-2], and Schrage's step is proved to keep its products
    below [2^31]; a persisted model's counts and matrix dimensions are
    required to fit an [int] ([int32]), the contract of glib's [TInt] and
    [TFltVV] writers.
    The loops of [MakeDendro] are [for] loops with fixed bounds and are
    modelled by folds over [seq]: they need no fuel.  Lloyd's loop is
    bounded by [MaxIter] in the source; the model's fuel is exactly
    [MaxIter], so running out of fuel is the source's behaviour, not an
    artefact, and the theorems hold for every value of it.  DP-means has
    the same bound on its passes; its forced splits, a [while] loop in the
    specification, are bounded by [MnClusts] rounds.  A round adds a
    cluster, except when the point it splits off was alone in its cluster:
    that cluster empties and is dropped, and the count is unchanged.  If
    the rounds end without [MnClusts] clusters the model reports an
    invalid argument, the final check of [Apply].

    ** What is not modelled

    The notification sink ([PNotify], which never changes control flow)
    is I/O.  The sparse overloads are modelled on index/value lists whose
    indices are distinct; glib keeps them sorted as well, which no
    operation of the model depends on.  Persistence is modelled above the byte level: the
    layout of glib's streams is the interface [TBinStream], and the values
    of [TEuclDist::TYPE] and [TCosDist::TYPE] (set in clustering.cpp) are
    placeholders whose only use is that they differ; the loader refuses a
    negative count, which a [TInt] could hold but the model's natural
    numbers cannot.  In [TAbsKMeans] the cached centroid
    norms [NormC2] that [UpdateCentroids] refreshes are not kept as state:
    the model's [Assign] recomputes them, which gives the same squared
    distances by [Distance.GetDist2VV_cached_norms]; the body of
    [UpdateCentroids] that refreshes them is in clustering.cpp and the
    specification does not describe the cache, so it is not modelled.  The
    destructor only frees the [TDist*].  Of glib's [TLinAlg], [TLAMisc] and
    [TRnd], which are outside [src/], only the primitives the header calls
    are modelled; [GetColMinIdx] starts from the first entry where glib
    starts from [TFlt::Mx], the same on finite values.  [UpdateCentroids]
    follows the specification's option "an empty cluster keeps its
    centroid"; its declaration (line 220) takes [AssignV] by non-const
    reference and the class owns a [TRnd], so the body in clustering.cpp
    may re-seed instead, which the specification allows and the header
    cannot settle.  Section 6 of the specification says the random source
    also breaks DP-means ties; the model breaks them by the lowest index
    and draws nothing there, so no theorem states the random state after
    [TDpMeans::Apply]. *)

From Stdlib Require Export QArith Qminmax Qround Lqa.
From stdpp Require Export base list sets.

Declare Scope clust_scope.
Delimit Scope clust_scope with clust.

Create HintDb clust.
Create Rewrite HintDb clust_rw.

(** ** Fatal errors as values

    glib's [AssertR]/[EAssertR] abort the computation; [TVec] indexing out of
    range is an assertion failure as well.  A computation of the clustering
    code returns either [Ok] with its result or [Err] with the reason. *)

Inductive err :=
  | EInvalidArg      (** [EAssertR] on a caller's argument *)
  | ENumInstability  (** the [AssertR] "Distance lower than numerical error!" *)
  | EIndex           (** a [TVec]/[TVV] index out of range *)
  | ENotImpl         (** an operation the source leaves unimplemented *)
  | ELoad.           (** a [TSIn] that does not hold what the loader reads *)

Inductive res (A : Type) :=
  | Ok (a : A)
  | Err (e : err).
Arguments Ok {A} a.
Arguments Err {A} e.

Definition res_bind {A B} (m : res A) (k : A -> res B) : res B :=
  match m with Ok a => k a | Err e => Err e end.

Notation "x <- m ;; k" := (res_bind m (fun x => k))
  (at level 100, m at next level, right associativity) : clust_scope.
Open Scope clust_scope.

(** [mapM f l] runs [f] on the elements of [l] from left to right and stops
    at the first error, as a C++ loop whose body may throw does. *)
Fixpoint mapM {A B} (f : A -> res B) (l : list A) : res (list B) :=
  match l with
  | [] => Ok []
  | x :: l' => y <- f x ;; ys <- mapM f l' ;; Ok (y :: ys)
  end.

(** [foldM f l a] is a [for] loop over [l] whose body may fail: it threads
    the state [a] through [f] and stops at the first error. *)
Fixpoint foldM {A B} (f : A -> B -> res A) (l : list B) (a : A) : res A :=
  match l with
  | [] => Ok a
  | b :: l' => a' <- f a b ;; foldM f l' a'
  end.

(** Whether a computation succeeded, and its result with a default; the
    examples evaluate [is_ok] and read the result with [res_get]. *)
Definition is_ok {A} (r : res A) : bool := match r with Ok _ => true | Err _ => false end.
Definition res_get {A} (d : A) (r : res A) : A := match r with Ok a => a | Err _ => d end.

(** Two computations that agree up to [R]: both succeed with related
    results, or both fail with the same error. *)
Definition res_rel {A B} (R : A -> B -> Prop) (r : res A) (r' : res B) : Prop :=
  match r, r' with
  | Ok a, Ok b => R a b
  | Err e, Err e' => e = e'
  | _, _ => False
  end.

Lemma res_get_ok {A} (r : res A) d : is_ok r = true -> r = Ok (res_get d r).
Proof. by destruct r. Qed.

Lemma mapM_ok_map {A B} (f : A -> res B) (g : A -> B) (l : list A) :
  (forall x, x ∈ l -> f x = Ok (g x)) -> mapM f l = Ok (map g l).
Proof.
  induction l as [|x l IH]; intros Hf; simpl; [done|].
  rewrite Hf by set_solver. simpl. rewrite IH by set_solver. done.
Qed.

Lemma mapM_err {A B} (f : A -> res B) (l : list A) e :
  mapM f l = Err e -> exists x, x ∈ l /\ f x = Err e.
Proof.
  induction l as [|x l IH]; simpl; [done|].
  destruct (f x) eqn:Hx; simpl; [|intros [= ->]; exists x; set_solver].
  destruct (mapM f l) eqn:Hl; simpl; [done|].
  intros [= ->]. destruct IH as (y & ? & ?); [done|]. exists y; set_solver.
Qed.

(** Loops whose bodies agree up to [R] agree up to [Forall2 R]. *)
Lemma mapM_rel {A B C} (R : B -> C -> Prop) (f : A -> res B) (g : A -> res C) (l : list A) :
  (forall x, x ∈ l -> res_rel R (f x) (g x)) -> res_rel (Forall2 R) (mapM f l) (mapM g l).
Proof.
  induction l as [|x l IH]; intros Hfg; simpl; [constructor|].
  assert (Hx := Hfg x ltac:(set_solver)).
  assert (Hl := IH (fun y Hy => Hfg y ltac:(set_solver))).
  destruct (f x), (g x); simpl in Hx |- *; try done.
  destruct (mapM f l), (mapM g l); simpl in Hl |- *; try done. by constructor.
Qed.

(** An invariant of the loop body is an invariant of the loop. *)
Lemma foldM_ind {A B} (P : A -> Prop) (f : A -> B -> res A) (l : list B) (a a' : A) :
  P a -> (forall x b y, b ∈ l -> P x -> f x b = Ok y -> P y) -> foldM f l a = Ok a' -> P a'.
Proof.
  revert a. induction l as [|b l IH]; intros a Ha Hf; simpl; [by intros [= <-]|].
  destruct (f a b) as [y|e] eqn:Hy; simpl; [|done].
  apply IH; [eapply Hf; [constructor|done|done]|]. intros x b' z Hb'. apply Hf. by constructor.
Qed.

(** The same over the loop [for (i = s; i < s + n; i++)], with the
    invariant indexed by the loop counter. *)
Lemma foldM_seq_ind {A} (P : nat -> A -> Prop) (f : A -> nat -> res A) s n (a a' : A) :
  P s a -> (forall i x y, s <= i < s + n -> P i x -> f x i = Ok y -> P (S i) y) ->
  foldM f (seq s n) a = Ok a' -> P (s + n) a'.
Proof.
  revert s a. induction n as [|n IH]; intros s a Ha Hf; simpl.
  - intros [= <-]. by rewrite Nat.add_0_r.
  - destruct (f a s) as [y|e] eqn:Hy; simpl; [|done].
    rewrite <- Nat.add_succ_comm. apply IH; [eapply Hf; [lia|done|done]|].
    intros i x z Hi. apply Hf. lia.
Qed.

(** A body that never fails gives a loop that never fails. *)
Lemma foldM_ok {A B} (P : A -> Prop) (f : A -> B -> res A) (l : list B) (a : A) :
  P a -> (forall x b, b ∈ l -> P x -> exists y, f x b = Ok y /\ P y) ->
  exists a', foldM f l a = Ok a' /\ P a'.
Proof.
  revert a. induction l as [|b l IH]; intros a Ha Hf; simpl; [by exists a|].
  destruct (Hf a b) as (y & -> & Hy); [constructor|done|]. simpl.
  apply IH; [done|]. intros x b' Hb'. apply Hf. by constructor.
Qed.

(** ** Rationals *)

Section Rationals.
Local Open Scope Q_scope.

(** The strict comparison [x < y] of two doubles, as a boolean. *)
Definition Qltb (x y : Q) : bool := negb (Qle_bool y x).

Lemma Qltb_iff x y : Qltb x y = true <-> x < y.
Proof.
  unfold Qltb. rewrite negb_true_iff. split; intros H.
  - apply Qnot_le_lt. intros Hle. apply Qle_bool_iff in Hle. congruence.
  - destruct (Qle_bool y x) eqn:E; [|done]. apply Qle_bool_iff in E. lra.
Qed.

Lemma Qltb_false x y : Qltb x y = false <-> y <= x.
Proof.
  unfold Qltb. rewrite negb_false_iff. apply Qle_bool_iff.
Qed.

End Rationals.

(** Case analysis on a comparison, with the meaning of each branch. *)
Ltac case_Qltb x y :=
  let E := fresh "E" in
  destruct (Qltb x y) eqn:E;
  [apply Qltb_iff in E | apply Qltb_false in E].

Section Clamp.
Local Open Scope Q_scope.

(** [if (v < 0) { v = 0; }] *)
Definition clamp0 (v : Q) : Q := if Qltb v 0 then 0 else v.

Lemma clamp0_nonneg v : 0 <= clamp0 v.
Proof. unfold clamp0. case_Qltb v 0; lra. Qed.

Lemma clamp0_id v : 0 <= v -> clamp0 v = v.
Proof. unfold clamp0. case_Qltb v 0; [lra|done]. Qed.

(** Sums of squares are non-negative. *)
Lemma Qsquare_nonneg (x : Q) : 0 <= x * x.
Proof. nra. Qed.

Lemma clamp0_mono v w : v <= w -> clamp0 v <= clamp0 w.
Proof. unfold clamp0. case_Qltb v 0; case_Qltb w 0; lra. Qed.

#[export] Instance clamp0_proper : Proper (Qeq ==> Qeq) clamp0.
Proof. intros v w Hvw. apply Qle_antisym; apply clamp0_mono; rewrite Hvw; apply Qle_refl. Qed.

End Clamp.

#[export] Hint Resolve clamp0_nonneg Qsquare_nonneg Qle_refl : clust.

(** ** Lists *)

(** [nth] with the default of glib's zero-initialised vectors. *)
Definition at0 (v : list Q) (i : nat) : Q := nth i v 0%Q.

Lemma sum_list_insert (l : list nat) i x :
  i < length l ->
  sum_list (<[i:=x]> l) + nth i l 0%nat = (sum_list l + x)%nat.
Proof.
  revert i. induction l as [|y l IH]; intros [|i] Hi; simpl in *; try lia.
  specialize (IH i ltac:(lia)). lia.
Qed.

Lemma nth_insert_eq {A} (l : list A) i x d :
  i < length l -> nth i (<[i:=x]> l) d = x.
Proof.
  revert i. induction l as [|y l IH]; intros [|i] Hi; simpl in *; try lia; auto with lia.
Qed.

Lemma nth_insert_ne {A} (l : list A) i j x d :
  i <> j -> nth j (<[i:=x]> l) d = nth j l d.
Proof.
  revert i j. induction l as [|y l IH]; intros [|i] [|j] Hij; simpl; auto with lia.
Qed.

Lemma nth_insert {A} (l : list A) i j x d :
  i < length l -> nth j (<[i:=x]> l) d = if decide (i = j) then x else nth j l d.
Proof.
  intros Hi. case_decide; subst; [by apply nth_insert_eq|by apply nth_insert_ne].
Qed.

Lemma nth_map_lt {A B} (f : A -> B) (l : list A) i d d' :
  i < length l -> nth i (map f l) d = f (nth i l d').
Proof.
  revert i. induction l as [|x l IH]; intros [|i] Hi; simpl in *; try lia; [done|].
  apply IH. lia.
Qed.

Lemma nth_imap_lt {A B} (f : nat -> A -> B) (l : list A) i d d' :
  i < length l -> nth i (imap f l) d = f i (nth i l d').
Proof.
  revert f i. induction l as [|x l IH]; intros f [|i] Hi; simpl in *; try lia; [done|].
  rewrite (IH (fun n => f (S n))); [done|lia].
Qed.

Lemma nth_replicate_lt {A} n (x d : A) i : i < n -> nth i (replicate n x) d = x.
Proof. revert i. induction n as [|n IH]; intros [|i] Hi; simpl; auto with lia. Qed.

Lemma nth_seq_lt a n i d : i < n -> nth i (seq a n) d = (a + i)%nat.
Proof. intros Hi. by apply seq_nth. Qed.

(** The number of non-zero entries of a vector of counts. *)
Fixpoint nactive (l : list nat) : nat :=
  match l with
  | [] => 0
  | c :: l' => (if Nat.eqb c 0 then 0 else 1) + nactive l'
  end.

Lemma nactive_insert (l : list nat) k x :
  k < length l ->
  nactive (<[k:=x]> l) + (if Nat.eqb (nth k l 0) 0 then 0 else 1) =
  nactive l + (if Nat.eqb x 0 then 0 else 1).
Proof.
  revert k. induction l as [|c l IH]; intros [|k] Hk; simpl in *; [lia|lia|lia|].
  specialize (IH k ltac:(lia)). lia.
Qed.

Lemma nactive_replicate n : nactive (replicate n 1) = n.
Proof. induction n as [|n IH]; simpl; lia. Qed.

Lemma nactive_exists (l : list nat) :
  1 <= nactive l -> exists b, b < length l /\ nth b l 0 <> 0.
Proof.
  induction l as [|c l IH]; simpl; [lia|]. intros H.
  destruct (Nat.eqb_spec c 0) as [->|Hc].
  - destruct IH as (b & ? & ?); [lia|]. exists (S b). simpl. split; [lia|done].
  - exists 0. simpl. split; [lia|done].
Qed.

(** Two non-zero entries give a pair of distinct positions. *)
Lemma nactive_pair (l : list nat) :
  2 <= nactive l -> exists a b, a < b < length l /\ nth a l 0 <> 0 /\ nth b l 0 <> 0.
Proof.
  induction l as [|c l IH]; simpl; [lia|]. intros H.
  destruct (Nat.eqb_spec c 0) as [->|Hc].
  - destruct IH as (a & b & ? & ? & ?); [lia|]. exists (S a), (S b). simpl. split_and!; first [lia | done].
  - destruct (nactive_exists l) as (b & ? & ?); [lia|]. exists 0, (S b). simpl. split_and!; first [lia | done].
Qed.

Lemma nactive_zero_sum (l : list nat) : nactive l = 0 -> sum_list l = 0.
Proof. induction l as [|c l IH]; simpl; [done|]. destruct (Nat.eqb_spec c 0); lia. Qed.

(** With a single non-zero entry, at the head, the head holds the sum. *)
Lemma nactive_one_head (l : list nat) :
  nactive l = 1 -> nth 0 l 0 <> 0 -> nth 0 l 0 = sum_list l.
Proof.
  destruct l as [|c l]; simpl; [lia|]. intros H Hc.
  destruct (Nat.eqb_spec c 0); [lia|]. rewrite nactive_zero_sum by lia. lia.
Qed.

(** A [for (int i = a; i < a + n; i++)] loop threading an accumulator. *)
Definition for_range {A} (a n : nat) (body : A -> nat -> A) (acc : A) : A :=
  fold_left body (seq a n) acc.

Lemma for_range_S {A} a n (body : A -> nat -> A) acc :
  for_range a (S n) body acc = body (for_range a n body acc) (a + n)%nat.
Proof. unfold for_range. by rewrite seq_S, fold_left_app. Qed.

(** An invariant of the body is an invariant of the loop. *)
Lemma for_range_ind {A} (P : nat -> A -> Prop) a n (body : A -> nat -> A) acc :
  P a acc ->
  (forall k x, a <= k < a + n -> P k x -> P (S k) (body x k)) ->
  P (a + n)%nat (for_range a n body acc).
Proof.
  intros H0 Hstep. induction n as [|n IH].
  - by rewrite Nat.add_0_r.
  - rewrite for_range_S, Nat.add_succ_r. apply Hstep; [lia|].
    apply IH. intros k x Hk. apply Hstep. lia.
Qed.

#[export] Hint Rewrite @for_range_S : clust_rw.

(** Closing tactic for the arithmetic side conditions of the development. *)
Ltac clust_arith := solve [lia | lra | nra | eauto with clust].
