(* ===== verification/LinAlg.v ===== *)
(** * The trusted numeric library

    The dense matrix [TFltVV] and the primitives of glib's [TLinAlg],
    [TLAMisc] and [TLAUtil] that [clustering.h] calls.  They are not part of
    [src/]; their meaning is the one the specification gives (section 1: a
    trusted library of matrix products, column norms and in-place square
    roots).  Matrices are stored by columns, as the clustering code reads
    them: instances and centroids are the columns of their matrices. *)

From S2P Require Import Prelude.

Local Open Scope Q_scope.

Abbreviation vec := (list Q).

(** [TFltVV]: a [vv_rows] x [length vv_cols] matrix given by its columns. *)
Record fltvv := FltVV { vv_rows : nat; vv_cols : list vec }.

(** [TFltVV::GetRows], [GetCols], [GetCol] and the element [M(i,j)]. *)
Definition GetRows (m : fltvv) : nat := vv_rows m.
Definition GetCols (m : fltvv) : nat := length (vv_cols m).
Definition GetCol (m : fltvv) (j : nat) : vec := nth j (vv_cols m) [].
Definition mat_at (m : fltvv) (i j : nat) : Q := at0 (GetCol m j) i.

(** Every column has [vv_rows] entries. *)
Definition vv_wf (m : fltvv) : Prop :=
  Forall (fun c => length c = vv_rows m) (vv_cols m).

(** [TLinAlg::DotProduct] over the common prefix of the two vectors. *)
Fixpoint dot (x y : vec) : Q :=
  match x, y with
  | a :: x', b :: y' => a * b + dot x' y'
  | _, _ => 0
  end.

(** [TLinAlg::Norm2]: the squared Euclidean norm. *)
Definition Norm2 (x : vec) : Q := dot x x.

(** [TLinAlg::GetColNorm2V(X, NormV)]: the squared norm of every column. *)
Definition GetColNorm2V (m : fltvv) : vec := map Norm2 (vv_cols m).

(** [TLinAlg::MultiplyT(C, x, xC)]: [xC = C' x], one entry per column. *)
Definition MultiplyT_v (c : fltvv) (x : vec) : vec := map (fun col => dot col x) (vv_cols c).

(** [TLinAlg::MultiplyT(X, Y, D)]: [D = X' Y], [D(i,j) = x_i . y_j]. *)
Definition MultiplyT_m (x y : fltvv) : fltvv :=
  FltVV (GetCols x) (map (fun yc => map (fun xc => dot xc yc) (vv_cols x)) (vv_cols y)).

(** The direct definition of the squared distance that the expansion
    [|x|^2 - 2 x.c + |c|^2] of the code optimises. *)
Fixpoint sqdist (x c : vec) : Q :=
  match x, c with
  | a :: x', b :: c' => (a - b) * (a - b) + sqdist x' c'
  | _, _ => 0
  end.

(** ** The square root

    [sqrt] of the C library and [TLAMisc::Sqrt] are trusted: the clustering
    code only needs them non-negative, monotone on non-negative arguments and
    zero at zero. *)
Class SqrtLib := {
  Qsqrt : Q -> Q;
  Qsqrt_nonneg : forall x, 0 <= Qsqrt x;
  Qsqrt_mono : forall x y, 0 <= x -> x <= y -> Qsqrt x <= Qsqrt y;
  Qsqrt_0 : Qsqrt 0 == 0;
  Qsqrt_proper :: Proper (Qeq ==> Qeq) Qsqrt
}.

(** [TLAMisc::Sqrt(D)]: the square root of every entry, in place. *)
Definition Sqrt_m `{SqrtLib} (d : fltvv) : fltvv :=
  FltVV (vv_rows d) (map (map Qsqrt) (vv_cols d)).

(** An executable instance: the square root rounded down to 1/1000. *)
Definition Qsqrt3 (x : Q) : Q := Z.sqrt (Qfloor (x * 1000000)) # 1000.

Lemma Qsqrt3_mono x y : 0 <= x -> x <= y -> Qsqrt3 x <= Qsqrt3 y.
Proof.
  intros _ Hxy. unfold Qsqrt3, Qle. cbn [Qnum Qden].
  apply Z.mul_le_mono_nonneg_r; [lia|].
  apply Z.sqrt_le_mono, Qfloor_resp_le. nra.
Qed.

#[export] Program Instance Qsqrt3_lib : SqrtLib := {| Qsqrt := Qsqrt3 |}.
Next Obligation.
  intros x. unfold Qsqrt3, Qle. cbn [Qnum Qden]. pose proof (Z.sqrt_nonneg (Qfloor (x * 1000000))). lia.
Qed.
Next Obligation. apply Qsqrt3_mono. Qed.
Next Obligation. reflexivity. Qed.
Next Obligation.
  intros x y Hxy. unfold Qsqrt3. by rewrite (Qfloor_comp (x * 1000000) (y * 1000000)) by (rewrite Hxy; reflexivity).
Qed.

(** ** Lemmas on the primitives *)

Lemma dot_comm x y : dot x y == dot y x.
Proof.
  revert y. induction x as [|a x IH]; intros [|b y]; simpl; try reflexivity.
  rewrite IH. ring.
Qed.

Lemma sqdist_comm x c : sqdist x c == sqdist c x.
Proof.
  revert c. induction x as [|a x IH]; intros [|b c]; simpl; try reflexivity.
  rewrite IH. ring.
Qed.

Lemma sqdist_nonneg x c : 0 <= sqdist x c.
Proof.
  revert c. induction x as [|a x IH]; intros [|b c]; simpl; try apply Qle_refl.
  specialize (IH c). pose proof (Qsquare_nonneg (a - b)). lra.
Qed.

Lemma Norm2_nonneg x : 0 <= Norm2 x.
Proof.
  unfold Norm2. induction x as [|a x IH]; simpl; [apply Qle_refl|].
  pose proof (Qsquare_nonneg a). lra.
Qed.

Lemma sqdist_diag x : sqdist x x == 0.
Proof. induction x as [|a x IH]; simpl; [reflexivity|]. rewrite IH. ring. Qed.

(** The expansion the code uses is the squared distance, for operands of the
    same dimension. *)
Lemma expansion_sqdist x c :
  length x = length c -> Norm2 x - 2 * dot x c + Norm2 c == sqdist x c.
Proof.
  unfold Norm2. revert c. induction x as [|a x IH]; intros [|b c] Hlen; simpl in *;
    try discriminate; [reflexivity|].
  rewrite <- (IH c) by lia. ring.
Qed.

Lemma length_MultiplyT_v c x : length (MultiplyT_v c x) = GetCols c.
Proof. unfold MultiplyT_v, GetCols. by rewrite length_map. Qed.

Lemma length_GetColNorm2V m : length (GetColNorm2V m) = GetCols m.
Proof. unfold GetColNorm2V, GetCols. by rewrite length_map. Qed.

Lemma vv_wf_col m j : vv_wf m -> (j < GetCols m)%nat -> length (GetCol m j) = vv_rows m.
Proof.
  unfold vv_wf, GetCol, GetCols. intros Hwf Hj.
  rewrite Forall_forall in Hwf. apply Hwf, list_elem_of_In, nth_In. done.
Qed.

Lemma at0_GetColNorm2V m i :
  (i < GetCols m)%nat -> at0 (GetColNorm2V m) i = Norm2 (GetCol m i).
Proof. intros Hi. unfold at0, GetColNorm2V, GetCol. by rewrite (nth_map_lt _ _ _ _ []). Qed.

Lemma at0_MultiplyT_v c x i :
  (i < GetCols c)%nat -> at0 (MultiplyT_v c x) i = dot (GetCol c i) x.
Proof. intros Hi. unfold at0, MultiplyT_v, GetCol. by rewrite (nth_map_lt _ _ _ _ []). Qed.

Lemma mat_at_MultiplyT_m x y i j :
  (i < GetCols x)%nat -> (j < GetCols y)%nat ->
  mat_at (MultiplyT_m x y) i j = dot (GetCol x i) (GetCol y j).
Proof.
  intros Hi Hj. unfold mat_at, MultiplyT_m, GetCol at 1, at0; simpl.
  rewrite (nth_map_lt _ _ _ _ []) by done.
  by rewrite (nth_map_lt _ _ _ _ []) by done.
Qed.

#[export] Hint Resolve sqdist_nonneg Norm2_nonneg Qsqrt_nonneg : clust.

(** ** Sums and means of vectors *)

(** The sum of a list of doubles, left to right. *)
Definition Qsum (l : list Q) : Q := fold_right Qplus 0 l.

(** [TLinAlg::AddVec]: entrywise sum over the common prefix. *)
Fixpoint vadd (x y : vec) : vec :=
  match x, y with
  | a :: x', b :: y' => (a + b) :: vadd x' y'
  | _, _ => []
  end.

(** The sum of the vectors [xs], each of dimension [d]. *)
Definition vsum (d : nat) (xs : list vec) : vec := fold_right vadd (repeat 0 d) xs.

(** The mean of a non-empty list of vectors of dimension [d]. *)
Definition vmean (d : nat) (xs : list vec) : vec :=
  map (Qmult (1 / inject_Z (Z.of_nat (length xs)))) (vsum d xs).

(** ** Sparse vectors ([TIntFltKdV])

    A sparse vector is the list of its non-zero entries as (index, value)
    pairs; glib keeps them sorted by index, the model only needs the
    indices to be distinct.  A sparse matrix is the list of its sparse
    columns. *)

Abbreviation spvec := (list (nat * Q)).

(** The entry at index [k]. *)
Fixpoint sp_at (v : spvec) (k : nat) : Q :=
  match v with [] => 0 | (i, a) :: v' => if Nat.eqb i k then a else sp_at v' k end.

(** [TLinAlg::Norm2] of a sparse vector. *)
Definition Norm2_sp (v : spvec) : Q := Qsum (map (fun p => p.2 * p.2) v).

(** [TLinAlg::GetColNorm2V] of a sparse matrix. *)
Definition GetColNorm2V_sp (X : list spvec) : vec := map Norm2_sp X.

(** [TLinAlg::DotProduct] of two sparse vectors. *)
Definition dot_sp (x y : spvec) : Q := Qsum (map (fun p => p.2 * sp_at y p.1) x).

(** [TLinAlg::MultiplyT] with sparse operands. *)
Definition MultiplyT_sp_v (C : list spvec) (x : spvec) : vec := map (fun c => dot_sp c x) C.
Definition MultiplyT_sp_m (X Y : list spvec) : fltvv :=
  FltVV (length X) (map (fun yc => map (fun xc => dot_sp xc yc) X) Y).

(** The dense form of a sparse vector or matrix of dimension [d]. *)
Definition to_dense (d : nat) (v : spvec) : vec := map (sp_at v) (seq 0 d).
Definition to_dense_m (d : nat) (X : list spvec) : fltvv := FltVV d (map (to_dense d) X).

(** Distinct indices below the dimension. *)
Definition sp_wf (d : nat) (v : spvec) : Prop := NoDup (map fst v) /\ Forall (fun p => (p.1 < d)%nat) v.

(** Two matrices of the same shape whose entries are equal as rationals:
    the equality of [TFltVV] values that the numeric code can observe. *)
Definition vv_equiv (A B : fltvv) : Prop :=
  vv_rows A = vv_rows B /\ Forall2 (Forall2 Qeq) (vv_cols A) (vv_cols B).

Lemma Qsum_app l1 l2 : Qsum (l1 ++ l2) == Qsum l1 + Qsum l2.
Proof. induction l1 as [|a l1 IH]; simpl; [ring|]. rewrite IH. ring. Qed.

Lemma Qsum_map_plus {A} (f g : A -> Q) (l : list A) :
  Qsum (map (fun a => f a + g a) l) == Qsum (map f l) + Qsum (map g l).
Proof. induction l as [|a l IH]; simpl; [ring|]. rewrite IH. ring. Qed.

Lemma Qsum_map_scale {A} (s : Q) (f : A -> Q) (l : list A) :
  Qsum (map (fun a => s * f a) l) == s * Qsum (map f l).
Proof. induction l as [|a l IH]; simpl; [ring|]. rewrite IH. ring. Qed.

Lemma Qsum_map_const {A} (s : Q) (l : list A) :
  Qsum (map (fun _ => s) l) == inject_Z (Z.of_nat (length l)) * s.
Proof.
  induction l as [|a l IH]; simpl; [ring|]. rewrite IH.
  rewrite Nat2Z.inj_succ, <- Z.add_1_r, inject_Z_plus. ring.
Qed.

Lemma Qsum_map_ext {A} (f g : A -> Q) (l : list A) :
  (forall a, a ∈ l -> f a == g a) -> Qsum (map f l) == Qsum (map g l).
Proof.
  induction l as [|a l IH]; intros Hfg; simpl; [reflexivity|].
  rewrite Hfg by set_solver. rewrite IH by set_solver. reflexivity.
Qed.

Lemma Qsum_map_le {A} (f g : A -> Q) (l : list A) :
  (forall a, a ∈ l -> f a <= g a) -> Qsum (map f l) <= Qsum (map g l).
Proof.
  induction l as [|a l IH]; intros Hfg; simpl; [apply Qle_refl|].
  apply Qplus_le_compat; [apply Hfg; set_solver|apply IH; set_solver].
Qed.

Lemma Qsum_nonneg {A} (f : A -> Q) (l : list A) :
  (forall a, a ∈ l -> 0 <= f a) -> 0 <= Qsum (map f l).
Proof.
  intros H. eapply Qle_trans; [|apply (Qsum_map_le (fun _ => 0))]; [|done].
  rewrite Qsum_map_const. lra.
Qed.

(** Exchanging two finite sums. *)
Lemma Qsum_swap {A B} (f : A -> B -> Q) (la : list A) (lb : list B) :
  Qsum (map (fun a => Qsum (map (f a) lb)) la) == Qsum (map (fun b => Qsum (map (fun a => f a b) la)) lb).
Proof.
  induction la as [|a la IH]; simpl.
  - rewrite Qsum_map_const. ring.
  - rewrite IH, <- Qsum_map_plus. reflexivity.
Qed.

(** The squared distance of two vectors of dimension [d] as a sum over
    their coordinates. *)
Lemma sqdist_coords x c d :
  length x = d -> length c = d ->
  sqdist x c == Qsum (map (fun k => (at0 x k - at0 c k) * (at0 x k - at0 c k)) (seq 0 d)).
Proof.
  revert c d. induction x as [|a x IH]; intros [|b c] d Hx Hc; simpl in *; subst; try discriminate.
  - reflexivity.
  - injection Hc as Hc. rewrite (IH c (length x)) by done. unfold at0. simpl.
    rewrite <- seq_shift, map_map. reflexivity.
Qed.

Lemma Qsum_filter {A} (P : A -> Prop) `{!forall x, Decision (P x)} (g : A -> Q) (l : list A) :
  Qsum (map g (filter P l)) == Qsum (map (fun x => if decide (P x) then g x else 0) l).
Proof.
  induction l as [|a l IH]; simpl; [reflexivity|]. rewrite filter_cons.
  case_decide; simpl; rewrite IH; ring.
Qed.

(** Summing an indicator over [0 .. K-1] picks the one matching index. *)
Lemma Qsum_indicator (K a : nat) (v : Q) :
  (a < K)%nat -> Qsum (map (fun k => if decide (a = k) then v else 0) (seq 0 K)) == v.
Proof.
  induction K as [|K IH]; intros Ha; [lia|].
  rewrite seq_S, map_app, Qsum_app. simpl. destruct (decide (a = K)) as [->|Hne].
  - rewrite (Qsum_map_ext _ (fun _ => 0)), Qsum_map_const; [ring|].
    intros k Hk%elem_of_seq. rewrite decide_False by lia. reflexivity.
  - rewrite IH by lia. ring.
Qed.

(** Moving the centre of a sum of squares from [c] to [m]. *)
Lemma Qsum_sq_shift (l : list Q) (c m : Q) :
  Qsum (map (fun v => (v - c) * (v - c)) l) ==
  Qsum (map (fun v => (v - m) * (v - m)) l) + 2 * (m - c) * (Qsum l - inject_Z (Z.of_nat (length l)) * m) +
  inject_Z (Z.of_nat (length l)) * ((m - c) * (m - c)).
Proof.
  induction l as [|a l IH]; simpl; [ring|]. rewrite IH.
  rewrite Nat2Z.inj_succ, <- Z.add_1_r, inject_Z_plus. ring.
Qed.

(** The mean of the values minimises their sum of squared deviations. *)
Lemma mean_coord_min (l : list Q) (c : Q) :
  (0 < length l)%nat ->
  let m := Qsum l / inject_Z (Z.of_nat (length l)) in
  Qsum (map (fun v => (v - m) * (v - m)) l) <= Qsum (map (fun v => (v - c) * (v - c)) l).
Proof.
  intros Hl m. rewrite (Qsum_sq_shift l c m).
  assert (Hn : 0 < inject_Z (Z.of_nat (length l))) by (unfold Qlt; simpl; lia).
  assert (Hm : Qsum l - inject_Z (Z.of_nat (length l)) * m == 0).
  { unfold m. field. lra. }
  rewrite Hm. pose proof (Qsquare_nonneg (m - c)). nra.
Qed.

Lemma length_vadd x y : length (vadd x y) = Nat.min (length x) (length y).
Proof. revert y. induction x as [|a x IH]; intros [|b y]; simpl; auto. Qed.

Lemma at0_vadd x y k :
  (k < length x)%nat -> (k < length y)%nat -> at0 (vadd x y) k = at0 x k + at0 y k.
Proof.
  unfold at0. revert y k. induction x as [|a x IH]; intros [|b y] [|k] Hx Hy; simpl in *; try lia; [done|].
  apply IH; lia.
Qed.

Lemma length_vsum d xs : Forall (fun x => length x = d) xs -> length (vsum d xs) = d.
Proof.
  unfold vsum. induction 1 as [|x xs Hx _ IH]; simpl; [apply repeat_length|].
  rewrite length_vadd. lia.
Qed.

Lemma at0_vsum d xs k :
  Forall (fun x => length x = d) xs -> (k < d)%nat ->
  at0 (vsum d xs) k == Qsum (map (fun x => at0 x k) xs).
Proof.
  intros Hxs Hk. pose proof (length_vsum d xs Hxs) as Hlen. revert Hlen.
  unfold vsum. induction Hxs as [|x xs Hx Hxs IH]; simpl; intros Hlen.
  - unfold at0. rewrite nth_repeat_lt by done. reflexivity.
  - rewrite length_vadd in Hlen. rewrite at0_vadd by lia.
    rewrite IH; [reflexivity|]. by apply length_vsum.
Qed.

Lemma length_vmean d xs : Forall (fun x => length x = d) xs -> length (vmean d xs) = d.
Proof. intros H. unfold vmean. rewrite length_map. by apply length_vsum. Qed.

Lemma at0_vmean d xs k :
  Forall (fun x => length x = d) xs -> (k < d)%nat ->
  at0 (vmean d xs) k == Qsum (map (fun x => at0 x k) xs) / inject_Z (Z.of_nat (length xs)).
Proof.
  intros Hxs Hk. unfold vmean, at0.
  rewrite (nth_map_lt _ _ _ _ 0) by (rewrite length_vsum; done).
  fold (at0 (vsum d xs) k). rewrite at0_vsum by done. unfold at0, Qdiv. ring.
Qed.


(** A sum of [n] terms between [lo] and [hi] lies between [n lo] and [n hi]. *)
Lemma Qsum_bounds {A} (f : A -> Q) (l : list A) lo hi :
  (forall x, x ∈ l -> lo <= f x <= hi) ->
  lo * inject_Z (Z.of_nat (length l)) <= Qsum (map f l) <= hi * inject_Z (Z.of_nat (length l)).
Proof.
  induction l as [|x l IH]; intros Hb; simpl; [rewrite !Qmult_0_r; lra|].
  destruct (Hb x ltac:(constructor)) as [Hlo Hhi].
  destruct IH as [IHlo IHhi]; [intros y Hy; apply Hb; by constructor|].
  rewrite Nat2Z.inj_succ, <- Z.add_1_r, inject_Z_plus, !Qmult_plus_distr_r.
  change (inject_Z 1) with 1. rewrite !Qmult_1_r. lra.
Qed.

(** Each coordinate of the mean of non-empty points lies between bounds
    that the coordinate of every point respects. *)
Lemma vmean_bounds d xs k lo hi :
  xs <> [] -> Forall (fun x => length x = d) xs -> (k < d)%nat ->
  (forall x, x ∈ xs -> lo <= at0 x k <= hi) -> lo <= at0 (vmean d xs) k <= hi.
Proof.
  intros Hne Hxs Hk Hb. rewrite at0_vmean by done.
  assert (Hn : 0 < inject_Z (Z.of_nat (length xs))) by (destruct xs; [done|unfold Qlt; simpl; lia]).
  destruct (Qsum_bounds (fun x => at0 x k) xs lo hi Hb) as [Hlo Hhi].
  split; [apply Qle_shift_div_l | apply Qle_shift_div_r]; done.
Qed.

Lemma Qsum_sqdist_coords d xs c :
  Forall (fun x => length x = d) xs -> length c = d ->
  Qsum (map (fun x => sqdist x c) xs) ==
  Qsum (map (fun k => Qsum (map (fun x => (at0 x k - at0 c k) * (at0 x k - at0 c k)) xs)) (seq 0 d)).
Proof.
  intros Hxs Hc. rewrite Forall_forall in Hxs.
  rewrite (Qsum_map_ext _ (fun x => Qsum (map (fun k => (at0 x k - at0 c k) * (at0 x k - at0 c k)) (seq 0 d)))).
  - apply (Qsum_swap (fun x k => (at0 x k - at0 c k) * (at0 x k - at0 c k))).
  - intros x Hx. apply sqdist_coords; auto.
Qed.

(** The fact behind Lloyd's update step: the mean of a non-empty list of
    points of dimension [d] is no farther from them, in total squared
    distance, than any other point of dimension [d]. *)
Lemma vmean_minimizes d xs c :
  Forall (fun x => length x = d) xs -> length c = d -> xs <> [] ->
  Qsum (map (fun x => sqdist x (vmean d xs)) xs) <= Qsum (map (fun x => sqdist x c) xs).
Proof.
  intros Hxs Hc Hne.
  rewrite (Qsum_sqdist_coords d xs c), (Qsum_sqdist_coords d xs (vmean d xs)) by auto using length_vmean.
  apply Qsum_map_le. intros k Hk%elem_of_seq.
  pose proof (mean_coord_min (map (fun x => at0 x k) xs) (at0 c k)) as Hmin.
  cbv zeta in Hmin. rewrite length_map, !map_map in Hmin.
  eapply Qle_trans; [|apply Hmin; destruct xs; [done|simpl; lia]].
  apply Qle_lteq. right. apply Qsum_map_ext. intros x _.
  rewrite at0_vmean by (auto with lia). reflexivity.
Qed.

(** ** Lemmas: sparse and dense agree *)

Lemma dot_seq (f g : nat -> Q) s d :
  dot (map f (seq s d)) (map g (seq s d)) == Qsum (map (fun k => f k * g k) (seq s d)).
Proof. revert s. induction d as [|d IH]; intros s; simpl; [reflexivity|]. by rewrite IH. Qed.

Lemma sp_at_notin (v : spvec) k : k ∉ map fst v -> sp_at v k = 0.
Proof.
  induction v as [|[i a] v IH]; simpl; [done|]. rewrite not_elem_of_cons. intros [Hik Hk].
  destruct (Nat.eqb_spec i k); [congruence|]. by apply IH.
Qed.

Lemma sum_sp_at (x : spvec) (g : nat -> Q) d :
  sp_wf d x -> Qsum (map (fun k => sp_at x k * g k) (seq 0 d)) == Qsum (map (fun p => p.2 * g p.1) x).
Proof.
  induction x as [|[i a] x IH]; intros [Hnd Hlt].
  - simpl. rewrite (Qsum_map_ext _ (fun _ => 0)), Qsum_map_const; [ring|]. intros; simpl; ring.
  - simpl in Hnd |- *. apply NoDup_cons in Hnd as [Hi Hnd]. apply Forall_cons in Hlt as [Hid Hlt]. simpl in Hid.
    rewrite (Qsum_map_ext _ (fun k => (if decide (i = k) then a * g i else 0) + sp_at x k * g k)).
    + rewrite Qsum_map_plus, Qsum_indicator by done. rewrite IH by done. reflexivity.
    + intros k _. destruct (Nat.eqb_spec i k) as [<-|Hne].
      * rewrite decide_True, sp_at_notin by done. ring.
      * rewrite decide_False by done. ring.
Qed.

Lemma dot_sp_dense d x y : sp_wf d x -> dot_sp x y == dot (to_dense d x) (to_dense d y).
Proof. intros Hx. unfold to_dense. rewrite dot_seq, sum_sp_at by done. reflexivity. Qed.

Lemma sp_at_elem (v : spvec) i a : NoDup (map fst v) -> (i, a) ∈ v -> sp_at v i = a.
Proof.
  induction v as [|[j b] v IH]; simpl; intros Hnd Hin; [set_solver|].
  apply NoDup_cons in Hnd as [Hj Hnd]. apply elem_of_cons in Hin as [[= -> ->]|Hin].
  - by rewrite Nat.eqb_refl.
  - destruct (Nat.eqb_spec j i) as [->|]; [|by apply IH].
    exfalso. apply Hj. apply list_elem_of_fmap. by exists (i, a).
Qed.

Lemma Norm2_sp_dense d x : sp_wf d x -> Norm2_sp x == Norm2 (to_dense d x).
Proof.
  intros Hx. unfold Norm2. rewrite <- dot_sp_dense by done. unfold dot_sp, Norm2_sp.
  apply Qsum_map_ext. intros [i a] Hin. simpl. rewrite (sp_at_elem x i a); [reflexivity|apply Hx|done].
Qed.

#[export] Instance sp_wf_dec d v : Decision (sp_wf d v).
Proof. unfold sp_wf. apply _. Defined.

(** ** The setoid of matrices *)

Lemma Forall2_map_same {A B C} (R : B -> C -> Prop) (f : A -> B) (g : A -> C) (l : list A) :
  (forall a, a ∈ l -> R (f a) (g a)) -> Forall2 R (map f l) (map g l).
Proof. induction l as [|a l IH]; intros H; simpl; constructor; [apply H|apply IH]; set_solver. Qed.

Lemma Forall2_map_2 {A A' B B'} (R : A -> A' -> Prop) (S : B -> B' -> Prop) f g l k :
  Forall2 R l k -> (forall x y, R x y -> S (f x) (g y)) -> Forall2 S (map f l) (map g k).
Proof. intros H Hfg. induction H; simpl; constructor; auto. Qed.

Lemma Forall2_imap {A A' B B'} (R : A -> A' -> Prop) (S : B -> B' -> Prop) f g l k :
  Forall2 R l k -> (forall i x y, R x y -> S (f i x) (g i y)) -> Forall2 S (imap f l) (imap g k).
Proof.
  intros H. revert f g. induction H as [|x y l k Hxy H IH]; intros f g Hfg; simpl; constructor; auto.
  apply IH. intros i. apply Hfg.
Qed.

Lemma Forall2_nth {A B} (R : A -> B -> Prop) l k d d' j :
  Forall2 R l k -> R d d' -> R (nth j l d) (nth j k d').
Proof. intros H Hd. revert j. induction H; intros [|j]; simpl; auto. Qed.

Lemma at0_Forall2 v w i : Forall2 Qeq v w -> at0 v i == at0 w i.
Proof. intros H. unfold at0. by apply Forall2_nth. Qed.

#[export] Instance vv_equiv_Equivalence : Equivalence vv_equiv.
Proof.
  split.
  - intros A. by split.
  - intros A B [Hr H]. by split.
  - intros A B C [H1 H2] [H3 H4]. split; [congruence|]. by etransitivity.
Qed.

#[export] Instance mat_at_proper : Proper (vv_equiv ==> eq ==> eq ==> Qeq) mat_at.
Proof.
  intros A B [_ H] i ? <- j ? <-. unfold mat_at, GetCol.
  apply at0_Forall2, Forall2_nth; [done|constructor].
Qed.

#[export] Instance Sqrt_m_proper `{SqrtLib} : Proper (vv_equiv ==> vv_equiv) Sqrt_m.
Proof.
  intros A B [Hr HAB]. split; [done|]. cbn [Sqrt_m vv_cols].
  eapply Forall2_map_2; [exact HAB|]. intros c c' Hc.
  eapply Forall2_map_2; [exact Hc|]. intros x y Hxy. by apply Qsqrt_proper.
Qed.

(** ** The sparse primitives refine the dense ones *)

Lemma GetCols_to_dense_m d X : GetCols (to_dense_m d X) = length X.
Proof. apply length_map. Qed.

Lemma length_to_dense d v : length (to_dense d v) = d.
Proof. unfold to_dense. by rewrite length_map, length_seq. Qed.

Lemma to_dense_m_wf d X : vv_wf (to_dense_m d X).
Proof.
  unfold vv_wf, to_dense_m; simpl. apply Forall_forall.
  intros c (v & -> & _)%list_elem_of_fmap. apply length_to_dense.
Qed.

Lemma GetCol_to_dense_m d X i : (i < length X)%nat -> GetCol (to_dense_m d X) i = to_dense d (nth i X []).
Proof. intros Hi. unfold GetCol, to_dense_m; simpl. by rewrite (nth_map_lt _ _ _ _ []). Qed.

Lemma sp_wf_in d X c : Forall (sp_wf d) X -> c ∈ X -> sp_wf d c.
Proof. rewrite Forall_forall. auto. Qed.

Lemma GetColNorm2V_sp_dense d X :
  Forall (sp_wf d) X -> Forall2 Qeq (GetColNorm2V_sp X) (GetColNorm2V (to_dense_m d X)).
Proof.
  intros HX. unfold GetColNorm2V_sp, GetColNorm2V, to_dense_m; cbn [vv_cols].
  rewrite map_map. apply Forall2_map_same. intros c Hc. by eapply Norm2_sp_dense, sp_wf_in.
Qed.

Lemma MultiplyT_sp_v_dense d C x :
  Forall (sp_wf d) C -> Forall2 Qeq (MultiplyT_sp_v C x) (MultiplyT_v (to_dense_m d C) (to_dense d x)).
Proof.
  intros HC. unfold MultiplyT_sp_v, MultiplyT_v, to_dense_m; cbn [vv_cols].
  rewrite map_map. apply Forall2_map_same. intros c Hc. by eapply dot_sp_dense, sp_wf_in.
Qed.

Lemma MultiplyT_sp_m_dense d X Y :
  Forall (sp_wf d) X -> vv_equiv (MultiplyT_sp_m X Y) (MultiplyT_m (to_dense_m d X) (to_dense_m d Y)).
Proof.
  intros HX. unfold MultiplyT_sp_m, MultiplyT_m. split; cbn [vv_rows vv_cols].
  - by rewrite GetCols_to_dense_m.
  - unfold to_dense_m; cbn [vv_cols]. rewrite map_map. apply Forall2_map_same. intros yc _.
    rewrite map_map. apply Forall2_map_same. intros xc Hxc. by eapply dot_sp_dense, sp_wf_in.
Qed.

