(* ===== verification/Distance.v ===== *)
(** * Distance strategies ([namespace TDistance], clustering.h lines 9-156)

    [TDist] is the abstract class of distance strategies; it is modelled as
    the class [TDist] of its operations, each with its dense and its sparse
    overload.  The output arguments of the
    C++ methods ([TFltV& DistV], [TFltVV& D], [TFltV& NormX2]) are explicit
    inputs and results, so that a method that does not write its output
    (the empty bodies of [TCosDist] and the default [UpdateNormX2]) returns
    the caller's buffer unchanged.  [TEuclDist] is the instance [EuclDist];
    [TCosDist] is [CosDist].  [DistLaws] states what the clustering code may
    rely on, and [EuclDist_laws] proves it for the Euclidean distance. *)

From Stdlib Require Import String.
From S2P Require Import Prelude LinAlg.

Local Open Scope Q_scope.

(** ** The sparse types of the namespace (lines 11-14) *)

Definition TSpV : Type := spvec.
Definition TSpVV : Type := list spvec.

(** ** The interface [TDist] (lines 18-56) *)

(** Every method has a dense overload ([TFltVV], [TFltV]) and a sparse one
    ([TSpVV], [TSpV]); the sparse fields carry the suffix [_sp]. *)
Class TDist := {
  (** [GetDistV(X, y, DistV)]: the distance of [y] to each column of [X]. *)
  GetDistV : fltvv -> vec -> vec -> res vec;
  GetDistV_sp : TSpVV -> TSpV -> vec -> res vec;
  (** [GetDistVV(X, Y, D)]: [D(i,j)] is the distance of [x_i] to [y_j]. *)
  GetDistVV : fltvv -> fltvv -> fltvv -> fltvv;
  GetDistVV_sp : TSpVV -> TSpVV -> fltvv -> fltvv;
  (** [GetDist2VV(X, Y, D)]: the squared distances. *)
  GetDist2VV : fltvv -> fltvv -> fltvv -> fltvv;
  GetDist2VV_sp : TSpVV -> TSpVV -> fltvv -> fltvv;
  (** [UpdateNormX2], [UpdateNormC2]: refresh a cached vector of norms. *)
  UpdateNormX2 : fltvv -> vec -> vec;
  UpdateNormX2_sp : TSpVV -> vec -> vec;
  UpdateNormC2 : fltvv -> vec -> vec;
  UpdateNormC2_sp : TSpVV -> vec -> vec;
  (** [GetDist2VV(X, Y, NormX, NormC, D)]: the squared distances, reusing
      the cached norms. *)
  GetDist2VV_cached : fltvv -> fltvv -> vec -> vec -> fltvv -> fltvv;
  GetDist2VV_cached_sp : TSpVV -> TSpVV -> vec -> vec -> fltvv -> fltvv;
  (** [GetType()]: the name of the concrete class, written by [Save]. *)
  GetType : string
}.

(** The default bodies of the virtual methods (lines 44-53), for both
    representations: the norm updates do nothing and the cached overload
    ignores the cache. *)
Definition TDist_UpdateNorm {M} (m : M) (norms : vec) : vec := norms.

Definition TDist_GetDist2VV_cached {M} (dist2 : M -> M -> fltvv -> fltvv)
    (X Y : M) (_ _ : vec) (D : fltvv) : fltvv :=
  dist2 X Y D.

(** ** [TEuclDist] (lines 58-134)

    The private templates are generic in the matrix and vector types; the
    [TLinAlg] overloads they call are their parameters.  The public methods
    instantiate them with the dense and the sparse types. *)

Module Eucl.

(** [TEuclDist::TYPE] (declared line 60, returned by [GetType] line 82).
    Its value is set in clustering.cpp; the loader only needs the names of
    the two classes to differ. *)
Definition TYPE : string := "euclid"%string.

(** The threshold of the [AssertR] in [GetDistV]: [-1e-8]. *)
Definition num_eps : Q := 1 # 100000000.

(** The body of the loop of [GetDistV] (lines 98-103) for one centroid:
    [DistV[i] += NormX2 - 2*xC[i]], the assertion, the clamp and [sqrt]. *)
Definition GetDistV_elem `{SqrtLib} (NormX2 normc2 xc : Q) : res Q :=
  let d := normc2 + (NormX2 - 2 * xc) in
  if Qltb (- num_eps) d then Ok (Qsqrt (clamp0 d)) else Err ENumInstability.

(** The template [GetDistV<TMatType, TVecType>] (lines 85-104). *)
Definition GetDistV_t `{SqrtLib} {M V : Type} (Norm2_ : V -> Q) (GetColNorm2V_ : M -> vec)
    (MultiplyT_ : M -> V -> vec) (CentroidVV : M) (FtrV : V) (_ : vec) : res vec :=
  let NormX2 := Norm2_ FtrV in
  let DistV := GetColNorm2V_ CentroidVV in
  let xC := MultiplyT_ CentroidVV FtrV in
  mapM (fun i => GetDistV_elem NormX2 (at0 DistV i) (at0 xC i)) (seq 0 (length DistV)).

(** [GetDistV] on dense (line 62) and sparse (line 63) arguments. *)
Definition GetDistV `{SqrtLib} : fltvv -> vec -> vec -> res vec :=
  GetDistV_t Norm2 GetColNorm2V MultiplyT_v.
Definition GetDistV_sp `{SqrtLib} : TSpVV -> TSpV -> vec -> res vec :=
  GetDistV_t Norm2_sp GetColNorm2V_sp MultiplyT_sp_v.

(** The templates [UpdateNormX2<TMatType>] and [UpdateNormC2<TMatType>]
    (lines 125-133): the column norms. *)
Definition UpdateNorm_t {M : Type} (GetColNorm2V_ : M -> vec) (m : M) (_ : vec) : vec := GetColNorm2V_ m.

(** [UpdateNormX2], [UpdateNormC2] on dense (lines 71, 74) and sparse
    (lines 72, 75) matrices. *)
Definition UpdateNorm : fltvv -> vec -> vec := UpdateNorm_t GetColNorm2V.
Definition UpdateNorm_sp : TSpVV -> vec -> vec := UpdateNorm_t GetColNorm2V_sp.

(** [GetDist2VV(X, Y, NormX2, NormY2, D)] (declared lines 77-80, defined in
    clustering.cpp): the cross term [X'Y] by one product, then
    [D(i,j) = NormX2[i] - 2 (X'Y)(i,j) + NormY2[j]]; the product is the
    [TLinAlg::MultiplyT] of the representation. *)
Definition GetDist2VV_cached_t {M : Type} (MultiplyT_ : M -> M -> fltvv)
    (X Y : M) (NormX2 NormY2 : vec) (_ : fltvv) : fltvv :=
  let XY := MultiplyT_ X Y in
  FltVV (GetRows XY)
    (imap (fun j col => imap (fun i p => at0 NormX2 i - 2 * p + at0 NormY2 j) col)
          (vv_cols XY)).

Definition GetDist2VV_cached : fltvv -> fltvv -> vec -> vec -> fltvv -> fltvv :=
  GetDist2VV_cached_t MultiplyT_m.
Definition GetDist2VV_cached_sp : TSpVV -> TSpVV -> vec -> vec -> fltvv -> fltvv :=
  GetDist2VV_cached_t MultiplyT_sp_m.

(** The template [GetDist2VV<TMatType>(X, Y, D)] (lines 117-123): computes
    both norm vectors and calls the cached overload. *)
Definition GetDist2VV_t {M : Type} (GetColNorm2V_ : M -> vec)
    (cached : M -> M -> vec -> vec -> fltvv -> fltvv) (X Y : M) (D : fltvv) : fltvv :=
  let NormX2 := GetColNorm2V_ X in
  let NormY2 := GetColNorm2V_ Y in
  cached X Y NormX2 NormY2 D.

(** [GetDist2VV(X, Y, D)] on dense (line 68) and sparse (line 69) matrices. *)
Definition GetDist2VV : fltvv -> fltvv -> fltvv -> fltvv :=
  GetDist2VV_t GetColNorm2V GetDist2VV_cached.
Definition GetDist2VV_sp : TSpVV -> TSpVV -> fltvv -> fltvv :=
  GetDist2VV_t GetColNorm2V_sp GetDist2VV_cached_sp.

(** The template [GetDistVV<TMatType>(X, Y, D)] (lines 109-113): the squared
    distances, then [TLAMisc::Sqrt] in place. *)
Definition GetDistVV_t `{SqrtLib} {M : Type} (GetDist2VV_ : M -> M -> fltvv -> fltvv)
    (X Y : M) (D : fltvv) : fltvv :=
  Sqrt_m (GetDist2VV_ X Y D).

(** [GetDistVV] on dense (line 65) and sparse (line 66) matrices. *)
Definition GetDistVV `{SqrtLib} : fltvv -> fltvv -> fltvv -> fltvv := GetDistVV_t GetDist2VV.
Definition GetDistVV_sp `{SqrtLib} : TSpVV -> TSpVV -> fltvv -> fltvv := GetDistVV_t GetDist2VV_sp.

End Eucl.

#[export] Instance EuclDist `{SqrtLib} : TDist | 0 := {|
  GetDistV := Eucl.GetDistV;
  GetDistV_sp := Eucl.GetDistV_sp;
  GetDistVV := Eucl.GetDistVV;
  GetDistVV_sp := Eucl.GetDistVV_sp;
  GetDist2VV := Eucl.GetDist2VV;
  GetDist2VV_sp := Eucl.GetDist2VV_sp;
  UpdateNormX2 := Eucl.UpdateNorm;
  UpdateNormX2_sp := Eucl.UpdateNorm_sp;
  UpdateNormC2 := Eucl.UpdateNorm;
  UpdateNormC2_sp := Eucl.UpdateNorm_sp;
  GetDist2VV_cached := Eucl.GetDist2VV_cached;
  GetDist2VV_cached_sp := Eucl.GetDist2VV_cached_sp;
  GetType := Eucl.TYPE
|}.

(** ** [TCosDist] (lines 136-154): every body is empty ([// TODO implement
    me]), so every output argument keeps what the caller passed in.  Each
    body serves both overloads. *)

Module Cos.
(** [TCosDist::TYPE] (declared line 138), set in clustering.cpp (see [Eucl.TYPE]). *)
Definition TYPE : string := "cos"%string.
Definition GetDistV {M V : Type} (_ : M) (_ : V) (DistV : vec) : res vec := Ok DistV.
Definition GetDistVV {M : Type} (_ _ : M) (D : fltvv) : fltvv := D.
Definition GetDist2VV {M : Type} (_ _ : M) (D : fltvv) : fltvv := D.
End Cos.

#[export] Instance CosDist : TDist | 10 := {|
  GetDistV := Cos.GetDistV;
  GetDistV_sp := Cos.GetDistV;
  GetDistVV := Cos.GetDistVV;
  GetDistVV_sp := Cos.GetDistVV;
  GetDist2VV := Cos.GetDist2VV;
  GetDist2VV_sp := Cos.GetDist2VV;
  UpdateNormX2 := TDist_UpdateNorm;
  UpdateNormX2_sp := TDist_UpdateNorm;
  UpdateNormC2 := TDist_UpdateNorm;
  UpdateNormC2_sp := TDist_UpdateNorm;
  GetDist2VV_cached := TDist_GetDist2VV_cached Cos.GetDist2VV;
  GetDist2VV_cached_sp := TDist_GetDist2VV_cached Cos.GetDist2VV;
  GetType := Cos.TYPE
|}.

(** ** What a client of a distance strategy relies on

    The agglomerative driver and the k-means engine are proved against these
    laws, not against [TEuclDist]. *)

Class DistLaws (d : TDist) := {
  dist2_shape : forall X Y D,
    vv_wf X -> vv_wf Y -> vv_rows X = vv_rows Y ->
    vv_wf (GetDist2VV X Y D) /\ GetRows (GetDist2VV X Y D) = GetCols X /\
    GetCols (GetDist2VV X Y D) = GetCols Y;
  dist2_sym : forall X D i j,
    vv_wf X -> (i < GetCols X)%nat -> (j < GetCols X)%nat ->
    mat_at (GetDist2VV X X D) i j == mat_at (GetDist2VV X X D) j i;
  dist2_nonneg : forall X Y D i j,
    (i < GetCols X)%nat -> (j < GetCols Y)%nat -> 0 <= mat_at (GetDist2VV X Y D) i j;
  distv_total : forall C x b,
    exists v, GetDistV C x b = Ok v /\ length v = GetCols C
}.

Section EuclProofs.
Context `{SqrtLib}.

(** The expansion is non-negative in exact arithmetic, whatever the lengths
    of the operands (the common prefix gives a squared distance, the rest
    squared norms). *)
Lemma expansion_nonneg x c : 0 <= Norm2 x - 2 * dot x c + Norm2 c.
Proof.
  unfold Norm2. revert c. induction x as [|a x IH]; intros [|b c]; simpl.
  - lra.
  - pose proof (Qsquare_nonneg b). pose proof (Norm2_nonneg c). unfold Norm2 in *. lra.
  - pose proof (Qsquare_nonneg a). pose proof (Norm2_nonneg x). unfold Norm2 in *. lra.
  - specialize (IH c). pose proof (Qsquare_nonneg (a - b)). lra.
Qed.

Lemma GetDistV_elem_ok n c xc :
  0 <= c + (n - 2 * xc) -> Eucl.GetDistV_elem n c xc = Ok (Qsqrt (c + (n - 2 * xc))).
Proof.
  intros Hd. unfold Eucl.GetDistV_elem; cbv zeta.
  case_Qltb (- Eucl.num_eps) (c + (n - 2 * xc)); [by rewrite clamp0_id|].
  unfold Eucl.num_eps in *. lra.
Qed.

(** The value [GetDistV] accumulates for centroid [i] is the expansion of
    [|c_i - x|^2]. *)
Lemma GetDistV_acc_expansion C x i :
  (i < GetCols C)%nat ->
  at0 (GetColNorm2V C) i + (Norm2 x - 2 * at0 (MultiplyT_v C x) i)
  == Norm2 (GetCol C i) - 2 * dot (GetCol C i) x + Norm2 x.
Proof.
  intros Hi. rewrite at0_GetColNorm2V, at0_MultiplyT_v by done. ring.
Qed.

Lemma GetDistV_result C x b :
  Eucl.GetDistV C x b =
  Ok (map (fun i => Qsqrt (at0 (GetColNorm2V C) i + (Norm2 x - 2 * at0 (MultiplyT_v C x) i)))
          (seq 0 (GetCols C))).
Proof.
  unfold Eucl.GetDistV, Eucl.GetDistV_t. rewrite length_GetColNorm2V. apply mapM_ok_map.
  intros i Hi%elem_of_seq. apply GetDistV_elem_ok.
  rewrite GetDistV_acc_expansion by lia. apply expansion_nonneg.
Qed.

Lemma mat_at_GetDist2VV_cached X Y NX NY D i j :
  (i < GetCols X)%nat -> (j < GetCols Y)%nat ->
  mat_at (Eucl.GetDist2VV_cached X Y NX NY D) i j
  = at0 NX i - 2 * dot (GetCol X i) (GetCol Y j) + at0 NY j.
Proof.
  intros Hi Hj. unfold Eucl.GetDist2VV_cached, Eucl.GetDist2VV_cached_t, mat_at, GetCol at 1, at0; simpl.
  rewrite (nth_imap_lt _ _ _ _ []) by (by rewrite length_map).
  rewrite (nth_map_lt _ _ _ _ []) by done.
  rewrite (nth_imap_lt _ _ _ _ 0) by (by rewrite length_map).
  by rewrite (nth_map_lt _ _ _ _ []).
Qed.

Lemma mat_at_GetDist2VV X Y D i j :
  (i < GetCols X)%nat -> (j < GetCols Y)%nat ->
  mat_at (Eucl.GetDist2VV X Y D) i j
  == Norm2 (GetCol X i) - 2 * dot (GetCol X i) (GetCol Y j) + Norm2 (GetCol Y j).
Proof.
  intros Hi Hj. unfold Eucl.GetDist2VV, Eucl.GetDist2VV_t.
  rewrite mat_at_GetDist2VV_cached, at0_GetColNorm2V, at0_GetColNorm2V by done.
  reflexivity.
Qed.

Lemma GetDist2VV_nonneg X Y D i j :
  (i < GetCols X)%nat -> (j < GetCols Y)%nat -> 0 <= mat_at (Eucl.GetDist2VV X Y D) i j.
Proof. intros Hi Hj. rewrite mat_at_GetDist2VV by done. apply expansion_nonneg. Qed.

Lemma GetDist2VV_shape X Y D :
  vv_wf (Eucl.GetDist2VV X Y D) /\ GetRows (Eucl.GetDist2VV X Y D) = GetCols X /\
  GetCols (Eucl.GetDist2VV X Y D) = GetCols Y.
Proof.
  unfold Eucl.GetDist2VV, Eucl.GetDist2VV_t, Eucl.GetDist2VV_cached, Eucl.GetDist2VV_cached_t,
    vv_wf, GetRows, GetCols; simpl.
  rewrite length_imap, length_map. split_and!; [|done|done].
  apply Forall_forall. intros c Hc%elem_of_lookup_imap_1.
  destruct Hc as (j & col & -> & Hcol). apply list_lookup_fmap_Some in Hcol.
  destruct Hcol as (yc & -> & _). by rewrite length_imap, length_map.
Qed.

Lemma mat_at_Sqrt_m d i j :
  vv_wf d -> (i < GetRows d)%nat -> (j < GetCols d)%nat ->
  mat_at (Sqrt_m d) i j = Qsqrt (mat_at d i j).
Proof.
  intros Hwf Hi Hj. unfold mat_at, Sqrt_m, GetCol, at0; simpl.
  rewrite (nth_map_lt _ _ _ _ []) by done.
  apply nth_map_lt. pose proof (vv_wf_col d j Hwf Hj). unfold GetCol, GetRows in *. lia.
Qed.

(** The entries of [GetDist2VV] are the squared distances of the columns,
    and those of [GetDistVV] their square roots. *)
Lemma GetDist2VV_sqdist X Y D i j :
  vv_wf X -> vv_wf Y -> vv_rows X = vv_rows Y ->
  (i < GetCols X)%nat -> (j < GetCols Y)%nat ->
  mat_at (Eucl.GetDist2VV X Y D) i j == sqdist (GetCol X i) (GetCol Y j).
Proof.
  intros HX HY Hr Hi Hj. rewrite mat_at_GetDist2VV by done.
  rewrite (dot_comm (GetCol X i)). rewrite <- (expansion_sqdist (GetCol X i)).
  - rewrite dot_comm. ring.
  - rewrite !vv_wf_col by done. done.
Qed.

Lemma mat_at_GetDistVV X Y D i j :
  (i < GetCols X)%nat -> (j < GetCols Y)%nat ->
  mat_at (Eucl.GetDistVV X Y D) i j = Qsqrt (mat_at (Eucl.GetDist2VV X Y D) i j).
Proof.
  intros Hi Hj. destruct (GetDist2VV_shape X Y D) as (Hw & Hr & Hc).
  unfold Eucl.GetDistVV, Eucl.GetDistVV_t. apply mat_at_Sqrt_m; first [done | lia].
Qed.

(** Every entry of the result of [GetDistV] is the distance to the
    corresponding centroid. *)
Lemma at0_GetDistV_result C x j :
  vv_wf C -> length x = vv_rows C -> (j < GetCols C)%nat ->
  at0 (map (fun i => Qsqrt (at0 (GetColNorm2V C) i + (Norm2 x - 2 * at0 (MultiplyT_v C x) i)))
           (seq 0 (GetCols C))) j == Qsqrt (sqdist (GetCol C j) x).
Proof.
  intros Hwf Hx Hj. unfold at0 at 1. rewrite (nth_map_lt _ _ _ _ 0%nat) by (by rewrite length_seq).
  rewrite nth_seq_lt by done. cbn [Nat.add].
  rewrite GetDistV_acc_expansion, expansion_sqdist by (rewrite ?vv_wf_col; done).
  reflexivity.
Qed.

(** ** Theorems of [TEuclDist] *)

(** C25: [GetDistV] computes the Euclidean distance of the point to every
    centroid: the optimised expansion, clamp and square root agree with the
    direct definition [sqrt (sum_k (c_k - x_k)^2)]. *)
Theorem GetDistV_correct C x b :
  vv_wf C -> length x = vv_rows C ->
  exists v, Eucl.GetDistV C x b = Ok v /\ length v = GetCols C /\
    forall j, (j < GetCols C)%nat -> at0 v j == Qsqrt (sqdist (GetCol C j) x).
Proof.
  intros Hwf Hx. eexists; split; [apply GetDistV_result|].
  rewrite length_map, length_seq. split; [done|].
  intros j Hj. by apply at0_GetDistV_result.
Qed.

(** C26: [GetDist2VV] computes the matrix of squared distances between the
    columns of [X] and those of [Y]. *)
Theorem GetDist2VV_correct X Y D i j :
  vv_wf X -> vv_wf Y -> vv_rows X = vv_rows Y ->
  (i < GetCols X)%nat -> (j < GetCols Y)%nat ->
  mat_at (Eucl.GetDist2VV X Y D) i j == sqdist (GetCol X i) (GetCol Y j).
Proof.
  intros HX HY Hr Hi Hj. by apply GetDist2VV_sqdist.
Qed.

(** C27: the pairwise distance matrix is symmetric under exchange of its
    operands: [GetDistVV(X,Y)(i,j) = GetDistVV(Y,X)(j,i)]. *)
Theorem GetDistVV_swap X Y D D' i j :
  (i < GetCols X)%nat -> (j < GetCols Y)%nat ->
  mat_at (Eucl.GetDistVV X Y D) i j == mat_at (Eucl.GetDistVV Y X D') j i.
Proof.
  intros Hi Hj. rewrite !mat_at_GetDistVV by done.
  apply Qsqrt_proper. rewrite !mat_at_GetDist2VV by done. rewrite dot_comm. ring.
Qed.

(** ** The sparse overloads

    The templates are parametric in the representation: fed primitives
    that agree up to [Qeq], they agree up to [Qeq]. *)

Lemma GetDistV_elem_proper n n' c c' xc xc' :
  n == n' -> c == c' -> xc == xc' ->
  res_rel Qeq (Eucl.GetDistV_elem n c xc) (Eucl.GetDistV_elem n' c' xc').
Proof.
  intros Hn Hc Hx. unfold Eucl.GetDistV_elem; cbv zeta.
  assert (Hd : c + (n - 2 * xc) == c' + (n' - 2 * xc')) by (rewrite Hn, Hc, Hx; reflexivity).
  case_Qltb (- Eucl.num_eps) (c + (n - 2 * xc)); case_Qltb (- Eucl.num_eps) (c' + (n' - 2 * xc'));
    simpl; try done; [by rewrite Hd|lra|lra].
Qed.

Lemma GetDistV_t_rel {M V M' V'} N CN MT N' CN' MT' (C : M) (x : V) (C' : M') (x' : V') b b' :
  N x == N' x' -> Forall2 Qeq (CN C) (CN' C') -> Forall2 Qeq (MT C x) (MT' C' x') ->
  res_rel (Forall2 Qeq) (Eucl.GetDistV_t N CN MT C x b) (Eucl.GetDistV_t N' CN' MT' C' x' b').
Proof.
  intros HN HC HM. unfold Eucl.GetDistV_t; cbv zeta. rewrite (Forall2_length _ _ _ HC).
  apply mapM_rel. intros i _. by apply GetDistV_elem_proper; [|apply at0_Forall2..].
Qed.

Lemma GetDist2VV_cached_t_rel {M M'} MT MT' (X Y : M) (X' Y' : M') NX NY NX' NY' D D' :
  vv_equiv (MT X Y) (MT' X' Y') -> Forall2 Qeq NX NX' -> Forall2 Qeq NY NY' ->
  vv_equiv (Eucl.GetDist2VV_cached_t MT X Y NX NY D) (Eucl.GetDist2VV_cached_t MT' X' Y' NX' NY' D').
Proof.
  intros [Hr Hc] HNX HNY. unfold Eucl.GetDist2VV_cached_t, GetRows. split; cbn [vv_rows vv_cols]; [done|].
  eapply Forall2_imap; [exact Hc|]. intros j c c' Hcc.
  eapply Forall2_imap; [exact Hcc|]. intros i p p' Hp.
  rewrite (at0_Forall2 _ _ i HNX), (at0_Forall2 _ _ j HNY), Hp. reflexivity.
Qed.

(** The sparse overload of [GetDistV] succeeds exactly as the dense one
    on the dense forms, with equal results. *)
Lemma GetDistV_sparse_dense d C x b :
  Forall (sp_wf d) C -> sp_wf d x ->
  exists v v', Eucl.GetDistV_sp C x b = Ok v /\
    Eucl.GetDistV (to_dense_m d C) (to_dense d x) b = Ok v' /\ Forall2 Qeq v v'.
Proof.
  intros HC Hx.
  assert (Hrel : res_rel (Forall2 Qeq) (Eucl.GetDistV_sp C x b)
                   (Eucl.GetDistV (to_dense_m d C) (to_dense d x) b)).
  { apply GetDistV_t_rel;
      [by apply Norm2_sp_dense | by apply GetColNorm2V_sp_dense | by apply MultiplyT_sp_v_dense]. }
  rewrite GetDistV_result in Hrel |- *. destruct (Eucl.GetDistV_sp C x b); [eauto|done].
Qed.

(** The same for [GetDist2VV] and [GetDistVV]: equal matrices up to [==]. *)
Lemma GetDistVV_sparse_dense d X Y D :
  Forall (sp_wf d) X -> Forall (sp_wf d) Y ->
  vv_equiv (Eucl.GetDist2VV_sp X Y D) (Eucl.GetDist2VV (to_dense_m d X) (to_dense_m d Y) D) /\
  vv_equiv (Eucl.GetDistVV_sp X Y D) (Eucl.GetDistVV (to_dense_m d X) (to_dense_m d Y) D).
Proof.
  intros HX HY.
  assert (H2 : vv_equiv (Eucl.GetDist2VV_sp X Y D)
                 (Eucl.GetDist2VV (to_dense_m d X) (to_dense_m d Y) D)).
  { apply GetDist2VV_cached_t_rel;
      [by apply MultiplyT_sp_m_dense | by apply GetColNorm2V_sp_dense..]. }
  split; [done|]. by apply Sqrt_m_proper.
Qed.

(** C29: the sparse overload [GetDistV(TSpVV, TSpV)] (line 63) computes
    the Euclidean distance of the point to every centroid, as directly
    computed on their dense forms, whenever the sparse vectors have distinct
    indices below the dimension; it never fails. *)
Theorem GetDistV_sp_correct d C x b :
  Forall (sp_wf d) C -> sp_wf d x ->
  exists v, Eucl.GetDistV_sp C x b = Ok v /\ length v = length C /\
    forall k, (k < length C)%nat -> at0 v k == Qsqrt (sqdist (to_dense d (nth k C [])) (to_dense d x)).
Proof.
  intros HC Hx. destruct (GetDistV_sparse_dense d C x b HC Hx) as (v & v' & Hv & Hv' & Hvv).
  rewrite GetDistV_result in Hv'. injection Hv' as <-. exists v. split; [done|].
  rewrite (Forall2_length _ _ _ Hvv), length_map, length_seq, GetCols_to_dense_m. split; [done|].
  intros k Hk. rewrite (at0_Forall2 _ _ k Hvv), at0_GetDistV_result
    by first [apply to_dense_m_wf | apply length_to_dense | by rewrite GetCols_to_dense_m].
  by rewrite GetCol_to_dense_m.
Qed.

(** C30: the sparse overloads of [GetDist2VV] (line 69) and [GetDistVV]
    (line 66) hold, at [(i, j)], the squared distance and the distance of
    column [i] of [X] to column [j] of [Y], directly computed on their dense
    forms. *)
Theorem GetDistVV_sp_correct d X Y D i j :
  Forall (sp_wf d) X -> Forall (sp_wf d) Y -> (i < length X)%nat -> (j < length Y)%nat ->
  mat_at (Eucl.GetDist2VV_sp X Y D) i j == sqdist (to_dense d (nth i X [])) (to_dense d (nth j Y [])) /\
  mat_at (Eucl.GetDistVV_sp X Y D) i j == Qsqrt (sqdist (to_dense d (nth i X [])) (to_dense d (nth j Y []))).
Proof.
  intros HX HY Hi Hj. destruct (GetDistVV_sparse_dense d X Y D HX HY) as [H2 H1].
  assert (Hd : mat_at (Eucl.GetDist2VV (to_dense_m d X) (to_dense_m d Y) D) i j
               == sqdist (to_dense d (nth i X [])) (to_dense d (nth j Y []))).
  { rewrite GetDist2VV_sqdist
      by first [apply to_dense_m_wf | reflexivity | by rewrite GetCols_to_dense_m].
    by rewrite !GetCol_to_dense_m. }
  split; [by rewrite H2|]. rewrite H1, mat_at_GetDistVV by (by rewrite GetCols_to_dense_m).
  by rewrite Hd.
Qed.

End EuclProofs.

Lemma UpdateNorm_norms m n k :
  (k < GetCols m)%nat -> at0 (Eucl.UpdateNorm m n) k == Norm2 (GetCol m k).
Proof. intros Hk. unfold Eucl.UpdateNorm, Eucl.UpdateNorm_t. rewrite at0_GetColNorm2V by done. reflexivity. Qed.

(** C28: the cached overload of [GetDist2VV(X, Y, NormX2, NormY2, D)],
    given the norm vectors [UpdateNormX2] and [UpdateNormC2] store (as the
    protected [Assign] of [TAbsKMeans] gives it), computes the squared
    distances between the columns of [X] and those of [Y]. *)
Theorem GetDist2VV_cached_norms X Y NX NY D i j :
  vv_wf X -> vv_wf Y -> vv_rows X = vv_rows Y -> (i < GetCols X)%nat -> (j < GetCols Y)%nat ->
  mat_at (Eucl.GetDist2VV_cached X Y (Eucl.UpdateNorm X NX) (Eucl.UpdateNorm Y NY) D) i j
  == sqdist (GetCol X i) (GetCol Y j).
Proof.
  intros HX HY Hr Hi Hj. rewrite <- (GetDist2VV_sqdist X Y D) by done.
  rewrite mat_at_GetDist2VV, mat_at_GetDist2VV_cached, !UpdateNorm_norms by done. reflexivity.
Qed.

#[export] Instance EuclDist_laws `{SqrtLib} : DistLaws EuclDist.
Proof.
  split; simpl.
  - intros X Y D _ _ _. apply GetDist2VV_shape.
  - intros X D i j _ Hi Hj. rewrite !mat_at_GetDist2VV by done. rewrite dot_comm. ring.
  - apply GetDist2VV_nonneg.
  - intros C x b. eexists; split; [apply GetDistV_result|]. by rewrite length_map, length_seq.
Qed.

(** The [TCosDist] stub is not a distance strategy: its [GetDistV]
    hands back the caller's buffer, whose length need not be the number of
    centroids, so the contract [DistLaws] fails for it. *)
Theorem CosDist_unlawful : ~ DistLaws CosDist.
Proof.
  intros HL. destruct (@distv_total CosDist HL (FltVV 1 [[0]]) [0] []) as (v & Hv & Hlen).
  simpl in Hv. injection Hv as <-. discriminate.
Qed.

(** The assertion of [GetDistV] is strict: an accumulated value of
    exactly [-1e-8] is already fatal, whereas the specification only calls
    values below [-1e-8] fatal and clamps the others. *)
Example GetDistV_elem_boundary `{SqrtLib} :
  Eucl.GetDistV_elem 0 (- Eucl.num_eps) 0 = Err ENumInstability.
Proof. reflexivity. Qed.

(** ** Witnesses at concrete inputs *)

Definition C_ex : fltvv := FltVV 2 [[0; 0]; [3; 4]].

(** The centroids of [C_ex] and the point [(3, 0)] in sparse form;
    the second centroid lists its entries out of index order. *)
Definition C_sp : TSpVV := [[]; [(1%nat, 4); (0%nat, 3)]].
Definition x_sp : TSpV := [(0%nat, 3)].

Example GetDistV_sp_ex :
  res_bind (Eucl.GetDistV_sp C_sp x_sp []) (fun v => Ok (map Qred v)) = Ok [3; 4].
Proof. vm_compute. reflexivity. Qed.

Example GetDistV_ex : res_bind (Eucl.GetDistV C_ex [0; 0] []) (fun v => Ok (map Qred v)) = Ok [0; 5].
Proof. vm_compute. reflexivity. Qed.

Lemma GetDistV_correct_witness :
  vv_wf C_ex /\ length [0; 0] = vv_rows C_ex /\
  exists v, Eucl.GetDistV C_ex [0; 0] [] = Ok v /\ length v = GetCols C_ex /\
    forall j, (j < GetCols C_ex)%nat -> at0 v j == Qsqrt (sqdist (GetCol C_ex j) [0; 0]).
Proof.
  assert (Hwf : vv_wf C_ex) by (repeat constructor).
  split; [exact Hwf|]. split; [reflexivity|]. apply GetDistV_correct; [exact Hwf|reflexivity].
Defined.

Lemma GetDist2VV_correct_witness :
  vv_wf C_ex /\ (1 < GetCols C_ex)%nat /\ (0 < GetCols C_ex)%nat /\
  mat_at (Eucl.GetDist2VV C_ex C_ex C_ex) 1 0 == sqdist (GetCol C_ex 1) (GetCol C_ex 0).
Proof.
  assert (Hwf : vv_wf C_ex) by (repeat constructor).
  split; [exact Hwf|]. split; [cbv; lia|]. split; [cbv; lia|].
  apply GetDist2VV_correct; first [exact Hwf | reflexivity | cbv; lia].
Defined.

Lemma GetDistVV_swap_witness :
  (1 < GetCols C_ex)%nat /\ (0 < GetCols C_ex)%nat /\
  mat_at (Eucl.GetDistVV C_ex C_ex C_ex) 1 0 == mat_at (Eucl.GetDistVV C_ex C_ex C_ex) 0 1.
Proof.
  split; [cbv; lia|]. split; [cbv; lia|]. apply GetDistVV_swap; cbv; lia.
Defined.

Lemma GetDist2VV_cached_norms_witness :
  vv_wf C_ex /\ vv_rows C_ex = vv_rows C_ex /\ (1 < GetCols C_ex)%nat /\ (0 < GetCols C_ex)%nat /\
  mat_at (Eucl.GetDist2VV_cached C_ex C_ex (Eucl.UpdateNorm C_ex []) (Eucl.UpdateNorm C_ex []) C_ex) 1 0
    == sqdist (GetCol C_ex 1) (GetCol C_ex 0).
Proof.
  assert (Hwf : vv_wf C_ex) by (repeat constructor).
  split_and!; [exact Hwf|reflexivity|cbv; lia|cbv; lia|].
  apply GetDist2VV_cached_norms; first [exact Hwf | reflexivity | cbv; lia].
Defined.

Lemma GetDistV_sp_correct_witness :
  Forall (sp_wf 2) C_sp /\ sp_wf 2 x_sp /\
  exists v, Eucl.GetDistV_sp C_sp x_sp [] = Ok v /\ length v = length C_sp /\
    forall k, (k < length C_sp)%nat -> at0 v k == Qsqrt (sqdist (to_dense 2 (nth k C_sp [])) (to_dense 2 x_sp)).
Proof.
  assert (HC : Forall (sp_wf 2) C_sp) by (apply (bool_decide_unpack _); vm_compute; reflexivity).
  assert (Hx : sp_wf 2 x_sp) by (apply (bool_decide_unpack _); vm_compute; reflexivity).
  split; [exact HC|]. split; [exact Hx|]. exact (GetDistV_sp_correct 2 C_sp x_sp [] HC Hx).
Defined.

Lemma GetDistVV_sp_correct_witness :
  Forall (sp_wf 2) C_sp /\ (1 < length C_sp)%nat /\ (0 < length C_sp)%nat /\
  mat_at (Eucl.GetDist2VV_sp C_sp C_sp C_ex) 1 0
    == sqdist (to_dense 2 (nth 1 C_sp [])) (to_dense 2 (nth 0 C_sp [])) /\
  mat_at (Eucl.GetDistVV_sp C_sp C_sp C_ex) 1 0
    == Qsqrt (sqdist (to_dense 2 (nth 1 C_sp [])) (to_dense 2 (nth 0 C_sp []))).
Proof.
  assert (HC : Forall (sp_wf 2) C_sp) by (apply (bool_decide_unpack _); vm_compute; reflexivity).
  split_and!; [exact HC|cbv; lia|cbv; lia| |];
    apply (GetDistVV_sp_correct 2 C_sp C_sp C_ex 1 0 HC HC); cbv; lia.
Defined.
