(* ===== verification/Linkage.v ===== *)
(** * Linkage rules ([TAvgLink], [TCompleteLink], [TSingleLink],
    clustering.h lines 289-311)

    Each rule has one static method [JoinClusts(DistMat, ItemCountV, i, j)]
    that folds cluster [j] into cluster [i]: it computes the new distances
    of the merged cluster to every active cluster [k] from the old entries
    [D(i,k)] and [D(j,k)] (and, for the average, the item counts before the
    caller updates them), and writes them into row and column [i].  Row and
    column [j] are left as they are; the caller sets the count of [j] to 0.
    The bodies are in clustering.cpp; they follow the specification
    (section 4.6).  The class [TLink] is the interface the driver
    [TAggClust] is generic in, [LinkLaws] the laws it relies on. *)

From S2P Require Import Prelude LinAlg.

Local Open Scope Q_scope.

(** ** In-place writes of glib's [TVVec] *)

(** [TVVec::SetRow(i, v)]: row [i] becomes [v]. *)
Definition SetRow (m : fltvv) (i : nat) (v : vec) : fltvv :=
  FltVV (vv_rows m) (imap (fun k col => <[i := at0 v k]> col) (vv_cols m)).

(** [TVVec::SetCol(j, v)]: column [j] becomes [v]. *)
Definition SetCol (m : fltvv) (j : nat) (v : vec) : fltvv :=
  FltVV (vv_rows m) (<[j := v]> (vv_cols m)).

(** The [n] x [n] matrices of the driver. *)
Definition square (n : nat) (m : fltvv) : Prop :=
  vv_wf m /\ vv_rows m = n /\ GetCols m = n.

Definition symmetric (n : nat) (m : fltvv) : Prop :=
  forall a b, (a < n)%nat -> (b < n)%nat -> mat_at m a b == mat_at m b a.

(** ** The rules *)

(** A linkage rule computes [D(i u j, k)] from the item counts of [i] and
    [j] and from [D(i,k)] and [D(j,k)]. *)
Definition rule := nat -> nat -> Q -> Q -> Q.

(** The new distance of the merged cluster to [k]: an inactive [k] keeps
    its entry. *)
Definition join_entry (r : rule) (DistMat : fltvv) (ItemCountV : list nat) (i j k : nat) : Q :=
  if decide (nth k ItemCountV 0%nat = 0%nat) then mat_at DistMat i k
  else r (nth i ItemCountV 0%nat) (nth j ItemCountV 0%nat) (mat_at DistMat i k) (mat_at DistMat j k).

(** The common body of the three [JoinClusts]: the new distances for every
    [k], computed from the old matrix, then written to row and column [i]. *)
Definition JoinWith (r : rule) (DistMat : fltvv) (ItemCountV : list nat) (i j : nat) : fltvv :=
  let NewDistV := map (join_entry r DistMat ItemCountV i j) (seq 0 (GetCols DistMat)) in
  SetCol (SetRow DistMat i NewDistV) i NewDistV.

(** [TAvgLink::JoinClusts]: [(n_i D(i,k) + n_j D(j,k)) / (n_i + n_j)]. *)
Definition avg_rule : rule := fun ni nj dik djk =>
  (inject_Z (Z.of_nat ni) * dik + inject_Z (Z.of_nat nj) * djk) /
  (inject_Z (Z.of_nat ni) + inject_Z (Z.of_nat nj)).
Definition AvgLink_JoinClusts := JoinWith avg_rule.

(** [TCompleteLink::JoinClusts]: [max(D(i,k), D(j,k))]. *)
Definition complete_rule : rule := fun _ _ dik djk => Qmax dik djk.
Definition CompleteLink_JoinClusts := JoinWith complete_rule.

(** [TSingleLink::JoinClusts]: [min(D(i,k), D(j,k))]. *)
Definition single_rule : rule := fun _ _ dik djk => Qmin dik djk.
Definition SingleLink_JoinClusts := JoinWith single_rule.

(** ** The interface of a linkage strategy *)

Class TLink := { JoinClusts : fltvv -> list nat -> nat -> nat -> fltvv }.

#[export] Instance TAvgLink : TLink := {| JoinClusts := AvgLink_JoinClusts |}.
#[export] Instance TCompleteLink : TLink := {| JoinClusts := CompleteLink_JoinClusts |}.
#[export] Instance TSingleLink : TLink := {| JoinClusts := SingleLink_JoinClusts |}.

(** What the driver relies on, for an [n] x [n] matrix, [n] counts and two
    distinct active clusters [i], [j]. *)
Class LinkLaws (L : TLink) := {
  join_square : forall n D cnt i j,
    square n D -> (i < n)%nat -> square n (JoinClusts D cnt i j);
  join_frame : forall n D cnt i j a b,
    square n D -> (i < n)%nat -> a <> i -> b <> i ->
    mat_at (JoinClusts D cnt i j) a b = mat_at D a b;
  join_sym : forall n D cnt i j,
    square n D -> (i < n)%nat -> symmetric n D -> symmetric n (JoinClusts D cnt i j);
  (** Reducibility: the merged cluster is no closer to an active [k] than
      the nearer of its two parts. *)
  join_reducible : forall n D cnt i j k,
    square n D -> (i < n)%nat -> (k < n)%nat ->
    (0 < nth i cnt 0)%nat -> (0 < nth j cnt 0)%nat -> (0 < nth k cnt 0)%nat ->
    Qmin (mat_at D i k) (mat_at D j k) <= mat_at (JoinClusts D cnt i j) i k;
  join_nonneg : forall n D cnt i j k,
    square n D -> (i < n)%nat -> (k < n)%nat ->
    (0 < nth i cnt 0)%nat -> (0 < nth j cnt 0)%nat ->
    0 <= mat_at D i k -> 0 <= mat_at D j k -> 0 <= mat_at (JoinClusts D cnt i j) i k
}.

(** ** Lemmas on the writes *)

Lemma nth_imap_nil {A} (f : nat -> list A -> list A) (l : list (list A)) b :
  nth b (imap f l) [] = if decide (b < length l)%nat then f b (nth b l []) else [].
Proof.
  case_decide; [by apply nth_imap_lt|].
  rewrite nth_overflow; [done|]. rewrite length_imap. lia.
Qed.

(** Writes to row and column [i] leave every other entry alone. *)
Lemma mat_at_SetRow_ne m i v a b : a <> i -> mat_at (SetRow m i v) a b = mat_at m a b.
Proof.
  intros Ha. unfold mat_at, SetRow, GetCol, at0; simpl. rewrite nth_imap_nil.
  case_decide; [by rewrite nth_insert_ne|]. rewrite (nth_overflow (vv_cols m)) by lia.
  by destruct a.
Qed.

Lemma mat_at_SetCol_ne m j v a b : b <> j -> mat_at (SetCol m j v) a b = mat_at m a b.
Proof. intros Hb. unfold mat_at, SetCol, GetCol; simpl. by rewrite nth_insert_ne. Qed.

Lemma mat_at_SetRow_eq m i v b :
  vv_wf m -> (i < vv_rows m)%nat -> (b < GetCols m)%nat -> mat_at (SetRow m i v) i b = at0 v b.
Proof.
  intros Hwf Hi Hb. unfold mat_at, SetRow, at0. unfold GetCol at 1; simpl.
  rewrite (nth_imap_lt _ _ _ _ []) by done. apply nth_insert_eq.
  pose proof (vv_wf_col m b Hwf Hb). unfold GetCol in *. lia.
Qed.

Lemma mat_at_SetCol_eq m j v a :
  (j < GetCols m)%nat -> mat_at (SetCol m j v) a j = at0 v a.
Proof. intros Hj. unfold mat_at, SetCol, GetCol; simpl. by rewrite nth_insert_eq. Qed.

Lemma at0_join_vec r D cnt i j k :
  (k < GetCols D)%nat ->
  at0 (map (join_entry r D cnt i j) (seq 0 (GetCols D))) k = join_entry r D cnt i j k.
Proof.
  intros Hk. unfold at0. rewrite (nth_map_lt _ _ _ _ 0%nat) by (by rewrite length_seq).
  by rewrite nth_seq_lt.
Qed.

Lemma SetRow_wf m i v : vv_wf m -> vv_wf (SetRow m i v).
Proof.
  unfold vv_wf, SetRow; simpl. rewrite !Forall_forall. intros Hwf c Hc.
  apply elem_of_lookup_imap_1 in Hc as (k & col & -> & Hk).
  rewrite length_insert. apply Hwf. by eapply list_elem_of_lookup_2.
Qed.

Lemma SetCol_wf m j v : vv_wf m -> length v = vv_rows m -> vv_wf (SetCol m j v).
Proof. unfold vv_wf, SetCol; simpl. intros Hwf Hv. by apply Forall_insert. Qed.

Section JoinWith.
Context (r : rule) (n : nat) (D : fltvv) (cnt : list nat) (i j : nat).
Hypothesis (HD : square n D) (Hi : (i < n)%nat).

(** Every entry of the result: row and column [i] hold the new distances. *)
Lemma mat_at_JoinWith a b :
  (a < n)%nat -> (b < n)%nat ->
  mat_at (JoinWith r D cnt i j) a b =
  if decide (b = i) then join_entry r D cnt i j a
  else if decide (a = i) then join_entry r D cnt i j b else mat_at D a b.
Proof.
  destruct HD as (Hwf & Hr & Hc). intros Ha Hb. unfold JoinWith; cbv zeta.
  case_decide; subst.
  - rewrite mat_at_SetCol_eq by (unfold SetRow, GetCols in *; simpl; rewrite length_imap; lia).
    apply at0_join_vec. lia.
  - rewrite mat_at_SetCol_ne by done. case_decide; subst.
    + rewrite mat_at_SetRow_eq by first [done | lia]. apply at0_join_vec. lia.
    + by rewrite mat_at_SetRow_ne.
Qed.

Lemma JoinWith_row k :
  (k < n)%nat -> mat_at (JoinWith r D cnt i j) i k = join_entry r D cnt i j k.
Proof. intros Hk. rewrite mat_at_JoinWith by done. by repeat case_decide; subst. Qed.

Lemma JoinWith_square : square n (JoinWith r D cnt i j).
Proof.
  destruct HD as (Hwf & Hr & Hc). unfold JoinWith; cbv zeta. split_and!.
  - apply SetCol_wf; [by apply SetRow_wf|]. simpl. rewrite length_map, length_seq. lia.
  - done.
  - unfold GetCols, SetCol, SetRow in *; simpl. by rewrite length_insert, length_imap.
Qed.

(** The merged row and column are written with the same vector, so the
    result is symmetric whenever the input was. *)
Lemma JoinWith_sym : symmetric n D -> symmetric n (JoinWith r D cnt i j).
Proof.
  intros Hs a b Ha Hb. rewrite !mat_at_JoinWith by done.
  repeat case_decide; subst; try reflexivity; try congruence. by apply Hs.
Qed.

End JoinWith.

Lemma JoinWith_frame r D cnt i j a b :
  a <> i -> b <> i -> mat_at (JoinWith r D cnt i j) a b = mat_at D a b.
Proof. intros Ha Hb. unfold JoinWith. by rewrite mat_at_SetCol_ne, mat_at_SetRow_ne. Qed.

(** ** Laws of the rules *)

Definition rule_reducible (r : rule) : Prop :=
  forall ci cj a b, (0 < ci)%nat -> (0 < cj)%nat -> Qmin a b <= r ci cj a b.

Definition rule_nonneg (r : rule) : Prop :=
  forall ci cj a b, (0 < ci)%nat -> (0 < cj)%nat -> 0 <= a -> 0 <= b -> 0 <= r ci cj a b.

Lemma JoinWith_laws r :
  rule_reducible r -> rule_nonneg r -> LinkLaws {| JoinClusts := JoinWith r |}.
Proof.
  intros Hred Hnn. split; simpl.
  - intros. by apply JoinWith_square.
  - intros. by apply JoinWith_frame.
  - intros. by apply JoinWith_sym.
  - intros n D cnt i j k HD Hi Hk Hci Hcj Hck. rewrite (JoinWith_row r n) by done.
    unfold join_entry. case_decide; [lia|]. by apply Hred.
  - intros n D cnt i j k HD Hi Hk Hci Hcj Ha Hb. rewrite (JoinWith_row r n) by done.
    unfold join_entry. case_decide; [done|]. by apply Hnn.
Qed.

Lemma Qnat_pos (n : nat) : (0 < n)%nat -> 0 < inject_Z (Z.of_nat n).
Proof. intros Hn. unfold Qlt; simpl. lia. Qed.

Lemma single_rule_laws : rule_reducible single_rule /\ rule_nonneg single_rule.
Proof.
  split; intros ci cj a b; unfold single_rule; [intros; apply Qle_refl|].
  intros _ _ Ha Hb. by apply Q.min_glb.
Qed.

Lemma complete_rule_laws : rule_reducible complete_rule /\ rule_nonneg complete_rule.
Proof.
  split; intros ci cj a b; unfold complete_rule.
  - intros _ _. eapply Qle_trans; [apply Q.le_min_l|apply Q.le_max_l].
  - intros _ _ Ha _. eapply Qle_trans; [exact Ha|apply Q.le_max_l].
Qed.

Lemma avg_rule_laws : rule_reducible avg_rule /\ rule_nonneg avg_rule.
Proof.
  split; intros ci cj a b Hci Hcj; unfold avg_rule;
    pose proof (Qnat_pos ci Hci); pose proof (Qnat_pos cj Hcj).
  - apply Qle_shift_div_l; [lra|].
    pose proof (Q.le_min_l a b). pose proof (Q.le_min_r a b). nra.
  - intros Ha Hb. apply Qle_shift_div_l; [lra|]. nra.
Qed.

#[export] Instance TAvgLink_laws : LinkLaws TAvgLink :=
  JoinWith_laws avg_rule (proj1 avg_rule_laws) (proj2 avg_rule_laws).
#[export] Instance TCompleteLink_laws : LinkLaws TCompleteLink :=
  JoinWith_laws complete_rule (proj1 complete_rule_laws) (proj2 complete_rule_laws).
#[export] Instance TSingleLink_laws : LinkLaws TSingleLink :=
  JoinWith_laws single_rule (proj1 single_rule_laws) (proj2 single_rule_laws).
