(* ===== verification/ClusterLinkage.v ===== *)
(** * Linkage of clusters as sets of points

    The specification (sections 4.6 and 4.7) describes the linkage rules on
    clusters of points: the distance of two clusters is a function of the
    distances of their members, the minimum for single link, the maximum
    for complete link and the mean for average link.  The rules of
    [TSingleLink], [TCompleteLink] and [TAvgLink] never see the members:
    they combine two entries of a matrix (the Lance-Williams form).

    This file defines the three set-level linkages [Lmin], [Lmax], [Lavg]
    and the class [SetLinkage] of a linkage strategy whose rule has a
    set-level meaning: the rule applied to the linkages of two clusters to a
    third gives the linkage of their union.  The three strategies are
    instances.  AggClust.v uses the class to prove that [MakeDendro] emits
    the records of the set-level algorithm. *)

From S2P Require Import Prelude LinAlg Linkage.

Local Open Scope Q_scope.

(** ** Linkage of two sets of points *)

(** The values [f a b] of the pairs of [A x B], row by row. *)
Definition pair_vals (f : nat -> nat -> Q) (A B : list nat) : list Q :=
  flat_map (fun a => map (f a) B) A.

(** The least element of a non-empty list. *)
Definition qmin_list (l : list Q) : Q :=
  match l with [] => 0 | x :: l' => fold_right Qmin x l' end.

(** Single link: the least distance of a member of [A] to a member of [B]. *)
Definition Lmin (f : nat -> nat -> Q) (A B : list nat) : Q := qmin_list (pair_vals f A B).

(** Complete link: the greatest one. *)
Definition Lmax (f : nat -> nat -> Q) (A B : list nat) : Q :=
  - qmin_list (pair_vals (fun a b => - f a b) A B).

(** Average link: the mean over the pairs. *)
Definition Lavg (f : nat -> nat -> Q) (A B : list nat) : Q :=
  Qsum (pair_vals f A B) / (inject_Z (Z.of_nat (length A)) * inject_Z (Z.of_nat (length B))).

(** [m] is the least element of [l], up to [==]. *)
Definition is_min (l : list Q) (m : Q) : Prop :=
  (forall y, In y l -> m <= y) /\ exists y, In y l /\ m == y.

Lemma in_pair_vals f A B y : In y (pair_vals f A B) <-> exists a b, In a A /\ In b B /\ y = f a b.
Proof.
  unfold pair_vals. rewrite in_flat_map. split.
  - intros (a & Ha & (b & <- & Hb)%in_map_iff). eauto.
  - intros (a & b & Ha & Hb & ->). exists a. split; [done|]. by apply in_map.
Qed.

Lemma qmin_list_spec x l : is_min (x :: l) (qmin_list (x :: l)).
Proof.
  simpl. induction l as [|z l [Hle (y & Hy & Heq)]]; simpl.
  - split; [intros y [<-|[]]; apply Qle_refl|exists x; split; [by left|reflexivity]].
  - split.
    + intros w [<-|[<-|Hw]]; [eapply Qle_trans; [apply Q.le_min_r|apply Hle; by left]|apply Q.le_min_l|].
      eapply Qle_trans; [apply Q.le_min_r|apply Hle; by right].
    + destruct (Q.min_spec z (fold_right Qmin x l)) as [[_ Hm]|[_ Hm]].
      * exists z. split; [by right; left|exact Hm].
      * exists y. split; [destruct Hy as [<-|Hy]; [by left|by right; right]|by rewrite Hm].
Qed.

Lemma is_min_unique l m m' : is_min l m -> is_min l m' -> m == m'.
Proof.
  intros [Hle (y & Hy & Hm)] [Hle' (y' & Hy' & Hm')].
  apply Qle_antisym; [rewrite Hm'; by apply Hle|rewrite Hm; by apply Hle'].
Qed.

(** The least pair value, characterized by the pairs alone. *)
Lemma is_min_pairs f A B m :
  is_min (pair_vals f A B) m <->
  (forall a b, In a A -> In b B -> m <= f a b) /\ exists a b, In a A /\ In b B /\ m == f a b.
Proof.
  unfold is_min. setoid_rewrite in_pair_vals. split.
  - intros [Hle (y & (a & b & Ha & Hb & ->) & Hm)]. split; [intros a' b' ? ?; apply Hle; eauto|eauto 7].
  - intros [Hle (a & b & Ha & Hb & Hm)]. split; [intros y (a' & b' & ? & ? & ->); by apply Hle|].
    exists (f a b). eauto 7.
Qed.

Lemma Lmin_spec f A B : A <> [] -> B <> [] -> is_min (pair_vals f A B) (Lmin f A B).
Proof.
  intros HA HB. unfold Lmin. destruct (pair_vals f A B) as [|x l] eqn:E; [|apply qmin_list_spec].
  by destruct A as [|a A], B as [|b B].
Qed.

Lemma Lmin_single f a b : Lmin f [a] [b] == f a b.
Proof. reflexivity. Qed.

Lemma Lmin_sym f A B :
  (forall a b, In a A -> In b B -> f a b == f b a) -> A <> [] -> B <> [] -> Lmin f A B == Lmin f B A.
Proof.
  intros Hf HA HB. apply (is_min_unique (pair_vals f A B)); [by apply Lmin_spec|].
  pose proof (Lmin_spec f B A HB HA) as [Hle (b & a & Hb & Ha & Hm)]%is_min_pairs.
  apply is_min_pairs. split; [intros a' b' Ha' Hb'; rewrite Hf by done; by apply Hle|].
  exists a, b. split_and!; [done|done|]. by rewrite Hf.
Qed.

Lemma Lmin_join f A B C :
  A <> [] -> B <> [] -> C <> [] -> Qmin (Lmin f A C) (Lmin f B C) == Lmin f (A ++ B) C.
Proof.
  intros HA HB HC. apply (is_min_unique (pair_vals f (A ++ B) C)); [|apply Lmin_spec; by destruct A].
  pose proof (Lmin_spec f A C HA HC) as [HleA (a & c & Ha & Hc & HmA)]%is_min_pairs.
  pose proof (Lmin_spec f B C HB HC) as [HleB (b & c' & Hb & Hc' & HmB)]%is_min_pairs.
  apply is_min_pairs. split.
  - intros x y [Hx|Hx]%in_app_or Hy.
    + eapply Qle_trans; [apply Q.le_min_l|by apply HleA].
    + eapply Qle_trans; [apply Q.le_min_r|by apply HleB].
  - destruct (Q.min_spec (Lmin f A C) (Lmin f B C)) as [[_ Hm]|[_ Hm]].
    + exists a, c. split_and!; [apply in_or_app; by left|done|by rewrite Hm].
    + exists b, c'. split_and!; [apply in_or_app; by right|done|by rewrite Hm].
Qed.

Lemma Qmax_Qmin_opp x y : Qmax x y == - Qmin (- x) (- y).
Proof.
  destruct (Q.max_spec x y) as [[? ->]|[? ->]];
  destruct (Q.min_spec (- x) (- y)) as [[? Hm]|[? Hm]]; rewrite Hm; lra.
Qed.

Lemma Lmax_single f a b : Lmax f [a] [b] == f a b.
Proof. unfold Lmax. simpl. ring. Qed.

Lemma Lmax_sym f A B :
  (forall a b, In a A -> In b B -> f a b == f b a) -> A <> [] -> B <> [] -> Lmax f A B == Lmax f B A.
Proof.
  intros Hf HA HB. unfold Lmax. fold (Lmin (fun a b => - f a b) A B) (Lmin (fun a b => - f a b) B A).
  rewrite Lmin_sym; [reflexivity| |done|done]. intros a b Ha Hb. by rewrite Hf.
Qed.

Lemma Lmax_join f A B C :
  A <> [] -> B <> [] -> C <> [] -> Qmax (Lmax f A C) (Lmax f B C) == Lmax f (A ++ B) C.
Proof.
  intros HA HB HC. unfold Lmax. fold (Lmin (fun a b => - f a b) A C) (Lmin (fun a b => - f a b) B C).
  fold (Lmin (fun a b => - f a b) (A ++ B) C). rewrite Qmax_Qmin_opp, !Qopp_involutive.
  by rewrite Lmin_join.
Qed.

Lemma Qsum_pair_vals f A B : Qsum (pair_vals f A B) == Qsum (map (fun a => Qsum (map (f a) B)) A).
Proof. induction A as [|a A IH]; simpl; [reflexivity|]. by rewrite Qsum_app, IH. Qed.

(** The number of elements of a list, as a rational. *)
Definition qlen (l : list nat) : Q := inject_Z (Z.of_nat (length l)).

Lemma qlen_pos (l : list nat) : l <> [] -> 0 < qlen l.
Proof.
  intros Hl. unfold qlen. destruct l as [|x l]; [done|]. unfold Qlt. simpl. lia.
Qed.

Lemma qlen_app (A B : list nat) : qlen (A ++ B) == qlen A + qlen B.
Proof. unfold qlen. by rewrite length_app, Nat2Z.inj_add, inject_Z_plus. Qed.

Lemma Lavg_single f a b : Lavg f [a] [b] == f a b.
Proof. unfold Lavg. simpl. field. Qed.

Lemma Lavg_sym f A B :
  (forall a b, In a A -> In b B -> f a b == f b a) -> A <> [] -> B <> [] -> Lavg f A B == Lavg f B A.
Proof.
  intros Hf HA HB. unfold Lavg. fold (qlen A) (qlen B).
  rewrite !Qsum_pair_vals, Qsum_swap, (Qmult_comm (qlen A)).
  apply Qmult_comp; [|reflexivity]. apply Qsum_map_ext. intros b Hb. apply Qsum_map_ext.
  intros a Ha. apply Hf; by apply list_elem_of_In.
Qed.

Lemma Lavg_join f A B C :
  A <> [] -> B <> [] -> C <> [] ->
  avg_rule (length A) (length B) (Lavg f A C) (Lavg f B C) == Lavg f (A ++ B) C.
Proof.
  intros HA HB HC. unfold avg_rule, Lavg. fold (qlen A) (qlen B) (qlen C) (qlen (A ++ B)).
  pose proof (qlen_pos A HA). pose proof (qlen_pos B HB). pose proof (qlen_pos C HC).
  unfold pair_vals at 3. rewrite flat_map_app, Qsum_app, qlen_app. fold (pair_vals f A C) (pair_vals f B C).
  field. split_and!; lra.
Qed.

(** ** Linkage strategies with a set-level meaning *)

(** The rule of [L] ([JoinClusts] is [JoinWith] of it) combines the linkage
    [Lset] of two clusters to a third into the linkage of their union. *)
Class SetLinkage (L : TLink) := {
  link_rule : rule;
  link_JoinClusts : forall D cnt i j, @JoinClusts L D cnt i j = JoinWith link_rule D cnt i j;
  link_rule_proper : forall ci cj, Proper (Qeq ==> Qeq ==> Qeq) (link_rule ci cj);
  Lset : (nat -> nat -> Q) -> list nat -> list nat -> Q;
  Lset_single : forall f a b, Lset f [a] [b] == f a b;
  Lset_sym : forall f A B, (forall a b, In a A -> In b B -> f a b == f b a) ->
    A <> [] -> B <> [] -> Lset f A B == Lset f B A;
  Lset_join : forall f A B C, A <> [] -> B <> [] -> C <> [] ->
    link_rule (length A) (length B) (Lset f A C) (Lset f B C) == Lset f (A ++ B) C
}.

#[export] Existing Instance link_rule_proper.

Lemma single_rule_proper ci cj : Proper (Qeq ==> Qeq ==> Qeq) (single_rule ci cj).
Proof. intros x x' Hx y y' Hy. unfold single_rule. by rewrite Hx, Hy. Qed.

Lemma complete_rule_proper ci cj : Proper (Qeq ==> Qeq ==> Qeq) (complete_rule ci cj).
Proof. intros x x' Hx y y' Hy. unfold complete_rule. by rewrite Hx, Hy. Qed.

Lemma avg_rule_proper ci cj : Proper (Qeq ==> Qeq ==> Qeq) (avg_rule ci cj).
Proof. intros x x' Hx y y' Hy. unfold avg_rule. by rewrite Hx, Hy. Qed.

#[export] Instance TSingleLink_set : SetLinkage TSingleLink :=
  @Build_SetLinkage TSingleLink single_rule (fun D cnt i j => eq_refl) single_rule_proper
    Lmin Lmin_single Lmin_sym Lmin_join.

#[export] Instance TCompleteLink_set : SetLinkage TCompleteLink :=
  @Build_SetLinkage TCompleteLink complete_rule (fun D cnt i j => eq_refl) complete_rule_proper
    Lmax Lmax_single Lmax_sym Lmax_join.

#[export] Instance TAvgLink_set : SetLinkage TAvgLink :=
  @Build_SetLinkage TAvgLink avg_rule (fun D cnt i j => eq_refl) avg_rule_proper
    Lavg Lavg_single Lavg_sym Lavg_join.
