(* ===== verification/AggClust.v ===== *)
(** * The agglomerative driver ([TAggClust<TDist, TLink>::MakeDendro],
    clustering.h lines 313-363)

    [MakeDendro] computes the squared distances of the columns of [X] once,
    starts with [NInst] singleton clusters of item count 1 and performs
    [NInst - 1] merges.  Each merge scans the active pairs [i < j] for the
    first minimal entry ([find_min], the two nested [for] loops of lines
    333-345), appends the record [(MnI, MnJ, sqrt(max(0, MnDist)))] to
    [MergeV], lets the linkage fold [MnJ] into [MnI] and moves the item
    count of [MnJ] to [MnI] ([merge_step], lines 347-356).

    The accumulator [(MnI, MnJ, MnDist)], initialised to [(-1, -1, +inf)],
    is an [option]: [None] is the initial value.  If the scan finds no pair,
    the C++ code would index [ItemCountV[-1]]; the model returns [EIndex]
    there, and the theorems show it never happens.  The [Notify] calls only
    print and are left out.  The driver is generic in the classes [TDist]
    and [TLink], as the template is, and its theorems use only their laws.

    Besides the invariant of the loop, the file proves a safety property of
    the emitted records (a slot merged away is never named again) and the
    progress of the loop to the single cluster of all points.

    The last part states the specification's algorithm on clusters of
    points, [hac], which recomputes the linkage of every two clusters from
    their members at every step, and proves that the merge loop simulates
    it: same pairs, same distances (up to [==]). *)

From S2P Require Import Prelude LinAlg Distance Linkage ClusterLinkage.

Local Open Scope Q_scope.

(** A merge record [TIntIntFltTr(MnI, MnJ, Dist)]. *)
Abbreviation merge := (nat * nat * Q)%type.

(** The running minimum of the scan: [None] is [(-1, -1, TFlt::PInf)]. *)
Abbreviation best := (option (nat * nat * Q)).

(** [ClustDistVV(i,j) < MnDist]. *)
Definition better (d : Q) (b : best) : bool :=
  match b with None => true | Some (_, _, MnDist) => Qltb d MnDist end.

(** The body of the inner loop for the pair [(i, j)] (lines 337-343). *)
Definition scan_pair (ClustDistVV : fltvv) (ItemCountV : list nat) (i : nat) (b : best) (j : nat) : best :=
  if Nat.eqb i j || Nat.eqb (nth j ItemCountV 0%nat) 0 then b
  else if better (mat_at ClustDistVV i j) b then Some (i, j, mat_at ClustDistVV i j) else b.

(** [for (int j = i+1; j < NInst; j++)] (lines 336-344). *)
Definition scan_row (ClustDistVV : fltvv) (ItemCountV : list nat) (NInst i : nat) (b : best) : best :=
  for_range (S i) (NInst - S i) (scan_pair ClustDistVV ItemCountV i) b.

(** [for (int i = 0; i < NInst; i++)] with its [continue] (lines 333-345). *)
Definition find_min (ClustDistVV : fltvv) (ItemCountV : list nat) (NInst : nat) : best :=
  for_range 0 NInst
    (fun b i => if Nat.eqb (nth i ItemCountV 0%nat) 0 then b
                else scan_row ClustDistVV ItemCountV NInst i b) None.

(** The state [MakeDendro] threads through its loop. *)
Record dendro_state := DState {
  ds_dist : fltvv;          (** [ClustDistVV] *)
  ds_counts : list nat;     (** [ItemCountV] *)
  ds_merges : list merge    (** [MergeV] *)
}.

Section Driver.
Context `{Dist : TDist} `{Link : TLink} `{Sq : SqrtLib}.

(** One iteration of the merge loop (lines 327-356). *)
Definition merge_step (NInst : nat) (st : dendro_state) : res dendro_state :=
  match find_min (ds_dist st) (ds_counts st) NInst with
  | None => Err EIndex
  | Some (MnI, MnJ, MnDist) =>
      let Dist := Qsqrt (clamp0 MnDist) in
      let ItemCountV := ds_counts st in
      let ItemCountV' := <[MnI := (nth MnI ItemCountV 0 + nth MnJ ItemCountV 0)%nat]> ItemCountV in
      Ok {| ds_dist := JoinClusts (ds_dist st) ItemCountV MnI MnJ;
            ds_counts := <[MnJ := 0%nat]> ItemCountV';
            ds_merges := ds_merges st ++ [(MnI, MnJ, Dist)] |}
  end.

(** [for (int k = 0; k < NInst-1; k++)]: the counter is not used in the
    body, so the loop is [k] repetitions of [merge_step]. *)
Fixpoint merge_loop (NInst k : nat) (st : dendro_state) : res dendro_state :=
  match k with
  | O => Ok st
  | S k' => st' <- merge_step NInst st ;; merge_loop NInst k' st'
  end.

(** The state before the first merge (lines 319-324): the squared
    distances into the fresh [TFltVV ClustDistVV], [TLAUtil::Ones] counts. *)
Definition dendro_init (X : fltvv) (MergeV : list merge) : dendro_state :=
  let NInst := GetCols X in
  let ClustDistVV := GetDist2VV X X (FltVV 0 []) in
  let ItemCountV := replicate NInst 1%nat in
  DState ClustDistVV ItemCountV MergeV.

(** [MakeDendro(X, MergeV, Notify)] (lines 318-358).  [MergeV] is the
    caller's vector: the records are appended to it. *)
Definition MakeDendro (X : fltvv) (MergeV : list merge) : res (list merge) :=
  let NInst := GetCols X in
  st <- merge_loop NInst (NInst - 1) (dendro_init X MergeV) ;;
  Ok (ds_merges st).

End Driver.

(** The typedefs of lines 361-363.  [TSlAggClust], the single-link driver
    by its name, is instantiated with [TCompleteLink]. *)
Definition TAlAggClust_MakeDendro `{SqrtLib} := @MakeDendro EuclDist TAvgLink _.
Definition TClAggClust_MakeDendro `{SqrtLib} := @MakeDendro EuclDist TCompleteLink _.
Definition TSlAggClust_MakeDendro `{SqrtLib} := @MakeDendro EuclDist TCompleteLink _.

(** The four one-dimensional points [{0, 1, 9, 10}] of the specification's
    scenario (section 8), as the columns of a 1 x 4 matrix. *)
Definition X4 : fltvv := FltVV 1 [[0]; [1]; [9]; [10]].

(** A record, written out. *)
Definition mrec (i j : nat) (d : Q) : merge := (i, j, d).

(** The records with their distances in lowest terms, for comparison. *)
Definition reduced (r : res (list merge)) : res (list merge) :=
  res_bind r (fun l => Ok (map (fun m => (m.1, Qred m.2)) l)).

(** ** The abstract specification of a merge choice *)

Definition active (cnt : list nat) (a : nat) : Prop := (0 < nth a cnt 0)%nat.

(** The pairs the scan may choose: two distinct active slots, [a < b]. *)
Definition active_pair (n : nat) (cnt : list nat) (a b : nat) : Prop :=
  (a < b)%nat /\ (b < n)%nat /\ active cnt a /\ active cnt b.

(** The order in which the nested loops visit the pairs. *)
Definition lex_lt (a b i j : nat) : Prop := (a < i)%nat \/ (a = i /\ (b < j)%nat).

(** [(i, j)] has the least distance among the active pairs, and every
    active pair visited before it is strictly farther: ties go to the first
    pair in scan order. *)
Definition first_min (D : fltvv) (n : nat) (cnt : list nat) (i j : nat) : Prop :=
  active_pair n cnt i j /\
  (forall a b, active_pair n cnt a b -> mat_at D i j <= mat_at D a b) /\
  (forall a b, active_pair n cnt a b -> lex_lt a b i j -> mat_at D i j < mat_at D a b).

(** The invariant of the scan after it has visited the pairs [S]. *)
Definition best_inv (D : fltvv) (n : nat) (cnt : list nat) (S : nat -> nat -> Prop) (b : best) : Prop :=
  match b with
  | None => forall a b, S a b -> ~ active_pair n cnt a b
  | Some (i, j, d) =>
      d = mat_at D i j /\ S i j /\ active_pair n cnt i j /\
      (forall a b, S a b -> active_pair n cnt a b -> mat_at D i j <= mat_at D a b) /\
      (forall a b, S a b -> active_pair n cnt a b -> lex_lt a b i j -> mat_at D i j < mat_at D a b)
  end.

Section Scan.
Context (D : fltvv) (n : nat) (cnt : list nat).

Lemma best_inv_ext (S S' : nat -> nat -> Prop) b :
  (forall a c, active_pair n cnt a c -> S a c <-> S' a c) ->
  best_inv D n cnt S b -> best_inv D n cnt S' b.
Proof.
  intros Hext. destruct b as [[[i j] d]|]; simpl.
  - intros (Hd & HS & Ha & Hle & Hlt). split_and!; try done.
    + by apply Hext.
    + intros a c HS' Hac. apply Hle; [by apply Hext|done].
    + intros a c HS' Hac. apply Hlt; [by apply Hext|done].
  - intros Hnone a c HS' Hac. apply (Hnone a c); [by apply Hext|done].
Qed.

Lemma lex_lt_asym a b i j : lex_lt a b i j -> ~ lex_lt i j a b.
Proof. unfold lex_lt. lia. Qed.

(** Visiting the pair [(i, j)] (the body of the inner loop). *)
Lemma scan_pair_inv (S S' : nat -> nat -> Prop) i j b :
  active cnt i -> (i < j)%nat -> (j < n)%nat ->
  (forall a c, S a c -> lex_lt a c i j) ->
  (forall a c, S' a c <-> S a c \/ (a = i /\ c = j)) ->
  best_inv D n cnt S b -> best_inv D n cnt S' (scan_pair D cnt i b j).
Proof.
  intros Hi Hij Hj Hbefore HS' Hinv. unfold scan_pair.
  rewrite (proj2 (Nat.eqb_neq i j)) by lia. simpl.
  destruct (Nat.eqb (nth j cnt 0%nat) 0) eqn:Ej.
  - (* [ItemCountV[j] == 0]: the new pair is not active *)
    apply Nat.eqb_eq in Ej. revert Hinv. apply best_inv_ext.
    intros a c (_ & _ & _ & Hc). rewrite HS'. unfold active in Hc.
    split; [by left|]. intros [?|[-> ->]]; [done|lia].
  - apply Nat.eqb_neq in Ej.
    assert (Hpair : active_pair n cnt i j) by (unfold active_pair, active in *; lia).
    destruct b as [[[bi bj] m]|]; simpl in *.
    + destruct Hinv as (-> & HS & Hb & Hle & Hlt).
      case_Qltb (mat_at D i j) (mat_at D bi bj); simpl; split_and!; try done.
      * apply HS'. by right.
      * intros a c [Hac|[-> ->]]%HS' Hp; [|apply Qle_refl].
        specialize (Hle a c Hac Hp). lra.
      * intros a c [Hac|[-> ->]]%HS' Hp Hlex; [|unfold lex_lt in Hlex; lia].
        specialize (Hle a c Hac Hp). lra.
      * apply HS'. by left.
      * intros a c [Hac|[-> ->]]%HS' Hp; [by apply Hle|done].
      * intros a c [Hac|[-> ->]]%HS' Hp Hlex; [by apply Hlt|].
        exfalso. by apply (lex_lt_asym bi bj i j); [apply Hbefore|].
    + split_and!; try done.
      * apply HS'. by right.
      * intros a c [Hac|[-> ->]]%HS' Hp; [by destruct (Hinv a c Hac)|apply Qle_refl].
      * intros a c [Hac|[-> ->]]%HS' Hp Hlex; [by destruct (Hinv a c Hac)|unfold lex_lt in Hlex; lia].
Qed.

(** The inner loop visits the pairs [(i, i+1) .. (i, n-1)]. *)
Lemma scan_row_inv i b :
  active cnt i -> (i < n)%nat ->
  best_inv D n cnt (fun a c => (a < i)%nat) b ->
  best_inv D n cnt (fun a c => (a < S i)%nat) (scan_row D cnt n i b).
Proof.
  intros Hi Hin Hinv. unfold scan_row.
  apply (best_inv_ext (fun a c => lex_lt a c i (S i + (n - S i)))).
  { intros a c (? & ? & _). unfold lex_lt. lia. }
  apply (for_range_ind (fun j b => best_inv D n cnt (fun a c => lex_lt a c i j) b)).
  - revert Hinv. apply best_inv_ext. intros a c (? & ? & _). unfold lex_lt. lia.
  - intros j b' Hj Hb'. apply (scan_pair_inv (fun a c => lex_lt a c i j)); try done; try lia.
    intros a c. unfold lex_lt. lia.
Qed.

(** The outer loop: after it, every pair has been visited. *)
Lemma find_min_inv : best_inv D n cnt (fun a c => (a < n)%nat) (find_min D cnt n).
Proof.
  unfold find_min.
  apply (for_range_ind (fun i b => best_inv D n cnt (fun a c => (a < i)%nat) b) 0 n).
  - intros a c Ha. lia.
  - intros i b Hi Hb. destruct (Nat.eqb (nth i cnt 0%nat) 0) eqn:E.
    + apply Nat.eqb_eq in E. revert Hb. apply best_inv_ext.
      intros a c (? & ? & Ha & _). unfold active in Ha.
      split; [lia|]. intros Hai. destruct (decide (a = i)); [subst; lia|lia].
    + apply Nat.eqb_neq in E. apply scan_row_inv; [unfold active; lia|lia|done].
Qed.
End Scan.

(** Once every pair is visited, the invariant is the specification. *)
Lemma best_inv_full D n cnt b :
  best_inv D n cnt (fun a c => (a < n)%nat) b ->
  match b with
  | None => forall a b, ~ active_pair n cnt a b
  | Some (i, j, d) => d = mat_at D i j /\ first_min D n cnt i j
  end.
Proof.
  destruct b as [[[i j] d]|]; simpl.
  - intros (Hd & _ & Hp & Hle & Hlt). split; [done|]. split_and!; [done| |].
    + intros a b Hab. apply Hle; [|done]. destruct Hab; lia.
    + intros a b Hab. apply Hlt; [|done]. destruct Hab; lia.
  - intros Hinv a b Hab. apply (Hinv a b); [destruct Hab; lia|done].
Qed.

(** ** Theorems of the driver *)

(** C2: the two nested loops of [MakeDendro] implement the merge choice of
    the specification: when an active pair exists the scan returns the
    lexicographically first pair of least distance with its distance, and
    it returns the initial [(-1, -1, +inf)] only when no pair is active. *)
Theorem find_min_correct D cnt n :
  match find_min D cnt n with
  | None => forall a b, ~ active_pair n cnt a b
  | Some (i, j, d) => d = mat_at D i j /\ first_min D n cnt i j
  end.
Proof. apply best_inv_full, find_min_inv. Qed.

(** ** The driver as a state machine *)

Section Machine.
Context `{Dist : TDist} `{Link : TLink} `{Sq : SqrtLib}.

(** The state after merging [j] into [i]. *)
Definition merged (st : dendro_state) (i j : nat) : dendro_state :=
  let cnt := ds_counts st in
  {| ds_dist := JoinClusts (ds_dist st) cnt i j;
     ds_counts := <[j := 0%nat]> (<[i := (nth i cnt 0 + nth j cnt 0)%nat]> cnt);
     ds_merges := ds_merges st ++ [(i, j, Qsqrt (clamp0 (mat_at (ds_dist st) i j)))] |}.

(** The abstract step: merge a first minimal active pair. *)
Inductive agg_step (n : nat) : dendro_state -> dendro_state -> Prop :=
  | agg_step_merge st i j :
      first_min (ds_dist st) n (ds_counts st) i j -> agg_step n st (merged st i j).

(** [k] abstract steps. *)
Inductive agg_steps (n : nat) : nat -> dendro_state -> dendro_state -> Prop :=
  | agg_steps_refl st : agg_steps n 0 st st
  | agg_steps_cons k st st' st'' :
      agg_step n st st' -> agg_steps n k st' st'' -> agg_steps n (S k) st st''.

(** C3: one iteration of the merge loop is an abstract step, and it fails
    (on [ItemCountV[-1]]) exactly when no active pair is left. *)
Theorem merge_step_refines n st :
  match merge_step n st with
  | Ok st' => agg_step n st st'
  | Err e => e = EIndex /\ forall a b, ~ active_pair n (ds_counts st) a b
  end.
Proof.
  unfold merge_step. pose proof (best_inv_full _ _ _ _ (find_min_inv (ds_dist st) n (ds_counts st))) as Hf.
  destruct (find_min _ _ _) as [[[i j] d]|]; [|done].
  destruct Hf as [-> Hmin]. by apply (agg_step_merge n st i j).
Qed.

Lemma merge_step_agg n st st' : merge_step n st = Ok st' -> agg_step n st st'.
Proof.
  unfold merge_step. pose proof (best_inv_full _ _ _ _ (find_min_inv (ds_dist st) n (ds_counts st))) as Hf.
  destruct (find_min _ _ _) as [[[i j] d]|]; [|done].
  destruct Hf as [-> Hmin]. intros [= <-]. by apply (agg_step_merge n st i j).
Qed.

Lemma merge_step_err n st e :
  merge_step n st = Err e -> forall a b, ~ active_pair n (ds_counts st) a b.
Proof.
  unfold merge_step. pose proof (best_inv_full _ _ _ _ (find_min_inv (ds_dist st) n (ds_counts st))) as Hf.
  by destruct (find_min _ _ _) as [[[i j] d]|].
Qed.

Lemma merge_loop_refines n k st st' :
  merge_loop n k st = Ok st' -> agg_steps n k st st'.
Proof.
  revert st. induction k as [|k IH]; intros st; simpl.
  - intros [= <-]. constructor.
  - destruct (merge_step n st) as [st1|e] eqn:Hs; simpl; [|done].
    intros Hl. econstructor; [by apply merge_step_agg|]. by apply IH.
Qed.

End Machine.

(** ** The invariant of the merge loop *)

(** After [k] merges of [n] points. *)
Record dendro_inv (n k : nat) (st : dendro_state) : Prop := {
  inv_square : square n (ds_dist st);
  inv_sym : symmetric n (ds_dist st);
  inv_len : length (ds_counts st) = n;
  inv_sum : sum_list (ds_counts st) = n;
  inv_nactive : nactive (ds_counts st) = (n - k)%nat;
  inv_zero : (0 < n)%nat -> active (ds_counts st) 0
}.

Section Invariant.
Context `{Dist : TDist} `{Link : TLink} `{Sq : SqrtLib}.
Context `{!LinkLaws Link}.

Lemma first_min_pair D n cnt i j :
  first_min D n cnt i j -> (i < j)%nat /\ (j < n)%nat /\ nth i cnt 0%nat <> 0%nat /\ nth j cnt 0%nat <> 0%nat.
Proof. intros ((? & ? & Hi & Hj) & _). unfold active in *. lia. Qed.

(** The counts after a merge, entry by entry. *)
Lemma merged_count (cnt : list nat) i j a :
  i <> j -> (i < length cnt)%nat ->
  nth a (<[j := 0%nat]> (<[i := (nth i cnt 0 + nth j cnt 0)%nat]> cnt)) 0%nat =
  if decide (a = j) then 0%nat else if decide (a = i) then (nth i cnt 0 + nth j cnt 0)%nat else nth a cnt 0%nat.
Proof.
  intros Hij Hi. destruct (decide (j < length cnt)%nat).
  - rewrite nth_insert by (by rewrite length_insert).
    case_decide; subst; [by rewrite decide_True|]. rewrite decide_False by done.
    rewrite nth_insert by done. by repeat case_decide; subst.
  - rewrite list_insert_ge by (rewrite length_insert; lia).
    rewrite nth_insert by done. repeat case_decide; subst; try done; try lia.
    by rewrite nth_overflow by lia.
Qed.

(** Every abstract merge preserves the invariant: the matrix stays square
    and symmetric, the counts keep their sum [n], one slot less is active,
    and slot 0 stays active. *)
Lemma agg_step_preserves n k st st' :
  dendro_inv n k st -> agg_step n st st' -> dendro_inv n (S k) st'.
Proof.
  intros [Hsq Hsym Hlen Hsum Hna Hz] Hstep. destruct Hstep as [st i j Hmin].
  destruct (first_min_pair _ _ _ _ _ Hmin) as (Hij & Hjn & Hci & Hcj).
  destruct st as [D0 cnt M0]; simpl in *.
  split; simpl.
  - eapply join_square; [exact Hsq|lia].
  - eapply join_sym; [exact Hsq|lia|exact Hsym].
  - by rewrite !length_insert.
  - pose proof (sum_list_insert cnt i (nth i cnt 0 + nth j cnt 0)%nat ltac:(lia)) as Hs1.
    pose proof (sum_list_insert (<[i := (nth i cnt 0 + nth j cnt 0)%nat]> cnt) j 0%nat
                  ltac:(rewrite length_insert; lia)) as Hs2.
    rewrite nth_insert_ne in Hs2 by lia. lia.
  - pose proof (nactive_insert cnt i (nth i cnt 0 + nth j cnt 0)%nat ltac:(lia)) as Hn1.
    pose proof (nactive_insert (<[i := (nth i cnt 0 + nth j cnt 0)%nat]> cnt) j 0%nat
                  ltac:(rewrite length_insert; lia)) as Hn2.
    rewrite nth_insert_ne in Hn2 by lia.
    destruct (Nat.eqb_spec (nth i cnt 0%nat) 0), (Nat.eqb_spec (nth j cnt 0%nat) 0),
      (Nat.eqb_spec (nth i cnt 0 + nth j cnt 0)%nat 0); simpl in *; lia.
  - intros Hn. unfold active. rewrite merged_count by lia.
    specialize (Hz Hn). unfold active in Hz.
    repeat case_decide; subst; lia.
Qed.

Lemma agg_steps_inv n m k st st' :
  agg_steps n m st st' -> dendro_inv n k st -> dendro_inv n (k + m) st'.
Proof.
  intros Hs. revert k. induction Hs as [st|m st st1 st2 Hstep Hs IH]; intros k Hinv.
  - by rewrite Nat.add_0_r.
  - rewrite Nat.add_succ_r, <- Nat.add_succ_l. apply IH. by eapply agg_step_preserves.
Qed.

Lemma dendro_inv_init `{!DistLaws Dist} X M :
  vv_wf X -> dendro_inv (GetCols X) 0 (dendro_init X M).
Proof.
  intros Hwf. destruct (dist2_shape X X (FltVV 0 []) Hwf Hwf eq_refl) as (Hw & Hr & Hc).
  split; simpl.
  - split_and!; done.
  - intros a b Ha Hb. by apply dist2_sym.
  - by rewrite length_replicate.
  - rewrite sum_list_replicate. lia.
  - rewrite nactive_replicate. lia.
  - intros Hn. unfold active. destruct (GetCols X); [lia|]. simpl. lia.
Qed.

End Invariant.

(** ** The merge records *)

Definition rec_i (r : merge) : nat := r.1.1.
Definition rec_j (r : merge) : nat := r.1.2.
Definition rec_dist (r : merge) : Q := r.2.

(** What the records emitted so far satisfy, with respect to the counts. *)
Record recs_inv (n : nat) (cnt : list nat) (recs : list merge) : Prop := {
  rinv_order : Forall (fun r => (rec_i r < rec_j r)%nat /\ (rec_j r < n)%nat) recs;
  rinv_nodup : NoDup (map rec_j recs);
  rinv_dead : Forall (fun r => nth (rec_j r) cnt 0%nat = 0%nat) recs;
  rinv_zero : (nth 0 cnt 0%nat <= 1)%nat \/ Exists (fun r => rec_i r = 0%nat) recs
}.

Section Totality.
Context `{Dist : TDist} `{Link : TLink} `{Sq : SqrtLib}.
Context `{!LinkLaws Link}.

Lemma merge_step_ok n k st :
  dendro_inv n k st -> (k < n - 1)%nat ->
  exists st', merge_step n st = Ok st' /\ agg_step n st st'.
Proof.
  intros Hinv Hk. destruct (merge_step n st) as [st'|e] eqn:Hs; [eauto using merge_step_agg|].
  pose proof (merge_step_err n st e Hs) as Hnone.
  destruct (nactive_pair (ds_counts st)) as (a & b & Hab & Ha & Hb);
    [rewrite (inv_nactive _ _ _ Hinv); lia|].
  exfalso. apply (Hnone a b). unfold active_pair, active.
  rewrite (inv_len _ _ _ Hinv) in Hab. lia.
Qed.

Lemma merge_loop_ok n k m st :
  dendro_inv n k st -> (k + m <= n - 1)%nat -> exists st', merge_loop n m st = Ok st'.
Proof.
  revert k st. induction m as [|m IH]; intros k st Hinv Hkm; simpl; [eauto|].
  destruct (merge_step_ok n k st) as (st1 & -> & Hs); [done|lia|]. simpl.
  apply (IH (S k)); [by eapply agg_step_preserves|lia].
Qed.

Lemma agg_step_recs n st st' R :
  agg_step n st st' -> recs_inv n (ds_counts st) R ->
  exists r, ds_merges st' = ds_merges st ++ [r] /\ recs_inv n (ds_counts st') (R ++ [r]).
Proof.
  intros [st0 i j Hmin] [Hord Hnd Hdead Hz].
  destruct (first_min_pair _ _ _ _ _ Hmin) as (Hij & Hjn & Hci & Hcj).
  destruct st0 as [D cnt M]; simpl in *. eexists; split; [done|].
  destruct (decide (i < length cnt)%nat) as [Hi|Hi]; [|by rewrite nth_overflow in Hci by lia].
  assert (Hcnt : forall a, nth a (<[j := 0%nat]> (<[i := (nth i cnt 0 + nth j cnt 0)%nat]> cnt)) 0%nat =
    if decide (a = j) then 0%nat else if decide (a = i) then (nth i cnt 0 + nth j cnt 0)%nat
    else nth a cnt 0%nat) by (intros; apply merged_count; lia).
  split.
  - apply Forall_app; split; [done|]. repeat constructor; unfold rec_i, rec_j; simpl; lia.
  - rewrite map_app. apply NoDup_app. split_and!; [done| |apply NoDup_singleton].
    intros x Hx ->%list_elem_of_singleton.
    apply list_elem_of_fmap in Hx as (r & Hr & Hin). rewrite Forall_forall in Hdead.
    specialize (Hdead r Hin). unfold rec_j in *. simpl in Hr. congruence.
  - apply Forall_app; split.
    + eapply Forall_impl; [exact Hdead|]. intros r Hr. rewrite Hcnt.
      repeat case_decide; subst; congruence.
    + repeat constructor. unfold rec_j; simpl. rewrite Hcnt. by rewrite decide_True.
  - rewrite Hcnt, decide_False by lia. destruct (decide (0 = i)%nat) as [<-|Hi0].
    + right. apply Exists_app. right. constructor. done.
    + destruct Hz as [Hz|Hz]; [by left|right; apply Exists_app; by left].
Qed.

Lemma agg_steps_recs n m st st' R :
  agg_steps n m st st' -> recs_inv n (ds_counts st) R ->
  exists R', ds_merges st' = ds_merges st ++ R' /\ length R' = m /\
    recs_inv n (ds_counts st') (R ++ R').
Proof.
  intros Hs. revert R. induction Hs as [st|m st st1 st2 Hstep Hs IH]; intros R Hr.
  - exists []. by rewrite !app_nil_r.
  - destruct (agg_step_recs n st st1 R Hstep Hr) as (r & Heq1 & Hr1).
    destruct (IH _ Hr1) as (R' & Heq2 & Hlen & Hr2).
    exists (r :: R'). rewrite <- app_assoc in Hr2. split_and!; [|simpl; lia|done].
    by rewrite Heq2, Heq1, <- app_assoc.
Qed.

End Totality.

(** ** Theorems of [MakeDendro] *)

Section Dendro.
Context `{Dist : TDist} `{Link : TLink} `{Sq : SqrtLib}.
Context `{!DistLaws Dist} `{!LinkLaws Link}.

Lemma recs_inv_init n : recs_inv n (replicate n 1%nat) [].
Proof. split; [constructor|constructor|constructor|left; destruct n; simpl; lia]. Qed.

(** The run of [MakeDendro]: it completes its [NInst - 1] merges, each an
    abstract step from the initial state. *)
Lemma MakeDendro_run X M :
  vv_wf X ->
  exists st', MakeDendro X M = Ok (ds_merges st') /\
    agg_steps (GetCols X) (GetCols X - 1) (dendro_init X M) st' /\
    dendro_inv (GetCols X) (GetCols X - 1) st'.
Proof.
  intros Hwf. pose proof (dendro_inv_init X M Hwf) as Hinv.
  destruct (merge_loop_ok (GetCols X) 0 (GetCols X - 1) _ Hinv) as (st' & Hl); [lia|].
  exists st'. unfold MakeDendro; cbv zeta. rewrite Hl.
  pose proof (merge_loop_refines _ _ _ _ Hl) as Hs. split_and!; [done|done|].
  apply (agg_steps_inv _ _ 0 _ _ Hs Hinv).
Qed.

(** C4: every state the merge loop of [MakeDendro] reaches after [k]
    merges satisfies the invariant: the distance matrix is square and
    symmetric, the item counts sum to [NInst], exactly [NInst - k] slots
    are active, and slot 0 is one of them. *)
Theorem merge_loop_inv X M k st :
  vv_wf X -> merge_loop (GetCols X) k (dendro_init X M) = Ok st -> dendro_inv (GetCols X) k st.
Proof.
  intros Hwf Hl. apply (agg_steps_inv _ _ 0 _ _ (merge_loop_refines _ _ _ _ Hl)).
  by apply dendro_inv_init.
Qed.

(** C1: [MakeDendro] terminates without error on every well-formed input
    and appends exactly [NInst - 1] merge records to the caller's
    [MergeV]; the out-of-range access [ItemCountV[-1]] never happens. *)
Theorem MakeDendro_total X M :
  vv_wf X -> exists recs, MakeDendro X M = Ok (M ++ recs) /\ length recs = (GetCols X - 1)%nat.
Proof.
  intros Hwf. destruct (MakeDendro_run X M Hwf) as (st' & -> & Hs & _).
  destruct (agg_steps_recs _ _ _ _ [] Hs (recs_inv_init _)) as (R & HR & Hlen & _).
  exists R. rewrite HR. split; [done|lia].
Qed.

(** C12: every record [(i, j, d)] names two slots [i < j < NInst], no slot is
    merged away twice, and, for two or more points, every point [0 ..
    NInst-1] occurs in some record. *)
Theorem MakeDendro_records X M recs :
  vv_wf X -> MakeDendro X M = Ok (M ++ recs) ->
  Forall (fun r => (rec_i r < rec_j r)%nat /\ (rec_j r < GetCols X)%nat) recs /\
  NoDup (map rec_j recs) /\
  (forall a, (a < GetCols X)%nat -> (2 <= GetCols X)%nat ->
     Exists (fun r => rec_i r = a \/ rec_j r = a) recs).
Proof.
  intros Hwf Hrun. set (n := GetCols X) in *.
  destruct (MakeDendro_run X M Hwf) as (st' & Hst & Hs & Hinv).
  destruct (agg_steps_recs _ _ _ _ [] Hs (recs_inv_init _)) as (R & HR & Hlen & [Hord Hnd Hdead Hz]).
  rewrite Hst, HR in Hrun. simpl in Hrun. injection Hrun as Hrun. apply app_inv_head in Hrun.
  subst R. split_and!; [done|done|]. intros a Ha Hn.
  destruct a as [|a].
  - (* slot 0 absorbs the last cluster *)
    destruct Hz as [Hz|Hz]; [|eapply Exists_impl; [exact Hz|]; simpl; tauto].
    destruct Hinv as [_ _ Hlen' Hsum Hna Hzero].
    specialize (Hzero ltac:(lia)). unfold active in Hzero.
    pose proof (nactive_one_head (ds_counts st') ltac:(lia) ltac:(lia)). lia.
  - (* slots 1 .. n-1 are the right slots of the n-1 records *)
    assert (Hin : In (S a) (map rec_j recs)).
    { apply (NoDup_length_incl (l := map rec_j recs) (l' := seq 1 (n - 1))).
      - by apply NoDup_ListNoDup.
      - rewrite length_seq, length_map. lia.
      - intros x Hx. apply in_map_iff in Hx as (r & <- & Hr).
        rewrite Forall_forall in Hord. destruct (Hord r (proj2 (list_elem_of_In _ _) Hr)).
        apply in_seq. lia.
      - apply in_seq. lia. }
    apply in_map_iff in Hin as (r & Hr & Hin). apply Exists_exists.
    exists r. split; [by apply list_elem_of_In|by right].
Qed.

End Dendro.

(** ** Safety and progress of the merge loop *)

(** No record names a slot that an earlier record merged away. *)
Fixpoint no_reuse (R : list merge) : Prop :=
  match R with
  | [] => True
  | r :: R' => Forall (fun r' => rec_i r' <> rec_j r /\ rec_j r' <> rec_j r) R' /\ no_reuse R'
  end.

Lemma no_reuse_app R1 r R2 :
  no_reuse (R1 ++ r :: R2) -> Forall (fun r' => rec_i r' <> rec_j r /\ rec_j r' <> rec_j r) R2.
Proof. induction R1 as [|r1 R1 IH]; simpl; [tauto|]. intros [_ H]. by apply IH. Qed.

(** The counts sum to [n], one slot is active and it is slot 0: all the
    points are in slot 0. *)
Lemma counts_one_cluster (l : list nat) n :
  length l = n -> sum_list l = n -> nactive l = 1%nat -> nth 0 l 0%nat <> 0%nat ->
  l = n :: replicate (n - 1) 0%nat.
Proof.
  destruct l as [|c l]; simpl; [lia|]. intros Hlen Hsum Hna Hc.
  destruct (Nat.eqb_spec c 0); [lia|].
  pose proof (nactive_zero_sum l ltac:(lia)) as Hz.
  assert (Hl : l = replicate (length l) 0%nat).
  { clear -Hz. induction l as [|x l IH]; simpl in *; [done|]. f_equal; [lia|]. apply IH. lia. }
  rewrite Hl. f_equal; [lia|]. f_equal. lia.
Qed.

Section Safety.
Context `{Dist : TDist} `{Link : TLink} `{Sq : SqrtLib}.

(** A slot active after a merge was active before, and is not the slot
    merged away. *)
Lemma merged_active n st i j a :
  first_min (ds_dist st) n (ds_counts st) i j ->
  active (ds_counts (merged st i j)) a -> active (ds_counts st) a /\ a <> j.
Proof.
  intros Hmin. destruct (first_min_pair _ _ _ _ _ Hmin) as (Hij & Hjn & Hci & Hcj).
  destruct st as [D cnt M]; unfold active; simpl in *.
  destruct (decide (i < length cnt)%nat) as [Hi|Hi]; [|by rewrite nth_overflow in Hci by lia].
  rewrite merged_count by lia. repeat case_decide; subst; lia.
Qed.

(** The records a run emits name slots active at its start, and none names
    a slot an earlier one of them merged away. *)
Lemma agg_steps_names n m st st' :
  agg_steps n m st st' ->
  exists R, ds_merges st' = ds_merges st ++ R /\
    Forall (fun r => active (ds_counts st) (rec_i r) /\ active (ds_counts st) (rec_j r)) R /\
    no_reuse R.
Proof.
  induction 1 as [st|m st st1 st2 Hstep Hs IH]; [exists []; by rewrite app_nil_r|].
  destruct Hstep as [st i j Hmin]. destruct IH as (R & HR & Hact & Hnr).
  destruct (first_min_pair _ _ _ _ _ Hmin) as (_ & _ & Hci & Hcj).
  eexists (_ :: R). split_and!.
  - rewrite HR. cbn [merged ds_merges]. by rewrite <- app_assoc.
  - constructor; [unfold active, rec_i, rec_j; simpl; lia|].
    eapply Forall_impl; [exact Hact|]. intros r [Hi Hj].
    split; eapply merged_active; eassumption.
  - split; [|done]. eapply Forall_impl; [exact Hact|]. intros r [Hi Hj].
    split; eapply merged_active; eassumption.
Qed.

End Safety.

Section SafetyDendro.
Context `{Dist : TDist} `{Link : TLink} `{Sq : SqrtLib}.
Context `{!DistLaws Dist} `{!LinkLaws Link}.

(** C10: a slot merged away is never used again: no record after the one
    that merges slot [j] away names [j], on the left or on the right. *)
Theorem MakeDendro_no_reuse X M recs R1 r R2 :
  vv_wf X -> MakeDendro X M = Ok (M ++ recs) -> recs = R1 ++ r :: R2 ->
  Forall (fun r' => rec_i r' <> rec_j r /\ rec_j r' <> rec_j r) R2.
Proof.
  intros Hwf Hrun ->. destruct (MakeDendro_run X M Hwf) as (st' & Hst & Hs & _).
  destruct (agg_steps_names _ _ _ _ Hs) as (R & HR & _ & Hnr).
  rewrite Hst, HR in Hrun. injection Hrun as Hrun. apply app_inv_head in Hrun.
  apply (no_reuse_app R1). by subst R.
Qed.

(** C11: the merge loop makes progress to its goal: on [NInst >= 1]
    well-formed points its [NInst - 1] iterations all succeed and end with
    every point in slot 0 and every other slot empty, the state in which
    no pair is left to merge. *)
Theorem MakeDendro_one_cluster X M :
  vv_wf X -> (0 < GetCols X)%nat ->
  exists st', merge_loop (GetCols X) (GetCols X - 1) (dendro_init X M) = Ok st' /\
    MakeDendro X M = Ok (ds_merges st') /\
    ds_counts st' = GetCols X :: replicate (GetCols X - 1) 0%nat.
Proof.
  intros Hwf Hn. pose proof (dendro_inv_init X M Hwf) as Hinv.
  destruct (merge_loop_ok (GetCols X) 0 (GetCols X - 1) _ Hinv) as (st' & Hl); [lia|].
  exists st'. split_and!; [done|unfold MakeDendro; cbv zeta; by rewrite Hl|].
  destruct (agg_steps_inv _ _ 0 _ _ (merge_loop_refines _ _ _ _ Hl) Hinv) as [_ _ Hlen Hsum Hna Hz].
  apply counts_one_cluster; [done|done|lia|]. specialize (Hz Hn). unfold active in Hz. lia.
Qed.

End SafetyDendro.

(** ** Merge distances do not decrease *)

(** Records sorted by distance, as a list of values read by index. *)
Definition dist_sorted (R : list merge) : Prop :=
  forall k1 k2 r1 r2, (k1 <= k2)%nat -> R !! k1 = Some r1 -> R !! k2 = Some r2 ->
  rec_dist r1 <= rec_dist r2.

(** The records so far are sorted and no farther apart than any pair of
    active clusters. *)
Definition mono_inv `{SqrtLib} (n : nat) (st : dendro_state) (R : list merge) : Prop :=
  dist_sorted R /\
  forall r a b, r ∈ R -> active_pair n (ds_counts st) a b ->
    rec_dist r <= Qsqrt (clamp0 (mat_at (ds_dist st) a b)).

Section Monotone.
Context `{Dist : TDist} `{Link : TLink} `{Sq : SqrtLib}.
Context `{!LinkLaws Link}.

(** The chosen distance is below every entry between distinct active slots. *)
Lemma first_min_le D n cnt i j a b :
  first_min D n cnt i j -> symmetric n D -> a <> b -> (a < n)%nat -> (b < n)%nat ->
  active cnt a -> active cnt b -> mat_at D i j <= mat_at D a b.
Proof.
  intros (_ & Hle & _) Hsym Hab Ha Hb HA HB. destruct (decide (a < b)%nat).
  - apply Hle. by split_and!.
  - unfold symmetric in Hsym. rewrite (Hsym a b) by done.
    apply Hle. split_and!; try done; lia.
Qed.

(** After a merge at [D(i,j)], every pair of active clusters is at least
    [D(i,j)] apart: the rule is reducible. *)
Lemma agg_step_lower_bound n k st i j :
  dendro_inv n k st -> first_min (ds_dist st) n (ds_counts st) i j ->
  forall a b, active_pair n (ds_counts (merged st i j)) a b ->
  mat_at (ds_dist st) i j <= mat_at (ds_dist (merged st i j)) a b.
Proof.
  intros [Hsq Hsym Hlen _ _ _] Hmin.
  destruct (first_min_pair _ _ _ _ _ Hmin) as (Hij & Hjn & Hci & Hcj).
  destruct st as [D cnt M]; simpl in *.
  assert (Hi : (i < length cnt)%nat) by lia. clear Hlen.
  intros a b (Hab & Hbn & Ha & Hb). unfold active in Ha, Hb.
  rewrite merged_count in Ha, Hb by lia.
  assert (Hred : forall c, (c < n)%nat -> c <> i -> c <> j -> active cnt c ->
    mat_at D i j <= mat_at (JoinClusts D cnt i j) i c).
  { intros c Hc Hci' Hcj' HC.
    eapply Qle_trans; [|apply (join_reducible n); first [done | lia]].
    apply Q.min_glb; apply (first_min_le D n cnt); unfold active; try done; lia. }
  repeat case_decide; subst; try lia.
  - (* [b = i]: read the merged column through symmetry *)
    rewrite (join_sym n D cnt i j Hsq ltac:(lia) Hsym a i) by lia.
    apply Hred; unfold active; try lia.
  - apply Hred; unfold active; try lia.
  - rewrite (join_frame n D cnt i j a b) by (done || lia).
    apply (first_min_le D n cnt); unfold active; try done; lia.
Qed.
Lemma sqrt_clamp_mono v w : v <= w -> Qsqrt (clamp0 v) <= Qsqrt (clamp0 w).
Proof. intros Hvw. apply Qsqrt_mono; [apply clamp0_nonneg|by apply clamp0_mono]. Qed.

Lemma agg_step_mono n k st st' R :
  dendro_inv n k st -> agg_step n st st' -> mono_inv n st R ->
  exists r, ds_merges st' = ds_merges st ++ [r] /\ mono_inv n st' (R ++ [r]).
Proof.
  intros Hinv Hstep [Hsorted Hbound]. destruct Hstep as [st i j Hmin].
  pose proof (agg_step_lower_bound n k st i j Hinv Hmin) as Hlow.
  eexists; split; [done|]. split.
  - intros k1 k2 r1 r2 Hk Hr1%lookup_snoc_Some Hr2%lookup_snoc_Some.
    destruct Hr1 as [[Hk1 Hr1]|[-> <-]]; destruct Hr2 as [[Hk2 Hr2]|[-> <-]]; try lia.
    + by apply (Hsorted k1 k2).
    + apply (Hbound r1 i j); [by eapply list_elem_of_lookup_2|apply Hmin].
    + apply Qle_refl.
  - intros r a b [Hr|Hr%list_elem_of_singleton]%elem_of_app Hab.
    + eapply Qle_trans; [apply (Hbound r i j Hr), Hmin|]. by apply sqrt_clamp_mono, Hlow.
    + subst r. by apply sqrt_clamp_mono, Hlow.
Qed.

Lemma agg_steps_mono n m k st st' R :
  agg_steps n m st st' -> dendro_inv n k st -> mono_inv n st R ->
  exists R', ds_merges st' = ds_merges st ++ R' /\ mono_inv n st' (R ++ R').
Proof.
  intros Hs. revert k R. induction Hs as [st|m st st1 st2 Hstep Hs IH]; intros k R Hinv Hm.
  - exists []. by rewrite !app_nil_r.
  - destruct (agg_step_mono n k st st1 R Hinv Hstep Hm) as (r & Heq1 & Hm1).
    destruct (IH (S k) _ (agg_step_preserves n k st st1 Hinv Hstep) Hm1) as (R' & Heq2 & Hm2).
    exists (r :: R'). rewrite <- app_assoc in Hm2. split; [|done].
    by rewrite Heq2, Heq1, <- app_assoc.
Qed.
End Monotone.

(** C13: for every lawful linkage (single, complete and average link alike)
    the merge distances [MakeDendro] records never decrease. *)
Theorem MakeDendro_dist_monotone `{Dist : TDist} `{Link : TLink} `{Sq : SqrtLib}
    `{!DistLaws Dist} `{!LinkLaws Link} X M recs :
  vv_wf X -> MakeDendro X M = Ok (M ++ recs) -> dist_sorted recs.
Proof.
  intros Hwf Hrun. destruct (MakeDendro_run X M Hwf) as (st' & Hst & Hs & _).
  destruct (agg_steps_mono _ _ 0 _ _ [] Hs (dendro_inv_init X M Hwf)) as (R & HR & [Hsorted _]).
  { split; [intros k1 k2 r1 r2 _ H; discriminate H|intros r a b Hr; by apply elem_of_nil in Hr]. }
  rewrite Hst, HR in Hrun. simpl in Hrun. injection Hrun as Hrun. apply app_inv_head in Hrun.
  by subst R.
Qed.

(** ** The set-level reference algorithm

    The specification's algorithm on clusters of points: the members of
    every slot, the linkage of every two slots recomputed from the members
    ([Lset] of the strategy's [SetLinkage]), the same scan for the first
    least pair, and the union of the two clusters. *)

(** The members of every slot; a slot merged away has none. *)
Abbreviation clusters := (list (list nat)).

Section Reference.
Context `{Sq : SqrtLib} `{L : TLink} `{SL : !SetLinkage L}.

(** The linkage of every pair of slots, recomputed from their members. *)
Definition link_mat (D0 : fltvv) (Ms : clusters) (n : nat) : fltvv :=
  FltVV n (map (fun b => map (fun a => Lset (mat_at D0) (nth a Ms []) (nth b Ms [])) (seq 0 n)) (seq 0 n)).

(** Slot [i] takes the members of [j]; [j] is left empty. *)
Definition hac_merge (Ms : clusters) (i j : nat) : clusters :=
  <[j := []]> (<[i := nth i Ms [] ++ nth j Ms []]> Ms).

(** One step: the first pair of non-empty slots at the least linkage, in
    the order of the scan, merged, with its record. *)
Definition hac_step (D0 : fltvv) (n : nat) (Ms : clusters) : option (clusters * merge) :=
  match find_min (link_mat D0 Ms n) (map length Ms) n with
  | None => None
  | Some (i, j, d) => Some (hac_merge Ms i j, (i, j, Qsqrt (clamp0 d)))
  end.

Fixpoint hac_run (D0 : fltvv) (n k : nat) (Ms : clusters) : list merge :=
  match k with
  | O => []
  | S k' => match hac_step D0 n Ms with
            | None => []
            | Some (Ms', r) => r :: hac_run D0 n k' Ms'
            end
  end.

(** [NInst - 1] steps from the singletons, on the squared distances. *)
Definition hac `{Dist : TDist} (X : fltvv) : list merge :=
  let n := GetCols X in
  hac_run (GetDist2VV X X (FltVV 0 [])) n (n - 1) (map (fun a => [a]) (seq 0 n)).

End Reference.

(** Two records name the same pair at equal distances. *)
Definition rec_equiv (r r' : merge) : Prop := r.1 = r'.1 /\ r.2 == r'.2.


(** ** Lemmas: the choice of the scan depends only on the active entries *)

Lemma first_min_ext D D' n cnt cnt' i j :
  (forall a, (a < n)%nat -> active cnt a <-> active cnt' a) ->
  (forall a b, active_pair n cnt a b -> mat_at D a b == mat_at D' a b) ->
  first_min D n cnt i j -> first_min D' n cnt' i j.
Proof.
  intros Hact HD ((Hij & Hjn & Hi & Hj) & Hle & Hlt).
  assert (Hp : forall a b, active_pair n cnt' a b -> active_pair n cnt a b).
  { intros a b (? & ? & Ha & Hb). split_and!; try done; apply Hact; (done || lia). }
  assert (Hij' : active_pair n cnt i j) by (by split_and!).
  split; [|split].
  - split_and!; [done|done|apply Hact; (done || lia)..].
  - intros a b Hab. rewrite <- (HD i j Hij'), <- (HD a b (Hp a b Hab)). by apply Hle, Hp.
  - intros a b Hab Hlex. rewrite <- (HD i j Hij'), <- (HD a b (Hp a b Hab)). by apply Hlt; [apply Hp|].
Qed.

Lemma first_min_unique' D n cnt i j i' j' :
  first_min D n cnt i j -> first_min D n cnt i' j' -> i = i' /\ j = j'.
Proof.
  intros (Hp & Hle & Hlt) (Hp' & Hle' & Hlt').
  destruct (decide (i = i' /\ j = j')) as [?|Hne]; [done|exfalso].
  assert (lex_lt i j i' j' \/ lex_lt i' j' i j) as [Hl|Hl] by (unfold lex_lt; lia).
  - specialize (Hlt' i j Hp Hl). specialize (Hle i' j' Hp'). lra.
  - specialize (Hlt i' j' Hp' Hl). specialize (Hle' i j Hp). lra.
Qed.

Lemma nth_merge {A} (l : list A) i j x y d a :
  i <> j -> (i < length l)%nat ->
  nth a (<[j := y]> (<[i := x]> l)) d =
  if decide (a = j) then (if decide (j < length l)%nat then y else d)
  else if decide (a = i) then x else nth a l d.
Proof.
  intros Hij Hi. destruct (decide (j < length l)%nat).
  - rewrite nth_insert by (by rewrite length_insert).
    case_decide; subst; [by rewrite !decide_True|]. rewrite decide_False by done.
    rewrite nth_insert by done. by repeat case_decide; subst.
  - rewrite list_insert_ge by (rewrite length_insert; lia).
    rewrite nth_insert by done. repeat case_decide; subst; try done; try lia.
    by rewrite nth_overflow by lia.
Qed.

Section Simulation.
Context `{Dist : TDist} `{Sq : SqrtLib} `{L : TLink} `{!LinkLaws L} `{SL : !SetLinkage L}.
Context (D0 : fltvv) (n : nat).
Hypothesis HD0 : forall a b, (a < n)%nat -> (b < n)%nat -> mat_at D0 a b == mat_at D0 b a.

(** The driver's state [st] represents the clusters [Ms]: one slot per
    point, a slot's count is its number of members, the members are points,
    and the matrix holds the linkage of every two active slots. *)
Record hac_sim (st : dendro_state) (Ms : clusters) : Prop := {
  sim_len : length Ms = n;
  sim_count : forall a, (a < n)%nat -> length (nth a Ms []) = nth a (ds_counts st) 0%nat;
  sim_points : forall a x, In x (nth a Ms []) -> (x < n)%nat;
  sim_link : forall a b, (a < n)%nat -> (b < n)%nat -> a <> b ->
    active (ds_counts st) a -> active (ds_counts st) b ->
    mat_at (ds_dist st) a b == Lset (mat_at D0) (nth a Ms []) (nth b Ms [])
}.

Lemma link_mat_at Ms a b :
  (a < n)%nat -> (b < n)%nat ->
  mat_at (link_mat D0 Ms n) a b = Lset (mat_at D0) (nth a Ms []) (nth b Ms []).
Proof.
  intros Ha Hb. unfold mat_at, GetCol, at0, link_mat; simpl.
  rewrite (nth_map_lt _ _ _ _ 0%nat) by (by rewrite length_seq). rewrite nth_seq_lt by done.
  rewrite (nth_map_lt _ _ _ _ 0%nat) by (by rewrite length_seq). by rewrite nth_seq_lt.
Qed.

Lemma sim_active st Ms a :
  hac_sim st Ms -> (a < n)%nat -> active (ds_counts st) a <-> active (map length Ms) a.
Proof.
  intros Hs Ha. unfold active.
  assert (E : nth a (map length Ms) 0%nat = length (nth a Ms [])) by apply (map_nth length Ms [] a).
  by rewrite E, (sim_count _ _ Hs a Ha).
Qed.

Lemma sim_nonempty st Ms a : hac_sim st Ms -> (a < n)%nat -> active (ds_counts st) a -> nth a Ms [] <> [].
Proof.
  intros Hs Ha. unfold active. rewrite <- (sim_count _ _ Hs a Ha).
  destruct (nth a Ms []); simpl; [lia|done].
Qed.

(** The scan on the recomputed linkages chooses the driver's pair. *)
Lemma hac_step_choice st Ms i j :
  hac_sim st Ms -> first_min (ds_dist st) n (ds_counts st) i j ->
  hac_step D0 n Ms = Some (hac_merge Ms i j, (i, j, Qsqrt (clamp0 (mat_at (link_mat D0 Ms n) i j)))).
Proof.
  intros Hs Hmin.
  assert (Hmin' : first_min (link_mat D0 Ms n) n (map length Ms) i j).
  { apply (first_min_ext (ds_dist st) _ n (ds_counts st)); [|intros a b (? & ? & ? & ?)|done].
    - intros a Ha. by apply sim_active.
    - rewrite link_mat_at by lia. apply (sim_link _ _ Hs); (done || lia). }
  unfold hac_step.
  pose proof (best_inv_full _ _ _ _ (find_min_inv (link_mat D0 Ms n) n (map length Ms))) as Hf.
  destruct (find_min _ _ _) as [[[i' j'] d]|].
  - destruct Hf as [-> Hmin'']. destruct (first_min_unique' _ _ _ _ _ _ _ Hmin' Hmin'') as [<- <-]. done.
  - exfalso. apply (Hf i j), Hmin'.
Qed.

(** The merged cluster's new linkage to an active [c], by the rule. *)
Lemma join_entry_sim st Ms i j c :
  hac_sim st Ms -> (i < n)%nat -> (j < n)%nat -> i <> j ->
  active (ds_counts st) i -> active (ds_counts st) j ->
  (c < n)%nat -> c <> i -> c <> j -> active (ds_counts st) c ->
  join_entry link_rule (ds_dist st) (ds_counts st) i j c ==
  Lset (mat_at D0) (nth i Ms [] ++ nth j Ms []) (nth c Ms []).
Proof.
  intros Hs Hi Hj Hij HAi HAj Hc Hci Hcj HAc. unfold join_entry.
  rewrite decide_False by (unfold active in HAc; lia).
  rewrite (sim_link _ _ Hs i c), (sim_link _ _ Hs j c) by (done || lia).
  rewrite <- (sim_count _ _ Hs i Hi), <- (sim_count _ _ Hs j Hj).
  apply Lset_join; by apply (sim_nonempty st).
Qed.

(** A merge of the driver is a merge of the reference. *)
Lemma hac_merge_sim k st Ms i j :
  dendro_inv n k st -> hac_sim st Ms -> first_min (ds_dist st) n (ds_counts st) i j ->
  hac_sim (merged st i j) (hac_merge Ms i j).
Proof.
  intros Hinv Hs Hmin. destruct (first_min_pair _ _ _ _ _ Hmin) as (Hij & Hjn & Hci & Hcj).
  pose proof (inv_len _ _ _ Hinv) as Hlen. pose proof (sim_len _ _ Hs) as HlenM.
  assert (HAi : active (ds_counts st) i) by (unfold active; lia).
  assert (HAj : active (ds_counts st) j) by (unfold active; lia).
  assert (HMs : forall a, nth a (hac_merge Ms i j) [] =
    if decide (a = j) then [] else if decide (a = i) then nth i Ms [] ++ nth j Ms [] else nth a Ms []).
  { intros a. unfold hac_merge. rewrite nth_merge by lia. by repeat case_decide. }
  assert (Hcnt : forall a, nth a (ds_counts (merged st i j)) 0%nat =
    if decide (a = j) then 0%nat else if decide (a = i) then (nth i (ds_counts st) 0 + nth j (ds_counts st) 0)%nat
    else nth a (ds_counts st) 0%nat) by (intros; apply merged_count; lia).
  split.
  - unfold hac_merge. by rewrite !length_insert.
  - intros a Ha. rewrite HMs, Hcnt. repeat case_decide; subst; [done| |by apply (sim_count _ _ Hs)].
    rewrite length_app, !(sim_count _ _ Hs) by lia. done.
  - intros a x. rewrite HMs. repeat case_decide; [done| |apply (sim_points _ _ Hs)].
    intros [Hx|Hx]%in_app_or; by eapply (sim_points _ _ Hs).
  - intros a b Ha Hb Hab HAa HAb. unfold active in HAa, HAb. rewrite Hcnt in HAa, HAb.
    unfold merged; simpl. rewrite link_JoinClusts.
    rewrite (mat_at_JoinWith _ n) by (apply Hinv || lia). rewrite !HMs.
    repeat case_decide; subst; try lia.
    + (* [b = i]: the merged column, read through symmetry *)
      rewrite join_entry_sim by (unfold active; (done || lia)).
      apply Lset_sym.
      3: apply (sim_nonempty st); unfold active; (done || lia).
      2: intros [E _]%app_eq_nil; by apply (sim_nonempty st Ms i).
      intros x y Hx Hy. apply HD0; apply in_app_or in Hx as [Hx|Hx];
        by eapply (sim_points _ _ Hs).
    + rewrite join_entry_sim by (unfold active; (done || lia)). reflexivity.
    + apply (sim_link _ _ Hs); unfold active; (done || lia).
Qed.

Lemma agg_steps_hac m k st st' Ms :
  agg_steps n m st st' -> dendro_inv n k st -> hac_sim st Ms ->
  exists R, ds_merges st' = ds_merges st ++ R /\ Forall2 rec_equiv R (hac_run D0 n m Ms).
Proof.
  intros Hsteps. revert k Ms.
  induction Hsteps as [st|m st st1 st2 Hstep Hs IH]; intros k Ms Hinv Hsim.
  - exists []. by rewrite app_nil_r.
  - destruct Hstep as [st i j Hmin]. simpl. rewrite (hac_step_choice st Ms i j Hsim Hmin).
    destruct (first_min_pair _ _ _ _ _ Hmin) as (Hij & Hjn & Hci & Hcj).
    destruct (IH (S k) (hac_merge Ms i j)) as (R & HR & HF);
      [by eapply agg_step_preserves; [|constructor]|by eapply hac_merge_sim|].
    exists ((i, j, Qsqrt (clamp0 (mat_at (ds_dist st) i j))) :: R). split.
    + rewrite HR. simpl. by rewrite <- app_assoc.
    + constructor; [|done]. split; [done|]. simpl.
      rewrite link_mat_at by lia. rewrite (sim_link _ _ Hsim i j) by (unfold active; (done || lia)).
      reflexivity.
Qed.

End Simulation.

Lemma hac_sim_init `{Dist : TDist} `{Sq : SqrtLib} `{L : TLink} `{SL : !SetLinkage L} X M :
  let n := GetCols X in
  hac_sim (GetDist2VV X X (FltVV 0 [])) n (dendro_init X M) (map (fun a => [a]) (seq 0 n)).
Proof.
  intros n. assert (Hnth : forall a, (a < n)%nat -> nth a (map (fun a => [a]) (seq 0 n)) [] = [a]).
  { intros a Ha. rewrite (nth_map_lt _ _ _ _ 0%nat) by (by rewrite length_seq). by rewrite nth_seq_lt. }
  split; simpl.
  - by rewrite length_map, length_seq.
  - intros a Ha. rewrite Hnth by done. by rewrite nth_replicate_lt.
  - intros a x. destruct (decide (a < n)%nat) as [Ha|Ha].
    + rewrite Hnth by done. intros [<-|[]]. done.
    + rewrite nth_overflow by (rewrite length_map, length_seq; lia). intros [].
  - intros a b Ha Hb _ _ _. rewrite !Hnth by done. symmetry. apply Lset_single.
Qed.

(** ** Refinement *)

(** C5: for each of the linkage strategies [TSingleLink], [TCompleteLink]
    and [TAvgLink] (any lawful [TLink] whose rule has a set-level meaning)
    and any lawful distance, [MakeDendro] on a well-formed feature matrix
    emits the records of the set-level reference [hac]: at every step the
    same pair of clusters, at the same distance, where the reference
    recomputes the linkage of every two clusters from their members
    (minimum, maximum or mean over member pairs of the squared distances)
    and never updates a matrix. *)
Theorem MakeDendro_refines_hac `{Dist : TDist} `{Sq : SqrtLib} `{L : TLink}
    `{!DistLaws Dist} `{!LinkLaws L} `{SL : !SetLinkage L} X M recs :
  vv_wf X -> MakeDendro X M = Ok (M ++ recs) -> Forall2 rec_equiv recs (hac X).
Proof.
  intros Hwf Hrun. destruct (MakeDendro_run X M Hwf) as (st' & Hst & Hs & _).
  destruct (agg_steps_hac (GetDist2VV X X (FltVV 0 [])) (GetCols X)
              (fun a b Ha Hb => dist2_sym X _ a b Hwf Ha Hb) _ 0 _ _ _ Hs
              (dendro_inv_init X M Hwf) (hac_sim_init X M)) as (R & HR & HF).
  rewrite Hst, HR in Hrun. injection Hrun as Hrun. apply app_inv_head in Hrun. by subst R.
Qed.

(** ** The scenarios of the specification *)

(** [TSlAggClust], the single-link driver by its name, merges like
    complete link because its typedef names [TCompleteLink]: on the points
    [{0, 1, 9, 10}] its last merge is at distance 10, where single link
    merges at 8 as the specification requires. *)
Example TSlAggClust_scenario :
  reduced (TSlAggClust_MakeDendro X4 []) = Ok [mrec 0 1 1; mrec 2 3 1; mrec 0 2 10] /\
  reduced (@MakeDendro EuclDist TSingleLink _ X4 []) = Ok [mrec 0 1 1; mrec 2 3 1; mrec 0 2 8].
Proof. split; vm_compute; reflexivity. Qed.

(** [TAlAggClust] averages squared distances: on [{0, 1, 9, 10}] the
    last merge is at [sqrt((81 + 100 + 64 + 81) / 4) ~ 9.027], not at the
    mean distance 9 of the two pairs of points. *)
Example TAlAggClust_scenario :
  reduced (TAlAggClust_MakeDendro X4 []) = Ok [mrec 0 1 1; mrec 2 3 1; mrec 0 2 (9027 # 1000)].
Proof. vm_compute. reflexivity. Qed.

(** ** Witnesses at concrete inputs *)

Lemma X4_wf : vv_wf X4.
Proof. repeat constructor. Qed.

Definition X4_single_recs : list merge :=
  match @MakeDendro EuclDist TSingleLink _ X4 [] with Ok l => l | Err _ => [] end.

Lemma MakeDendro_total_witness :
  vv_wf X4 /\
  exists recs, @MakeDendro EuclDist TSingleLink _ X4 [] = Ok ([] ++ recs) /\
    length recs = (GetCols X4 - 1)%nat.
Proof. split; [apply X4_wf|]. apply MakeDendro_total. apply X4_wf. Defined.

Lemma MakeDendro_records_witness :
  vv_wf X4 /\ @MakeDendro EuclDist TSingleLink _ X4 [] = Ok ([] ++ X4_single_recs) /\
  Forall (fun r => (rec_i r < rec_j r)%nat /\ (rec_j r < GetCols X4)%nat) X4_single_recs /\
  NoDup (map rec_j X4_single_recs) /\
  (forall a, (a < GetCols X4)%nat -> (2 <= GetCols X4)%nat ->
     Exists (fun r => rec_i r = a \/ rec_j r = a) X4_single_recs).
Proof.
  assert (Hrun : @MakeDendro EuclDist TSingleLink _ X4 [] = Ok ([] ++ X4_single_recs))
    by (vm_compute; reflexivity).
  split; [apply X4_wf|]. split; [exact Hrun|]. apply (MakeDendro_records X4 []); [apply X4_wf|exact Hrun].
Defined.

Lemma MakeDendro_dist_monotone_witness :
  vv_wf X4 /\ @MakeDendro EuclDist TSingleLink _ X4 [] = Ok ([] ++ X4_single_recs) /\
  dist_sorted X4_single_recs.
Proof.
  assert (Hrun : @MakeDendro EuclDist TSingleLink _ X4 [] = Ok ([] ++ X4_single_recs))
    by (vm_compute; reflexivity).
  split; [apply X4_wf|]. split; [exact Hrun|].
  apply (MakeDendro_dist_monotone X4 []); [apply X4_wf|exact Hrun].
Defined.

Definition st4_after2 : dendro_state :=
  match @merge_loop TSingleLink _ 4 2 (@dendro_init EuclDist X4 []) with Ok s => s | Err _ => @dendro_init EuclDist X4 [] end.

Lemma merge_loop_inv_witness :
  vv_wf X4 /\ @merge_loop TSingleLink _ (GetCols X4) 2 (@dendro_init EuclDist X4 []) = Ok st4_after2 /\
  dendro_inv (GetCols X4) 2 st4_after2.
Proof.
  assert (Hl : @merge_loop TSingleLink _ (GetCols X4) 2 (@dendro_init EuclDist X4 []) = Ok st4_after2)
    by (vm_compute; reflexivity).
  split; [apply X4_wf|]. split; [exact Hl|]. apply (merge_loop_inv X4 [] 2); [apply X4_wf|exact Hl].
Defined.

Lemma MakeDendro_refines_hac_witness :
  vv_wf X4 /\ @MakeDendro (@EuclDist Qsqrt3_lib) TSingleLink Qsqrt3_lib X4 [] = Ok ([] ++ X4_single_recs) /\
  Forall2 rec_equiv X4_single_recs (hac (Sq := Qsqrt3_lib) (L := TSingleLink) (Dist := @EuclDist Qsqrt3_lib) X4).
Proof.
  assert (Hrun : @MakeDendro (@EuclDist Qsqrt3_lib) TSingleLink Qsqrt3_lib X4 [] = Ok ([] ++ X4_single_recs))
    by (vm_compute; reflexivity).
  split; [apply X4_wf|]. split; [exact Hrun|].
  exact (MakeDendro_refines_hac X4 [] X4_single_recs X4_wf Hrun).
Defined.

Lemma MakeDendro_no_reuse_witness :
  vv_wf X4 /\ @MakeDendro EuclDist TSingleLink _ X4 [] = Ok ([] ++ X4_single_recs) /\
  X4_single_recs = [] ++ hd (mrec 0 0 0) X4_single_recs :: skipn 1 X4_single_recs /\
  Forall (fun r' => rec_i r' <> rec_j (hd (mrec 0 0 0) X4_single_recs) /\ rec_j r' <> rec_j (hd (mrec 0 0 0) X4_single_recs)) (skipn 1 X4_single_recs).
Proof.
  assert (Hrun : @MakeDendro EuclDist TSingleLink _ X4 [] = Ok ([] ++ X4_single_recs))
    by (vm_compute; reflexivity).
  assert (Hsplit : X4_single_recs = [] ++ hd (mrec 0 0 0) X4_single_recs :: skipn 1 X4_single_recs) by (vm_compute; reflexivity).
  split; [apply X4_wf|]. split; [exact Hrun|]. split; [exact Hsplit|].
  exact (MakeDendro_no_reuse X4 [] _ [] _ _ X4_wf Hrun Hsplit).
Defined.

Lemma MakeDendro_one_cluster_witness :
  vv_wf X4 /\ (0 < GetCols X4)%nat /\
  exists st', @merge_loop TSingleLink _ (GetCols X4) (GetCols X4 - 1) (@dendro_init EuclDist X4 []) = Ok st' /\
    @MakeDendro EuclDist TSingleLink _ X4 [] = Ok (ds_merges st') /\
    ds_counts st' = GetCols X4 :: replicate (GetCols X4 - 1) 0%nat.
Proof.
  split; [apply X4_wf|]. split; [cbv; lia|]. apply MakeDendro_one_cluster; [apply X4_wf|cbv; lia].
Defined.
