(* ===== verification/KMeans.v ===== *)
(** * The partitional engine ([TAbsKMeans], clustering.h lines 162-244) and
    Lloyd's k-means ([TDnsKMeans], lines 246-263)

    [TAbsKMeans] owns the centroid matrix [CentroidVV] (one centroid per
    column), a distance strategy and a random source.  Its public [Apply]
    checks the dimension of the input and calls the algorithm of the
    subclass; its protected helpers assign instances to their nearest
    centroid ([Assign]), recompute centroids as means ([UpdateCentroids])
    and choose initial centroids ([SelectInitCentroids]).  The header gives
    the bodies of [Apply] (the public one), [GetClusts], [GetDim] and the
    [GetFtr*] helpers; the other bodies are in clustering.cpp and follow the
    specification (section 4.3), with the empty-cluster policy "leave the
    centroid unchanged".  The random source is the interface [TRndLib]; the
    subclass algorithm is the interface [KMeansAlgo].  The lemmas on glib's
    generator show that Schrage's method computes [16807 Seed mod (2^31-1)]
    within [int] range and that the shuffle advances the seed once per
    swap. *)

From S2P Require Import Prelude LinAlg Distance.

Local Open Scope Q_scope.

(** ** The random source ([TRnd]) *)

Class TRndLib := {
  rnd_state : Type;
  (** [TRnd::GetUniDevInt(Range)]: a number in [0, Range), and the next state. *)
  GetUniDevInt : rnd_state -> nat -> nat * rnd_state;
  GetUniDevInt_lt : forall s n, (0 < n)%nat -> (fst (GetUniDevInt s n) < n)%nat
}.

(** glib's [TRnd]: the Park-Miller generator [Seed := 16807 Seed mod (2^31-1)]
    computed by Schrage's method, [GetUniDevInt(Range) = Seed % Range]. *)
Definition PM_next (Seed : Z) : Z :=
  let s := (16807 * (Seed mod 127773) - 2836 * (Seed / 127773))%Z in
  if (0 <? s)%Z then s else (s + 2147483647)%Z.

Definition PM_GetUniDevInt (Seed : Z) (Range : nat) : nat * Z :=
  let s := PM_next Seed in
  if Nat.eqb Range 0 then (Z.to_nat s, s) else (Z.to_nat (s mod Z.of_nat Range), s).

#[export] Program Instance ParkMiller : TRndLib := {|
  rnd_state := Z;
  GetUniDevInt := PM_GetUniDevInt
|}.
Next Obligation.
  intros s n Hn. unfold PM_GetUniDevInt. destruct (Nat.eqb_spec n 0); [lia|]. simpl.
  pose proof (Z.mod_pos_bound (PM_next s) (Z.of_nat n) ltac:(lia)). lia.
Qed.

Section Engine.
Context `{Dist : TDist} `{Rnd : TRndLib}.

(** ** State and accessors *)

(** The fields of [TAbsKMeans]; the [TDist*] is the class [Dist]. *)
Record kmeans_state := KMState { CentroidVV : fltvv; RndState : rnd_state }.

(** [GetClusts], [GetDim] (lines 186-187). *)
Definition GetClusts (st : kmeans_state) : nat := GetCols (CentroidVV st).
Definition GetDim (st : kmeans_state) : nat := GetRows (CentroidVV st).

(** [GetFtrVN], [GetFtrVDim], [GetFtrVV], [GetCol] (lines 228-240). *)
Definition GetFtrVN (FtrVV : fltvv) : nat := GetCols FtrVV.
Definition GetFtrVDim (FtrVV : fltvv) : nat := GetRows FtrVV.
Definition GetFtrVV (FtrVV : fltvv) : fltvv := FtrVV.
Definition GetFtrCol (FtrVV : fltvv) (ColN : nat) : vec := GetCol FtrVV ColN.

(** [GetCentroidVV] (line 190). *)
Definition GetCentroidVV (st : kmeans_state) : fltvv := CentroidVV st.

(** The constructor [TAbsKMeans(Rnd, Dist)] (line 178): no centroids yet
    and the given random source; the distance is the class [Dist]. *)
Definition TAbsKMeans_new (Rnd0 : rnd_state) : kmeans_state := KMState (FltVV 0 []) Rnd0.

(** [GetCentroid(ClustN, FtrV)] (line 192). *)
Definition GetCentroid (st : kmeans_state) (ClustN : nat) : vec := GetCol (CentroidVV st) ClustN.

(** [GetCentroidDistV(FtrV, DistV)] (line 208): [Dist->GetDistV]. *)
Definition GetCentroidDistV (st : kmeans_state) (FtrV : vec) : res vec :=
  GetDistV (CentroidVV st) FtrV [].

(** [GetDist(ClustN, FtrV)] (line 206): the entry [ClustN] of the above. *)
Definition GetDist (st : kmeans_state) (ClustN : nat) (FtrV : vec) : res Q :=
  DistV <- GetCentroidDistV st FtrV ;; Ok (at0 DistV ClustN).

(** [GetDistVV(FtrVV, DistVV)] (line 213): [D(i,j)] for centroid [i] and
    instance [j]. *)
Definition GetDistVV_km (st : kmeans_state) (FtrVV : fltvv) : fltvv :=
  GetDistVV (CentroidVV st) FtrVV (FltVV 0 []).

(** ** Assignment *)

(** [TLinAlg::GetColMinIdx]: the first index of the least entry. *)
Definition MinIdx (v : vec) : nat :=
  (for_range 1 (length v - 1)
     (fun (acc : nat * Q) k => if Qltb (at0 v k) acc.2 then (k, at0 v k) else acc)
     (0%nat, at0 v 0)).1.

(** [TLinAlg::GetColMinIdxV]: one index per column. *)
Definition GetColMinIdxV (D : fltvv) : list nat := map MinIdx (vv_cols D).

(** The protected [Assign(FtrVV, NormX2, NormC2, AssignV)] (line 225): the
    squared distances of the centroids to the instances with the cached
    norms, then the nearest centroid of every instance. *)
Definition Assign_cached (C FtrVV : fltvv) (NormX2 NormC2 : vec) : list nat :=
  GetColMinIdxV (GetDist2VV_cached C FtrVV NormC2 NormX2 (FltVV 0 [])).

(** The public [Assign(FtrVV, AssignV)] (line 202): refresh both norm
    vectors, then assign. *)
Definition Assign (C FtrVV : fltvv) : list nat :=
  Assign_cached C FtrVV (UpdateNormX2 FtrVV []) (UpdateNormC2 C []).

(** ** Centroid update *)

(** The instances assigned to cluster [k]. *)
Definition members (AssignV : list nat) (k : nat) : list nat :=
  filter (fun j => nth j AssignV 0%nat = k) (seq 0 (length AssignV)).

(** [UpdateCentroids] (line 220): every centroid with assigned instances
    becomes their mean; a centroid without instances is left unchanged. *)
Definition UpdateCentroids (FtrVV : fltvv) (AssignV : list nat) (C : fltvv) : fltvv :=
  FltVV (vv_rows C)
    (imap (fun k c =>
             match members AssignV k with
             | [] => c
             | ms => vmean (vv_rows C) (map (GetFtrCol FtrVV) ms)
             end) (vv_cols C)).

(** ** Initial centroids *)

(** [TVec::Swap(i, j)]. *)
Definition swap (v : list nat) (i j : nat) : list nat :=
  <[i := nth j v 0%nat]> (<[j := nth i v 0%nat]> v).

(** [TVec::Shuffle(Rnd)]: [for (ValN = Len-1; ValN > 0; ValN--)
    Swap(ValN, Rnd.GetUniDevInt(ValN+1))]. *)
Fixpoint shuffle_down (ValN : nat) (v : list nat) (s : rnd_state) : list nat * rnd_state :=
  match ValN with
  | O => (v, s)
  | S k =>
      let '(ValN2, s') := GetUniDevInt s (S ValN) in
      shuffle_down k (swap v ValN ValN2) s'
  end.

Definition Shuffle (v : list nat) (s : rnd_state) : list nat * rnd_state :=
  shuffle_down (length v - 1) v s.

(** [SelectInitCentroids(FtrVV, K)] (line 223): at least [K] instances are
    required; a random permutation of the instances, whose first [K] are
    the initial centroids. *)
Definition SelectInitCentroids (FtrVV : fltvv) (K : nat) (s : rnd_state) : res (fltvv * rnd_state) :=
  let NInst := GetFtrVN FtrVV in
  if decide (K <= NInst)%nat then
    let '(PermV, s') := Shuffle (seq 0 NInst) s in
    Ok (FltVV (GetFtrVDim FtrVV) (map (GetFtrCol FtrVV) (take K PermV)), s')
  else Err EInvalidArg.

(** ** The algorithms *)

(** The pure virtual [Apply(FtrVV, NInst, Dim, MaxIter, Notify)] of the
    subclasses (lines 216-217). *)
Class KMeansAlgo := {
  ApplyAlgo : fltvv -> nat -> nat -> nat -> kmeans_state -> res kmeans_state
}.

(** The public [Apply(FtrVV, MaxIter, Notify)] (lines 194-199): the input
    must have features, otherwise [EAssertR] fails before anything else. *)
Definition Apply `{KMeansAlgo} (FtrVV : fltvv) (MaxIter : nat) (st : kmeans_state) : res kmeans_state :=
  let Dim := GetFtrVDim FtrVV in
  if decide (0 < Dim)%nat then ApplyAlgo (GetFtrVV FtrVV) (GetFtrVN FtrVV) Dim MaxIter st
  else Err EInvalidArg.

(** Lloyd's loop of [TDnsKMeans::Apply] (specification, section 4.4): at
    most [MaxIter] passes; each assigns every instance to its nearest
    centroid, stops when the assignment equals the previous one, and
    otherwise recomputes the centroids. *)
Fixpoint lloyd (FtrVV : fltvv) (fuel : nat) (first : bool) (C : fltvv) (OldAssignV : list nat) :
    fltvv * list nat :=
  match fuel with
  | O => (C, OldAssignV)
  | S f =>
      let AssignV := Assign C FtrVV in
      if negb first && bool_decide (AssignV = OldAssignV) then (C, AssignV)
      else lloyd FtrVV f false (UpdateCentroids FtrVV AssignV C) AssignV
  end.

(** [TDnsKMeans::Apply] (lines 259-260): [K] random initial centroids, then
    Lloyd's loop. *)
Definition DnsKMeans_Apply (K : nat) (FtrVV : fltvv) (NInst Dim MaxIter : nat) (st : kmeans_state) :
    res kmeans_state :=
  init <- SelectInitCentroids FtrVV K (RndState st) ;;
  let '(C0, s') := init in
  Ok (KMState (lloyd FtrVV MaxIter true C0 []).1 s').

(** [TDnsKMeans] with its constant [K] (lines 248-263). *)
#[export] Instance TDnsKMeans (K : nat) : KMeansAlgo := {| ApplyAlgo := DnsKMeans_Apply K |}.

End Engine.

(** ** The k-means objective *)

(** The sum of squared distances of the instances to the centroid their
    assignment names (the quantity of section 8 of the specification). *)
Definition cost (X C : fltvv) (A : list nat) : Q :=
  Qsum (map (fun j => sqdist (GetCol X j) (GetCol C (nth j A 0%nat))) (seq 0 (length A))).

(** The data [X], centroids [C] agree in dimension and there is at least
    one centroid. *)
Definition km_wf (X C : fltvv) : Prop :=
  vv_wf X /\ vv_wf C /\ vv_rows C = vv_rows X /\ (0 < GetCols C)%nat.

(** The centroid [c] lies in the bounding box of the instances of [X]:
    every coordinate bound that all instances respect, [c] respects. *)
Definition box_bounded (X : fltvv) (c : vec) : Prop :=
  forall r lo hi, (r < vv_rows X)%nat ->
  (forall j, (j < GetCols X)%nat -> lo <= mat_at X r j <= hi) -> lo <= at0 c r <= hi.

(** Every centroid of [C] lies in the bounding box of [X]. *)
Definition all_box (X C : fltvv) : Prop :=
  forall k, (k < GetCols C)%nat -> box_bounded X (GetCol C k).

(** An assignment of the instances of [X] to the centroids of [C]. *)
Definition assign_ok (X C : fltvv) (A : list nat) : Prop :=
  length A = GetCols X /\ forall j, (j < length A)%nat -> (nth j A 0%nat < GetCols C)%nat.

(** One pass of Lloyd's loop without the convergence test: assign, then
    update; and [t] passes.  [lloyd] is proved to compute the same
    centroids as [lloyd_iter] with as many passes as its fuel. *)
Definition lloyd_step `{TDist} (X C : fltvv) : fltvv := UpdateCentroids X (Assign C X) C.
Definition lloyd_iter `{TDist} (X : fltvv) (t : nat) (C : fltvv) : fltvv := Nat.iter t (lloyd_step X) C.

(** The reference of the assignment: the first position of the least
    entry of a list, by plain recursion. *)
Fixpoint argmin (l : list Q) : nat :=
  match l with
  | [] | [_] => 0%nat
  | x :: l' => let k := argmin l' in if Qle_bool x (at0 l' k) then 0%nat else S k
  end.

(** The reference assignment: every instance goes to the first centroid at
    the least squared distance, computed by subtracting coordinates. *)
Definition nearest (X C : fltvv) (j : nat) : nat :=
  argmin (map (fun k => sqdist (GetCol X j) (GetCol C k)) (seq 0 (GetCols C))).

(** The four points of the k-means scenario of the specification (section
    8), one per column, and the Euclidean k-means with [K = 2] on them. *)
Definition X2 : fltvv := FltVV 2 [[0;0];[0;1];[10;0];[10;1]].
Definition C2 : fltvv := FltVV 2 [[0;0];[10;0]].
Definition kmeans2 (seed : Z) : res kmeans_state :=
  Apply (Rnd := ParkMiller) (H := TDnsKMeans (Dist := @EuclDist Qsqrt3_lib) 2) X2 10 (TAbsKMeans_new seed).

(** A model state is determined by its centroids and its random state. *)
Lemma kmstate_of_obs `{TRndLib} (r : res kmeans_state) C s :
  match r with Ok st => Some (CentroidVV st, RndState st) | Err _ => None end = Some (C, s) ->
  r = Ok (KMState C s).
Proof. destruct r as [[C' s']|e]; simpl; congruence. Qed.

(** ** Lemmas: the minimum search *)

(** [MinIdx] returns a position of the vector. *)
Lemma MinIdx_lt (v : vec) : (0 < length v)%nat -> (MinIdx v < length v)%nat.
Proof.
  intros Hv. unfold MinIdx.
  match goal with |- context [for_range 1 ?n ?body ?init] =>
    pose proof (for_range_ind (fun i (acc : nat * Q) => (acc.1 < i)%nat) 1 n body init) as Hr end.
  replace (1 + (length v - 1))%nat with (length v) in Hr by lia.
  apply Hr; [simpl; lia|]. intros i acc Hi Hacc. case_match; simpl; lia.
Qed.

(** [MinIdx] returns the first position of the least entry. *)
Lemma MinIdx_spec (v : vec) :
  (0 < length v)%nat ->
  (MinIdx v < length v)%nat /\
  (forall k, (k < length v)%nat -> at0 v (MinIdx v) <= at0 v k) /\
  (forall k, (k < MinIdx v)%nat -> at0 v (MinIdx v) < at0 v k).
Proof.
  intros Hv. unfold MinIdx.
  match goal with |- context [for_range 1 ?n ?body ?init] =>
    pose proof (for_range_ind (fun i (acc : nat * Q) =>
      acc.2 = at0 v acc.1 /\ (acc.1 < i)%nat /\
      (forall k, (k < i)%nat -> at0 v acc.1 <= at0 v k) /\
      (forall k, (k < acc.1)%nat -> at0 v acc.1 < at0 v k)) 1 n body init) as Hr;
    destruct (for_range 1 n body init) as [m vm] end.
  replace (1 + (length v - 1))%nat with (length v) in Hr by lia.
  simpl. destruct Hr as (_ & Hm & Hle & Hlt); [| |done].
  - simpl. split_and!; [done|lia| |lia]. intros k Hk. replace k with 0%nat by lia. apply Qle_refl.
  - intros i [m' vm'] Hi (Hvm & Hm & Hle & Hlt); simpl in *. subst vm'.
    case_Qltb (at0 v i) (at0 v m'); simpl; split_and!; try done; try lia.
    + intros k Hk. destruct (decide (k = i)); [subst; apply Qle_refl|].
      specialize (Hle k ltac:(lia)). lra.
    + intros k Hk. specialize (Hle k ltac:(lia)). lra.
    + intros k Hk. destruct (decide (k = i)); [subst; done|]. apply Hle. lia.
Qed.

Lemma argmin_cons x y l :
  argmin (x :: y :: l) = if Qle_bool x (at0 (y :: l) (argmin (y :: l))) then 0%nat else S (argmin (y :: l)).
Proof. reflexivity. Qed.

(** [argmin] returns the first position of the least entry. *)
Lemma argmin_spec (l : list Q) :
  (0 < length l)%nat ->
  (argmin l < length l)%nat /\
  (forall k, (k < length l)%nat -> at0 l (argmin l) <= at0 l k) /\
  (forall k, (k < argmin l)%nat -> at0 l (argmin l) < at0 l k).
Proof.
  induction l as [|x l IH]; intros Hl; [simpl in Hl; lia|].
  destruct l as [|y l'].
  { simpl. split_and!; [lia|intros [|k] Hk; [apply Qle_refl|simpl in *; lia]|intros k Hk; lia]. }
  destruct (IH ltac:(simpl; lia)) as (Hlt & Hle & Hfirst). clear IH. rewrite argmin_cons.
  cbn [length] in *.
  set (k0 := argmin (y :: l')) in *. destruct (Qle_bool x (at0 (y :: l') k0)) eqn:Hb.
  - apply Qle_bool_iff in Hb. split_and!; [lia| |lia].
    intros [|k] Hk; [apply Qle_refl|]. eapply Qle_trans; [done|]. apply Hle. simpl in *; lia.
  - assert (Hx : at0 (y :: l') k0 < x) by (apply Qnot_le_lt; intros H; apply Qle_bool_iff in H; congruence).
    change (at0 (x :: y :: l') (S k0)) with (at0 (y :: l') k0). split_and!; [lia| |].
    + intros [|k] Hk; [apply Qlt_le_weak, Hx|]. apply Hle. lia.
    + intros [|k] Hk; [done|]. apply Hfirst. lia.
Qed.

(** Two first positions of the least entry of the same values coincide. *)
Lemma first_min_unique (f : nat -> Q) (n a b : nat) :
  (a < n)%nat -> (b < n)%nat ->
  (forall k, (k < n)%nat -> f a <= f k) -> (forall k, (k < a)%nat -> f a < f k) ->
  (forall k, (k < n)%nat -> f b <= f k) -> (forall k, (k < b)%nat -> f b < f k) ->
  a = b.
Proof.
  intros Ha Hb Hale Halt Hble Hblt.
  destruct (Nat.lt_total a b) as [H|[H|H]]; [|done|].
  - specialize (Hblt a H). specialize (Hale b Hb). lra.
  - specialize (Halt b H). specialize (Hble a Ha). lra.
Qed.

(** ** Lemmas: assignment under the Euclidean distance *)

Section EuclAssign.
Context `{Sq : SqrtLib}.

Definition assign_matrix (C X : fltvv) : fltvv :=
  Eucl.GetDist2VV_cached C X (GetColNorm2V C) (GetColNorm2V X) (FltVV 0 []).

Lemma assign_matrix_shape C X :
  vv_wf (assign_matrix C X) /\ GetRows (assign_matrix C X) = GetCols C /\
  GetCols (assign_matrix C X) = GetCols X.
Proof. apply (GetDist2VV_shape C X (FltVV 0 [])). Qed.

Lemma assign_matrix_entry C X i j :
  vv_wf C -> vv_wf X -> vv_rows C = vv_rows X ->
  (i < GetCols C)%nat -> (j < GetCols X)%nat ->
  at0 (GetCol (assign_matrix C X) j) i == sqdist (GetCol X j) (GetCol C i).
Proof.
  intros HC HX Hr Hi Hj. pose proof (mat_at_GetDist2VV_cached C X (GetColNorm2V C) (GetColNorm2V X) (FltVV 0 []) i j Hi Hj) as Hm.
  unfold mat_at in Hm. unfold assign_matrix. rewrite Hm.
  rewrite !at0_GetColNorm2V by done. rewrite sqdist_comm, <- expansion_sqdist.
  - reflexivity.
  - rewrite !vv_wf_col by done. done.
Qed.

Lemma Assign_eucl C X : @Assign EuclDist C X = GetColMinIdxV (assign_matrix C X).
Proof. reflexivity. Qed.

Lemma nth_Assign C X j :
  (j < GetCols X)%nat -> nth j (@Assign EuclDist C X) 0%nat = MinIdx (GetCol (assign_matrix C X) j).
Proof.
  intros Hj. rewrite Assign_eucl. unfold GetColMinIdxV, GetCol.
  apply nth_map_lt. destruct (assign_matrix_shape C X) as (_ & _ & Hc). unfold GetCols in *. lia.
Qed.

Lemma length_Assign C X : length (@Assign EuclDist C X) = GetCols X.
Proof.
  rewrite Assign_eucl. unfold GetColMinIdxV. rewrite length_map.
  apply (assign_matrix_shape C X).
Qed.

(** Every instance goes to the first of its nearest centroids. *)
Lemma Assign_nearest_at C X j :
  vv_wf C -> vv_wf X -> vv_rows C = vv_rows X -> (0 < GetCols C)%nat -> (j < GetCols X)%nat ->
  let k := nth j (@Assign EuclDist C X) 0%nat in
  (k < GetCols C)%nat /\
  (forall l, (l < GetCols C)%nat -> sqdist (GetCol X j) (GetCol C k) <= sqdist (GetCol X j) (GetCol C l)) /\
  (forall l, (l < k)%nat -> sqdist (GetCol X j) (GetCol C k) < sqdist (GetCol X j) (GetCol C l)).
Proof.
  intros HC HX Hr HK Hj k. subst k. rewrite nth_Assign by done.
  destruct (assign_matrix_shape C X) as (Hw & Hrow & Hcol).
  assert (Hlen : length (GetCol (assign_matrix C X) j) = GetCols C).
  { rewrite vv_wf_col by (done || lia). done. }
  destruct (MinIdx_spec (GetCol (assign_matrix C X) j)) as (Hlt & Hle & Hfirst); [lia|].
  rewrite Hlen in Hlt, Hle. split_and!; [done| |].
  - intros l Hl. rewrite <- !assign_matrix_entry by (done || lia). by apply Hle.
  - intros l Hl. rewrite <- !assign_matrix_entry by (done || lia). by apply Hfirst.
Qed.
End EuclAssign.

(** Summing over the instances is summing over clusters, then members. *)
Lemma Qsum_regroup (f : nat -> nat -> Q) (A : list nat) (K : nat) :
  (forall j, (j < length A)%nat -> (nth j A 0%nat < K)%nat) ->
  Qsum (map (fun j => f j (nth j A 0%nat)) (seq 0 (length A))) ==
  Qsum (map (fun k => Qsum (map (fun j => f j k) (members A k))) (seq 0 K)).
Proof.
  intros HA. unfold members.
  rewrite (Qsum_map_ext (fun k => Qsum (map (fun j => f j k) (filter _ _)))
             (fun k => Qsum (map (fun j => if decide (nth j A 0%nat = k) then f j k else 0) (seq 0 (length A)))))
    by (intros k _; apply Qsum_filter).
  rewrite <- (Qsum_swap (fun j k => if decide (nth j A 0%nat = k) then f j k else 0)).
  apply Qsum_map_ext. intros j Hj%elem_of_seq.
  rewrite <- (Qsum_indicator K (nth j A 0%nat) (f j (nth j A 0%nat))) by (apply HA; lia).
  apply Qsum_map_ext. intros k _. case_decide; subst; reflexivity.
Qed.

Lemma cost_by_cluster X C A :
  assign_ok X C A ->
  cost X C A == Qsum (map (fun k => Qsum (map (fun j => sqdist (GetCol X j) (GetCol C k)) (members A k)))
                          (seq 0 (GetCols C))).
Proof. intros [_ HA]. apply (Qsum_regroup (fun j k => sqdist (GetCol X j) (GetCol C k))), HA. Qed.

Lemma members_lt A k j : j ∈ members A k -> (j < length A)%nat.
Proof. unfold members. rewrite list_elem_of_filter, elem_of_seq. lia. Qed.

(** ** Lemmas: the centroid update *)

Lemma GetCol_UpdateCentroids X A C k :
  (k < GetCols C)%nat ->
  GetCol (UpdateCentroids X A C) k =
  match members A k with
  | [] => GetCol C k
  | ms => vmean (vv_rows C) (map (GetFtrCol X) ms)
  end.
Proof. intros Hk. unfold GetCol at 1. simpl. by rewrite (nth_imap_lt _ _ _ _ []). Qed.

Lemma UpdateCentroids_shape X A C :
  vv_rows (UpdateCentroids X A C) = vv_rows C /\ GetCols (UpdateCentroids X A C) = GetCols C.
Proof. unfold GetCols. simpl. by rewrite length_imap. Qed.

(** Every member of a cluster has the data's dimension. *)
Lemma members_cols_dim X A k :
  vv_wf X -> (length A <= GetCols X)%nat ->
  Forall (fun x => length x = vv_rows X) (map (GetFtrCol X) (members A k)).
Proof.
  intros HX HA. apply Forall_forall. intros x (j & -> & Hj)%list_elem_of_fmap.
  apply vv_wf_col; [done|]. apply (members_lt A k) in Hj. lia.
Qed.

(** The update keeps the columns of the dimension of the data, whatever
    the assignment, as long as it names instances of the data. *)
Lemma UpdateCentroids_vv_wf X A C :
  vv_wf X -> vv_wf C -> vv_rows C = vv_rows X -> (length A <= GetCols X)%nat ->
  vv_wf (UpdateCentroids X A C).
Proof.
  intros HX HC Hr HA. unfold vv_wf, UpdateCentroids in *; simpl. apply Forall_lookup. intros k c.
  rewrite list_lookup_imap. destruct (vv_cols C !! k) as [c0|] eqn:Hk; simpl; [|done]. intros [= <-].
  case_match eqn:Hm; [rewrite Forall_lookup in HC; by apply (HC k)|].
  apply length_vmean. rewrite Hr.
  match type of Hm with members _ ?k' = _ => pose proof (members_cols_dim X A k' HX HA) as Hd end.
  rewrite Hm in Hd. exact Hd.
Qed.

(** ** Lemmas: centroids stay in the bounding box of the data *)

Lemma box_col X j : (j < GetCols X)%nat -> box_bounded X (GetCol X j).
Proof. intros Hj r lo hi _ Hb. by apply Hb. Qed.

(** The mean of some instances lies in the box. *)
Lemma box_mean X ms :
  vv_wf X -> ms <> [] -> Forall (fun m => m < GetCols X)%nat ms ->
  box_bounded X (vmean (vv_rows X) (map (GetFtrCol X) ms)).
Proof.
  intros HX Hne Hms r lo hi Hr Hb. rewrite Forall_forall in Hms.
  apply vmean_bounds; [by destruct ms| |done|].
  - apply Forall_forall. intros x (m & -> & Hm)%list_elem_of_fmap. by apply vv_wf_col, Hms.
  - intros x (m & -> & Hm)%list_elem_of_fmap. by apply Hb, Hms.
Qed.

Lemma members_box X A k :
  vv_wf X -> (length A <= GetCols X)%nat -> members A k <> [] ->
  box_bounded X (vmean (vv_rows X) (map (GetFtrCol X) (members A k))).
Proof.
  intros HX HA Hne. apply box_mean; [done|done|].
  apply Forall_forall. intros m Hm%members_lt. lia.
Qed.

(** [UpdateCentroids] keeps every centroid in the box: it is either left
    unchanged or the mean of some instances. *)
Lemma UpdateCentroids_box X A C :
  vv_wf X -> vv_rows C = vv_rows X -> (length A <= GetCols X)%nat ->
  all_box X C -> all_box X (UpdateCentroids X A C).
Proof.
  intros HX Hr HA HC k Hk. destruct (UpdateCentroids_shape X A C) as [_ Hc].
  specialize (HC k ltac:(lia)). unfold GetCols, GetCol in *.
  destruct (lookup_lt_is_Some_2 (vv_cols C) k ltac:(lia)) as [c Hc0].
  rewrite (nth_lookup_Some _ _ _ _ Hc0) in HC.
  unfold UpdateCentroids. cbn [vv_cols].
  erewrite nth_lookup_Some; [|rewrite list_lookup_imap, Hc0; reflexivity]. cbv beta.
  case_match eqn:Hm; [done|]. try rewrite <- Hm; rewrite Hr; apply members_box; [done|done|congruence].
Qed.

Lemma UpdateCentroids_wf X A C :
  km_wf X C -> length A = GetCols X -> km_wf X (UpdateCentroids X A C).
Proof.
  intros (HX & HC & Hr & HK) HA. destruct (UpdateCentroids_shape X A C) as [Hr' Hc'].
  split_and!; [done|apply UpdateCentroids_vv_wf; (done || lia)|congruence|lia].
Qed.

(** Recomputing the centroids as means does not increase the objective of
    the assignment they were computed from. *)
Lemma UpdateCentroids_cost X C A :
  km_wf X C -> assign_ok X C A -> cost X (UpdateCentroids X A C) A <= cost X C A.
Proof.
  intros (HX & HC & Hr & HK) HA.
  assert (HA' : assign_ok X (UpdateCentroids X A C) A).
  { destruct HA as [Hl Hlt]. split; [done|]. intros j Hj. rewrite (proj2 (UpdateCentroids_shape X A C)). auto. }
  rewrite (cost_by_cluster X _ A HA'), (cost_by_cluster X C A HA), (proj2 (UpdateCentroids_shape X A C)).
  apply Qsum_map_le. intros k Hk%elem_of_seq. rewrite GetCol_UpdateCentroids by lia.
  destruct (members A k) as [|m ms] eqn:Hm; [apply Qle_refl|]. rewrite <- Hm.
  pose proof (members_cols_dim X A k HX (Nat.eq_le_incl _ _ (proj1 HA))) as Hdim. rewrite Hm in Hdim |- *.
  rewrite <- !(map_map (GetFtrCol X) (fun x => sqdist x _)).
  rewrite Hr. apply vmean_minimizes; [done| |done].
  rewrite vv_wf_col by (done || lia). done.
Qed.

(** ** Lemmas: the assignment step and Lloyd's loop under the Euclidean distance *)

Section EuclLloyd.
Context `{Sq : SqrtLib}.

Lemma Assign_ok X C : km_wf X C -> assign_ok X C (@Assign EuclDist C X).
Proof.
  intros (HX & HC & Hr & HK). split; [apply length_Assign|]. intros j Hj.
  rewrite length_Assign in Hj. by apply (Assign_nearest_at C X j).
Qed.

(** Assigning every instance to its nearest centroid minimises the
    objective over all assignments to the same centroids. *)
Lemma Assign_cost_min X C A :
  km_wf X C -> assign_ok X C A -> cost X C (@Assign EuclDist C X) <= cost X C A.
Proof.
  intros (HX & HC & Hr & HK) [Hl HA]. unfold cost. rewrite length_Assign, Hl.
  apply Qsum_map_le. intros j Hj%elem_of_seq.
  apply (Assign_nearest_at C X j); [done..|lia|apply HA; lia].
Qed.

Lemma lloyd_pass_wf X C :
  km_wf X C -> km_wf X (@lloyd_step EuclDist X C).
Proof. intros H. apply UpdateCentroids_wf; [done|apply length_Assign]. Qed.

(** One pass of Lloyd's loop (assign, then update) followed by the next
    assignment does not increase the objective. *)
Lemma lloyd_pass_le X C :
  km_wf X C ->
  let C' := @lloyd_step EuclDist X C in
  cost X C' (@Assign EuclDist C' X) <= cost X C (@Assign EuclDist C X).
Proof.
  intros H C'. eapply Qle_trans.
  - apply Assign_cost_min; [by apply lloyd_pass_wf|].
    destruct (Assign_ok X C H) as [Hl HA]. split; [done|]. intros j Hj.
    unfold C', lloyd_step. rewrite (proj2 (UpdateCentroids_shape _ _ _)). auto.
  - by apply UpdateCentroids_cost, Assign_ok.
Qed.
End EuclLloyd.

(** ** Lemmas: Lloyd's loop against its reference iteration *)

Section LloydIter.
Context `{Dist : TDist}.

(** Centroids computed from an assignment are a fixed point of the update
    for that assignment. *)
Lemma UpdateCentroids_idem X A C :
  UpdateCentroids X A (UpdateCentroids X A C) = UpdateCentroids X A C.
Proof.
  unfold UpdateCentroids. simpl. f_equal. apply list_eq. intros k.
  rewrite !list_lookup_imap. destruct (vv_cols C !! k); simpl; [|done].
  by destruct (members A k).
Qed.

Lemma lloyd_iter_fixed X C t : lloyd_step X C = C -> lloyd_iter X t C = C.
Proof. intros H. unfold lloyd_iter. induction t as [|t IH]; simpl; [done|]. by rewrite IH. Qed.

Lemma lloyd_iter_S X t C : lloyd_iter X (S t) C = lloyd_step X (lloyd_iter X t C).
Proof. reflexivity. Qed.

Lemma lloyd_iter_succ X t C : lloyd_iter X (S t) C = lloyd_iter X t (lloyd_step X C).
Proof. unfold lloyd_iter. by rewrite Nat.iter_succ_r. Qed.

(** After the first pass, [lloyd] continues from [lloyd_step Cp] with the
    assignment of [Cp] as the previous one. *)
Lemma lloyd_false X f Cp :
  lloyd X f false (lloyd_step X Cp) (Assign Cp X) =
  (lloyd_iter X f (lloyd_step X Cp), Assign (lloyd_iter X f Cp) X).
Proof.
  revert Cp. induction f as [|f IH]; intros Cp; [done|]. simpl lloyd.
  case_bool_decide as Hc; simpl.
  - assert (Hfix : lloyd_step X (lloyd_step X Cp) = lloyd_step X Cp).
    { unfold lloyd_step at 1. rewrite Hc. apply UpdateCentroids_idem. }
    change (lloyd_step X (lloyd_iter X f ?c)) with (lloyd_iter X (S f) c).
    rewrite !lloyd_iter_succ, Hfix, lloyd_iter_fixed by done. by rewrite Hc.
  - change (lloyd_step X (lloyd_iter X f ?c)) with (lloyd_iter X (S f) c).
    fold (lloyd_step X (lloyd_step X Cp)). rewrite IH, !lloyd_iter_succ. done.
Qed.
End LloydIter.

(** ** Lemmas: the shuffle is a permutation *)

Lemma length_swap v i j : length (swap v i j) = length v.
Proof. unfold swap. by rewrite !length_insert. Qed.

Lemma nth_swap v i j k :
  (i < length v)%nat -> (j < length v)%nat ->
  nth k (swap v i j) 0%nat =
  if decide (i = k) then nth j v 0%nat else if decide (j = k) then nth i v 0%nat else nth k v 0%nat.
Proof.
  intros Hi Hj. unfold swap. rewrite nth_insert by (rewrite length_insert; done).
  case_decide; [done|]. by rewrite nth_insert.
Qed.

(** Swapping two in-range positions keeps the same elements. *)
Lemma swap_elem v i j x :
  (i < length v)%nat -> (j < length v)%nat -> In x (swap v i j) <-> In x v.
Proof.
  intros Hi Hj. split.
  - intros (k & Hk & <-)%(In_nth _ _ 0%nat). rewrite length_swap in Hk.
    rewrite nth_swap by done. repeat case_decide; apply nth_In; lia.
  - intros (k & Hk & <-)%(In_nth _ _ 0%nat).
    destruct (decide (k = i)) as [->|Hki]; [|destruct (decide (k = j)) as [->|Hkj]].
    + replace (nth i v 0%nat) with (nth j (swap v i j) 0%nat)
        by (rewrite nth_swap by done; repeat case_decide; subst; done).
      apply nth_In. by rewrite length_swap.
    + replace (nth j v 0%nat) with (nth i (swap v i j) 0%nat) by (rewrite nth_swap by done; by case_decide).
      apply nth_In. by rewrite length_swap.
    + replace (nth k v 0%nat) with (nth k (swap v i j) 0%nat) by (rewrite nth_swap by done; by repeat case_decide).
      apply nth_In. by rewrite length_swap.
Qed.

Section ShuffleProofs.
Context `{Rnd : TRndLib}.

Lemma shuffle_down_perm ValN v s :
  (ValN = 0 \/ ValN < length v)%nat ->
  length (shuffle_down ValN v s).1 = length v /\ forall x, In x (shuffle_down ValN v s).1 <-> In x v.
Proof.
  revert v s. induction ValN as [|k IH]; intros v s Hk; simpl; [done|].
  destruct (GetUniDevInt s (S (S k))) as [r s'] eqn:Hr.
  assert (Hlt : (r < S (S k))%nat).
  { pose proof (GetUniDevInt_lt s (S (S k)) ltac:(lia)) as H. by rewrite Hr in H. }
  destruct (IH (swap v (S k) r) s') as [Hl Hin]; [rewrite length_swap; lia|].
  rewrite Hl, length_swap. split; [done|]. intros x. rewrite Hin. apply swap_elem; lia.
Qed.

(** [Shuffle] returns a permutation of a list without duplicates. *)
Lemma Shuffle_NoDup v s :
  NoDup v -> length (Shuffle v s).1 = length v /\ NoDup (Shuffle v s).1 /\
  forall x, x ∈ (Shuffle v s).1 <-> x ∈ v.
Proof.
  intros Hnd. unfold Shuffle. destruct (shuffle_down_perm (length v - 1) v s) as [Hl Hin]; [lia|].
  split_and!; [done| |intros x; rewrite !list_elem_of_In; apply Hin].
  apply NoDup_ListNoDup. apply NoDup_ListNoDup in Hnd.
  eapply NoDup_incl_NoDup; [exact Hnd|lia|intros x; apply Hin].
Qed.
End ShuffleProofs.

Lemma lloyd_fst `{TDist} X f C Old : (lloyd X f true C Old).1 = lloyd_iter X f C.
Proof.
  destruct f as [|f]; [done|]. simpl lloyd. fold (lloyd_step X C).
  by rewrite lloyd_false, lloyd_iter_succ.
Qed.

Lemma lloyd_iter_shape `{TDist} X t C :
  vv_rows (lloyd_iter X t C) = vv_rows C /\ GetCols (lloyd_iter X t C) = GetCols C.
Proof.
  induction t as [|t IH]; [done|]. rewrite lloyd_iter_S.
  unfold lloyd_step. destruct (UpdateCentroids_shape X (Assign (lloyd_iter X t C) X) (lloyd_iter X t C)).
  destruct IH. split; congruence.
Qed.

(** Whatever the distance, Lloyd's loop keeps the number of centroids and
    their dimension, as long as the assignments name instances. *)
Lemma lloyd_vv_wf `{TDist} X fuel first C Old :
  (forall C', (length (Assign C' X) <= GetCols X)%nat) -> vv_wf X -> vv_wf C -> vv_rows C = vv_rows X ->
  vv_wf (lloyd X fuel first C Old).1 /\ vv_rows (lloyd X fuel first C Old).1 = vv_rows X /\
  GetCols (lloyd X fuel first C Old).1 = GetCols C.
Proof.
  intros HA HX. revert first C Old. induction fuel as [|f IH]; intros first C Old HC Hr; simpl; [done|].
  case_match; [done|]. destruct (UpdateCentroids_shape X (Assign C X) C) as [Hr' Hc'].
  destruct (IH false (UpdateCentroids X (Assign C X) C) (Assign C X)) as (? & ? & ->);
    [by apply UpdateCentroids_vv_wf|congruence|done].
Qed.

(** Lloyd's loop keeps every centroid in the bounding box of the data. *)
Lemma lloyd_box `{TDist} X fuel first C Old :
  (forall C', (length (Assign C' X) <= GetCols X)%nat) -> vv_wf X -> vv_rows C = vv_rows X ->
  all_box X C -> all_box X (lloyd X fuel first C Old).1.
Proof.
  intros HA HX. revert first C Old. induction fuel as [|f IH]; intros first C Old Hr HC; simpl; [done|].
  case_match; [done|]. destruct (UpdateCentroids_shape X (Assign C X) C) as [Hr' _].
  apply IH; [congruence|]. by apply UpdateCentroids_box.
Qed.


Section SelectProofs.
Context `{Rnd : TRndLib}.

Lemma SelectInitCentroids_Ok X K s C0 s' :
  SelectInitCentroids X K s = Ok (C0, s') ->
  (K <= GetCols X)%nat /\ exists idx, C0 = FltVV (GetRows X) (map (GetCol X) idx) /\
    length idx = K /\ NoDup idx /\ Forall (fun i => i < GetCols X)%nat idx.
Proof.
  unfold SelectInitCentroids. case_decide as HK; [|done].
  destruct (Shuffle (seq 0 (GetFtrVN X)) s) as [PermV s1] eqn:Hs. intros [= <- _].
  pose proof (Shuffle_NoDup (seq 0 (GetFtrVN X)) s (NoDup_seq _ _)) as (Hl & Hnd & Hin).
  rewrite Hs in Hl, Hnd, Hin. simpl in *. rewrite length_seq in Hl.
  split; [done|]. exists (take K PermV). split_and!; [done|rewrite length_take; unfold GetFtrVN in *; lia| |].
  - eapply sublist_NoDup; [|apply sublist_take]. done.
  - apply Forall_forall. intros i (k & Hk & _)%elem_of_take.
    apply list_elem_of_lookup_2, Hin, elem_of_seq in Hk. unfold GetFtrVN in Hk. lia.
Qed.

(** The initial centroids are instances. *)
Lemma SelectInitCentroids_box X K s C0 s' :
  SelectInitCentroids X K s = Ok (C0, s') -> all_box X C0.
Proof.
  intros (_ & idx & -> & _ & _ & Hlt)%SelectInitCentroids_Ok k Hk.
  unfold GetCols, GetCol in *; simpl in *. rewrite length_map in Hk.
  rewrite (nth_map_lt _ _ _ _ 0%nat) by done. apply box_col.
  rewrite Forall_forall in Hlt. apply Hlt, list_elem_of_In, nth_In. done.
Qed.
End SelectProofs.

(** ** Lemmas: glib's generator

    Schrage's method computes [16807 Seed mod (2^31 - 1)] without an
    intermediate value leaving the range of an [int], for every seed of the
    generator's cycle [1 .. 2^31 - 2]. *)

Definition pm_seed (s : Z) : Prop := (1 <= s <= 2147483646)%Z.

Lemma Schrage_nonzero q r :
  (0 <= q <= 16807)%Z -> (0 <= r < 127773)%Z -> (1 <= 127773 * q + r <= 2147483646)%Z ->
  (16807 * r - 2836 * q <> 0)%Z.
Proof.
  intros Hq Hr Hs Heq.
  assert (Hd : (16807 | q)%Z).
  { apply (Z.gauss 16807 2836 q); [exists r; lia|reflexivity]. }
  destruct Hd as [k ->]. nia.
Qed.

Lemma PM_next_spec s :
  pm_seed s ->
  (0 <= 16807 * (s mod 127773) <= 2147483647)%Z /\ (0 <= 2836 * (s / 127773) <= 2147483647)%Z /\
  PM_next s = ((16807 * s) mod 2147483647)%Z /\ pm_seed (PM_next s).
Proof.
  unfold pm_seed, PM_next. intros Hs.
  pose proof (Z.div_mod s 127773 ltac:(lia)) as Hdm.
  pose proof (Z.mod_pos_bound s 127773 ltac:(lia)) as Hr.
  set (q := (s / 127773)%Z) in *. set (r := (s mod 127773)%Z) in *.
  assert (Hq : (0 <= q <= 16807)%Z) by lia.
  pose proof (Schrage_nonzero q r Hq Hr ltac:(lia)) as Hnz.
  cbv zeta. destruct (Z.ltb_spec 0 (16807 * r - 2836 * q)) as [Hv|Hv].
  - assert (E : ((16807 * s) mod 2147483647 = 16807 * r - 2836 * q)%Z)
      by (symmetry; apply (Z.mod_unique _ _ q); lia).
    rewrite E. repeat split; lia.
  - assert (E : ((16807 * s) mod 2147483647 = 16807 * r - 2836 * q + 2147483647)%Z)
      by (symmetry; apply (Z.mod_unique _ _ (q - 1)); lia).
    rewrite E. repeat split; lia.
Qed.

Lemma PM_iter s k :
  pm_seed s -> Nat.iter k PM_next s = ((16807 ^ Z.of_nat k * s) mod 2147483647)%Z /\
  pm_seed (Nat.iter k PM_next s).
Proof.
  intros Hs. induction k as [|k [IH Hk]]; simpl Nat.iter.
  - rewrite Z.mod_small by (unfold pm_seed in Hs; lia). split; [lia|done].
  - destruct (PM_next_spec _ Hk) as (_ & _ & -> & Hk'). rewrite IH in Hk' |- *. split; [|done].
    rewrite Z.mul_mod_idemp_r by lia. f_equal. rewrite Nat2Z.inj_succ, Z.pow_succ_r by lia. ring.
Qed.

(** The generator is stepped once per swap of [Shuffle]. *)
Lemma shuffle_down_seed ValN v s :
  (shuffle_down (Rnd := ParkMiller) ValN v s).2 = Nat.iter ValN PM_next s.
Proof.
  revert v s. induction ValN as [|k IH]; intros v s; [done|].
  simpl. rewrite IH. by rewrite <- Nat.iter_succ_r.
Qed.

Lemma SelectInitCentroids_seed X K s C0 s' :
  SelectInitCentroids (Rnd := ParkMiller) X K s = Ok (C0, s') ->
  s' = Nat.iter (GetCols X - 1) PM_next s.
Proof.
  unfold SelectInitCentroids. case_decide; [|done].
  unfold Shuffle. pose proof (shuffle_down_seed (length (seq 0 (GetFtrVN X)) - 1) (seq 0 (GetFtrVN X)) s) as Hs.
  destruct (shuffle_down _ _ _) as [PermV s1]. intros [= _ <-]. simpl in Hs.
  by rewrite Hs, length_seq.
Qed.

Lemma Apply_DnsKMeans_init `{TDist} `{TRndLib} K X MaxIter st st' :
  Apply (H := TDnsKMeans K) X MaxIter st = Ok st' ->
  (0 < GetFtrVDim X)%nat /\ exists C0, SelectInitCentroids X K (RndState st) = Ok (C0, RndState st') /\
    CentroidVV st' = (lloyd X MaxIter true C0 []).1.
Proof.
  unfold Apply, GetFtrVV. simpl. case_decide as HD; [|done]. unfold DnsKMeans_Apply.
  destruct (SelectInitCentroids X K (RndState st)) as [[C0 s']|e]; simpl; [|done].
  intros [= <-]. split; [done|]. by exists C0.
Qed.

Lemma Apply_DnsKMeans_Ok `{TDist} `{TRndLib} K X MaxIter st st' :
  Apply (H := TDnsKMeans K) X MaxIter st = Ok st' ->
  (0 < GetFtrVDim X)%nat /\ exists C0, SelectInitCentroids X K (RndState st) = Ok (C0, RndState st') /\
    CentroidVV st' = lloyd_iter X MaxIter C0.
Proof.
  intros (HD & C0 & Hs & HC)%Apply_DnsKMeans_init. split; [done|]. exists C0. by rewrite HC, lloyd_fst.
Qed.

(** C23: the random state after [TDnsKMeans::Apply] is the seed advanced
    by the [NInst - 1] draws of the shuffle of [SelectInitCentroids],
    [16807^(NInst-1) Seed mod (2^31 - 1)], in the generator's cycle
    [1 .. 2^31 - 2]; and at each of those draws the two products of
    Schrage's method, [16807 (Seed mod 127773)] and
    [2836 (Seed / 127773)], lie within the range of an [int]. *)
Theorem DnsKMeans_Apply_seed `{Dist : TDist} K X MaxIter (st st' : @kmeans_state ParkMiller) :
  pm_seed (RndState st) -> Apply (H := TDnsKMeans K) X MaxIter st = Ok st' ->
  RndState st' = ((16807 ^ Z.of_nat (GetCols X - 1) * RndState st) mod 2147483647)%Z /\
  pm_seed (RndState st') /\
  forall k, (k < GetCols X - 1)%nat ->
    (0 <= 16807 * (Nat.iter k PM_next (RndState st) mod 127773) <= 2147483647)%Z /\
    (0 <= 2836 * (Nat.iter k PM_next (RndState st) / 127773) <= 2147483647)%Z.
Proof.
  intros Hs (_ & C0 & Hsel & _)%Apply_DnsKMeans_init. apply SelectInitCentroids_seed in Hsel.
  rewrite Hsel. split_and!; [by apply PM_iter|by apply PM_iter|].
  intros k _. by destruct (PM_next_spec _ (proj2 (PM_iter _ k Hs))) as (? & ? & _).
Qed.

Lemma SelectInitCentroids_shape `{TRndLib} X K s C0 s' :
  vv_wf X -> SelectInitCentroids X K s = Ok (C0, s') ->
  vv_wf C0 /\ vv_rows C0 = vv_rows X /\ GetCols C0 = K /\ (K <= GetCols X)%nat.
Proof.
  intros HX (HK & idx & -> & Hl & _ & Hlt)%SelectInitCentroids_Ok.
  unfold GetCols at 1. simpl. rewrite length_map. split_and!; [|done|done|done].
  unfold vv_wf. simpl. apply Forall_forall. intros c (i & -> & Hi)%list_elem_of_fmap.
  apply vv_wf_col; [done|]. rewrite Forall_forall in Hlt. by apply Hlt.
Qed.

Lemma SelectInitCentroids_wf `{TRndLib} X K s C0 s' :
  vv_wf X -> (0 < K)%nat -> SelectInitCentroids X K s = Ok (C0, s') -> km_wf X C0.
Proof.
  intros HX HK (? & ? & ? & _)%SelectInitCentroids_shape; [|done]. split_and!; (done || lia).
Qed.

(** ** Properties of the partitional engine *)

(** C17: the public [Apply] of [TDnsKMeans K], with the early exit of
    Lloyd's loop on a stable assignment, computes the same centroids as
    [MaxIter] plain Lloyd passes from the initial centroids chosen by
    [SelectInitCentroids]; it fails when the input has no features or the
    selection fails. *)
Theorem DnsKMeans_Apply_refines `{TDist} `{TRndLib} K X MaxIter st :
  Apply (H := TDnsKMeans K) X MaxIter st =
  if decide (0 < GetFtrVDim X)%nat then
    (init <- SelectInitCentroids X K (RndState st) ;; Ok (KMState (lloyd_iter X MaxIter init.1) init.2))
  else Err EInvalidArg.
Proof.
  unfold Apply, GetFtrVV. simpl. case_decide; [|done]. unfold DnsKMeans_Apply.
  destruct (SelectInitCentroids X K (RndState st)) as [[C0 s']|e]; simpl; [|done].
  by rewrite lloyd_fst.
Qed.

(** C19: the public [Apply] of [TDnsKMeans K] fails with an invalid
    argument exactly when the input has no features or fewer than [K]
    instances; otherwise the model has [K] centroids of the input's
    dimension. *)
Theorem DnsKMeans_Apply_outcome `{TDist} `{TRndLib} K X MaxIter st :
  match Apply (H := TDnsKMeans K) X MaxIter st with
  | Err e => e = EInvalidArg /\ (GetRows X = 0 \/ GetCols X < K)%nat
  | Ok st' => (0 < GetRows X)%nat /\ (K <= GetCols X)%nat /\ GetClusts st' = K /\ GetDim st' = GetRows X
  end.
Proof.
  unfold Apply, GetFtrVV. simpl. case_decide as HD; [|unfold GetFtrVDim in HD; split; [done|lia]].
  unfold DnsKMeans_Apply. destruct (SelectInitCentroids X K (RndState st)) as [[C0 s']|e] eqn:Hsel.
  - apply SelectInitCentroids_Ok in Hsel as (HK & idx & -> & Hl & _).
    unfold GetClusts, GetDim. simpl. rewrite lloyd_fst.
    destruct (lloyd_iter_shape X MaxIter (FltVV (GetRows X) (map (GetCol X) idx))) as [Hr Hc].
    unfold GetFtrVDim, GetRows, GetCols in *. simpl in *. rewrite length_map in Hc. split_and!; lia.
  - unfold SelectInitCentroids in Hsel. case_decide.
    + destruct (Shuffle (seq 0 (GetFtrVN X)) (RndState st)). discriminate.
    + injection Hsel as <-. unfold GetFtrVN in *. split; [done|lia].
Qed.

(** C20: the initial centroids are [K] distinct columns of the input. *)
Theorem SelectInitCentroids_distinct `{TRndLib} X K s C0 s' :
  SelectInitCentroids X K s = Ok (C0, s') ->
  exists idx, vv_cols C0 = map (GetFtrCol X) idx /\ length idx = K /\ NoDup idx /\
    Forall (fun i => i < GetFtrVN X)%nat idx.
Proof.
  intros (_ & idx & -> & Hl & Hnd & Hlt)%SelectInitCentroids_Ok. by exists idx.
Qed.

Section EuclClaims.
Context `{Sq : SqrtLib} `{Rnd : TRndLib}.

Lemma lloyd_iter_wf X C t : km_wf X C -> km_wf X (@lloyd_iter EuclDist X t C).
Proof.
  intros H. induction t as [|t IH]; [exact H|].
  rewrite lloyd_iter_S. by apply lloyd_pass_wf.
Qed.

(** The objective of the centroids after [t'] passes is at most that after
    [t <= t'] passes. *)
Lemma lloyd_iter_cost_le X C t t' :
  km_wf X C -> (t <= t')%nat ->
  cost X (@lloyd_iter EuclDist X t' C) (@Assign EuclDist (lloyd_iter X t' C) X) <=
  cost X (@lloyd_iter EuclDist X t C) (@Assign EuclDist (lloyd_iter X t C) X).
Proof.
  intros H. induction 1 as [|t' Ht IH]; [apply Qle_refl|].
  rewrite lloyd_iter_S. eapply Qle_trans; [|exact IH]. by apply lloyd_pass_le, lloyd_iter_wf.
Qed.

(** C6: the assignment of the model's centroids, with cached norms and the
    [GetColMinIdx] loop, equals the reference assignment: every instance
    goes to the first centroid at the least squared distance. *)
Theorem Assign_refines_nearest X (st : kmeans_state) :
  km_wf X (CentroidVV st) ->
  @Assign EuclDist (CentroidVV st) X = map (nearest X (CentroidVV st)) (seq 0 (GetFtrVN X)).
Proof.
  intros Hwf. set (C := CentroidVV st).
  apply nth_ext with (d := 0%nat) (d' := 0%nat); [by rewrite length_Assign, length_map, length_seq|].
  intros j Hj. rewrite length_Assign in Hj. rewrite (nth_map_lt _ _ _ _ 0%nat), nth_seq_lt by (rewrite ?length_seq; done).
  destruct Hwf as (HX & HC & Hr & HK).
  destruct (Assign_nearest_at C X j HC HX Hr HK Hj) as (Ha & Hale & Halt).
  set (l := map (fun k => sqdist (GetCol X j) (GetCol C k)) (seq 0 (GetCols C))).
  assert (Hat : forall k, (k < GetCols C)%nat -> at0 l k = sqdist (GetCol X j) (GetCol C k)).
  { intros k Hk. unfold l, at0. by rewrite (nth_map_lt _ _ _ _ 0%nat), nth_seq_lt by (rewrite ?length_seq; lia). }
  assert (Hlen : length l = GetCols C) by (unfold l; by rewrite length_map, length_seq).
  destruct (argmin_spec l) as (Hb & Hble & Hblt); [lia|]. rewrite Hlen in Hb, Hble.
  rewrite Nat.add_0_l. change (nearest X C j) with (argmin l).
  apply (first_min_unique (fun k => sqdist (GetCol X j) (GetCol C k)) (GetCols C)); [done..| |].
  - intros k Hk. rewrite <- !Hat by lia. by apply Hble.
  - intros k Hk. rewrite <- !Hat by lia. by apply Hblt.
Qed.

(** C7: allowing [TDnsKMeans::Apply] one more pass never increases the
    objective (sum of squared distances of the instances to their nearest
    centroid) of the model it returns. *)
Theorem DnsKMeans_cost_nonincreasing K X t st st0 st1 :
  vv_wf X -> (0 < K)%nat ->
  Apply (H := TDnsKMeans (Dist := EuclDist) K) X t st = Ok st0 ->
  Apply (H := TDnsKMeans (Dist := EuclDist) K) X (S t) st = Ok st1 ->
  cost X (CentroidVV st1) (@Assign EuclDist (CentroidVV st1) X) <=
  cost X (CentroidVV st0) (@Assign EuclDist (CentroidVV st0) X).
Proof.
  intros HX HK (_ & C0 & Hs0 & ->)%Apply_DnsKMeans_Ok (_ & C1 & Hs1 & ->)%Apply_DnsKMeans_Ok.
  rewrite Hs0 in Hs1. injection Hs1 as <- _.
  apply lloyd_iter_cost_le; [by eapply SelectInitCentroids_wf|lia].
Qed.


(** C21: under [TEuclDist] the distance queries of the engine give the
    Euclidean distances to its centroids: [GetDist(ClustN, FtrV)] (through
    [GetCentroidDistV]) that to centroid [ClustN], and [GetDistVV(FtrVV)]
    at [(i, j)] that of centroid [i] to instance [j]. *)
Theorem distance_queries_correct (st : kmeans_state) x X k i j :
  vv_wf (CentroidVV st) -> length x = GetDim st -> (k < GetClusts st)%nat ->
  vv_wf X -> vv_rows X = GetDim st -> (i < GetClusts st)%nat -> (j < GetFtrVN X)%nat ->
  (exists d, @GetDist EuclDist _ st k x = Ok d /\ d == Qsqrt (sqdist (GetCentroid st k) x)) /\
  mat_at (@GetDistVV_km EuclDist _ st X) i j == Qsqrt (sqdist (GetCentroid st i) (GetFtrCol X j)).
Proof.
  intros HC Hx Hk HX Hr Hi Hj. unfold GetDim, GetClusts, GetFtrVN, GetRows in *. split.
  - unfold GetDist, GetCentroidDistV. cbn [GetDistV EuclDist]. rewrite GetDistV_result. simpl.
    eexists; split; [reflexivity|]. by apply at0_GetDistV_result.
  - unfold GetDistVV_km. cbn [GetDistVV EuclDist]. rewrite mat_at_GetDistVV by done.
    apply Qsqrt_proper. by apply GetDist2VV_sqdist.
Qed.
End EuclClaims.

(** The scenario of the specification: with the seed [1] the initial
    centroids are [[0,0]] and [[10,0]], one from each group, and k-means
    converges in one update to [[0,0.5]] and [[10,0.5]]. *)
Example DnsKMeans_scenario :
  SelectInitCentroids (Rnd := ParkMiller) X2 2 1%Z = Ok (C2, Nat.iter 3 PM_next 1%Z) /\
  match kmeans2 1%Z with
  | Ok st => map (map Qred) (vv_cols (CentroidVV st)) = [[0; 1#2]; [10; 1#2]] /\
             CentroidVV st = @lloyd_iter (@EuclDist Qsqrt3_lib) X2 1 C2
  | Err _ => False
  end.
Proof. split; vm_compute; [reflexivity|split; reflexivity]. Qed.

(** Lloyd's loop stops at a local optimum when both initial centroids
    come from the same group: with the seed [2] the centroids are [[5,0]]
    and [[5,1]], a fixed point of the pass whose objective is [100],
    against [1] for the two natural groups. *)
Example DnsKMeans_local_optimum :
  match kmeans2 2%Z with
  | Ok st =>
      map (map Qred) (vv_cols (CentroidVV st)) = [[5; 0]; [5; 1]] /\
      @lloyd_step (@EuclDist Qsqrt3_lib) X2 (CentroidVV st) = CentroidVV st /\
      cost X2 (CentroidVV st) (@Assign (@EuclDist Qsqrt3_lib) (CentroidVV st) X2) == 100 /\
      cost X2 (FltVV 2 [[0; 1#2]; [10; 1#2]]) [0; 0; 1; 1]%nat == 1
  | Err _ => False
  end.
Proof. vm_compute. split_and!; reflexivity. Qed.

(** ** Witnesses at concrete inputs *)

Lemma X2_C2_wf : km_wf X2 C2.
Proof. unfold km_wf, vv_wf, GetCols. simpl. repeat split; repeat constructor. Qed.

Lemma Assign_refines_nearest_witness :
  km_wf X2 (CentroidVV (KMState (Rnd := ParkMiller) C2 1%Z)) /\
  @Assign (@EuclDist Qsqrt3_lib) C2 X2 = map (nearest X2 C2) (seq 0 (GetFtrVN X2)).
Proof.
  split; [apply X2_C2_wf|].
  apply (Assign_refines_nearest (Sq := Qsqrt3_lib) X2 (KMState (Rnd := ParkMiller) C2 1%Z)), X2_C2_wf.
Defined.

Lemma X2_wf : vv_wf X2.
Proof. unfold vv_wf. simpl. repeat constructor. Qed.

Lemma kmeans2_Ok (MaxIter : nat) :
  Apply (Rnd := ParkMiller) (H := TDnsKMeans (Dist := @EuclDist Qsqrt3_lib) 2) X2 MaxIter (KMState (FltVV 0 []) 1%Z) =
  Ok (KMState (@lloyd_iter (@EuclDist Qsqrt3_lib) X2 MaxIter C2) (Nat.iter 3 PM_next 1%Z)).
Proof.
  assert (H : SelectInitCentroids (Rnd := ParkMiller) X2 2 1%Z = Ok (C2, Nat.iter 3 PM_next 1%Z)) by (vm_compute; reflexivity).
  unfold Apply, GetFtrVV. cbn [ApplyAlgo TDnsKMeans]. rewrite decide_True by (vm_compute; lia).
  unfold DnsKMeans_Apply. cbn [RndState]. rewrite H. cbn [res_bind]. by rewrite lloyd_fst.
Qed.

Lemma DnsKMeans_cost_nonincreasing_witness :
  vv_wf X2 /\ (0 < 2)%nat /\
  cost X2 (@lloyd_iter (@EuclDist Qsqrt3_lib) X2 1 C2) (@Assign (@EuclDist Qsqrt3_lib) (@lloyd_iter (@EuclDist Qsqrt3_lib) X2 1 C2) X2) <=
  cost X2 (@lloyd_iter (@EuclDist Qsqrt3_lib) X2 0 C2) (@Assign (@EuclDist Qsqrt3_lib) (@lloyd_iter (@EuclDist Qsqrt3_lib) X2 0 C2) X2).
Proof.
  split_and!; [apply X2_wf|lia|].
  exact (DnsKMeans_cost_nonincreasing (Sq := Qsqrt3_lib) 2 X2 0 _ _ _ X2_wf ltac:(lia) (kmeans2_Ok 0) (kmeans2_Ok 1)).
Defined.

Lemma SelectInitCentroids_distinct_witness :
  SelectInitCentroids (Rnd := ParkMiller) X2 2 1%Z = Ok (C2, Nat.iter 3 PM_next 1%Z) /\
  exists idx, vv_cols C2 = map (GetFtrCol X2) idx /\ length idx = 2%nat /\ NoDup idx /\
    Forall (fun i => i < GetFtrVN X2)%nat idx.
Proof.
  assert (H : SelectInitCentroids (Rnd := ParkMiller) X2 2 1%Z = Ok (C2, Nat.iter 3 PM_next 1%Z)) by (vm_compute; reflexivity).
  split; [exact H|]. exact (SelectInitCentroids_distinct X2 2 1%Z C2 (Nat.iter 3 PM_next 1%Z) H).
Defined.


Lemma distance_queries_correct_witness :
  let st := @KMState ParkMiller C2 1%Z in
  vv_wf (CentroidVV st) /\ length [3; 4] = GetDim st /\ (1 < GetClusts st)%nat /\
  vv_wf X2 /\ vv_rows X2 = GetDim st /\ (0 < GetClusts st)%nat /\ (3 < GetFtrVN X2)%nat /\
  (exists d, @GetDist (@EuclDist Qsqrt3_lib) _ st 1 [3; 4] = Ok d /\
     d == Qsqrt (sqdist (GetCentroid st 1) [3; 4])) /\
  mat_at (@GetDistVV_km (@EuclDist Qsqrt3_lib) _ st X2) 0 3 ==
    Qsqrt (sqdist (GetCentroid st 0) (GetFtrCol X2 3)).
Proof.
  intros st. assert (HC : vv_wf (CentroidVV st)) by (repeat constructor).
  split_and!; [exact HC|reflexivity|cbv; lia|apply X2_wf|reflexivity|cbv; lia|cbv; lia| |];
    apply (distance_queries_correct (Sq := Qsqrt3_lib) st [3; 4] X2 1 0 3);
    first [exact HC | exact X2_wf | reflexivity | cbv; lia].
Defined.

Lemma DnsKMeans_Apply_seed_witness :
  pm_seed 1%Z /\
  Apply (Rnd := ParkMiller) (H := TDnsKMeans (Dist := @EuclDist Qsqrt3_lib) 2) X2 10 (KMState (FltVV 0 []) 1%Z) =
    Ok (KMState (@lloyd_iter (@EuclDist Qsqrt3_lib) X2 10 C2) (Nat.iter 3 PM_next 1%Z)) /\
  Nat.iter 3 PM_next 1%Z = ((16807 ^ Z.of_nat (GetCols X2 - 1) * 1) mod 2147483647)%Z /\
  pm_seed (Nat.iter 3 PM_next 1%Z) /\
  forall k, (k < GetCols X2 - 1)%nat ->
    (0 <= 16807 * (Nat.iter k PM_next 1%Z mod 127773) <= 2147483647)%Z /\
    (0 <= 2836 * (Nat.iter k PM_next 1%Z / 127773) <= 2147483647)%Z.
Proof.
  assert (Hs : pm_seed 1%Z) by (unfold pm_seed; lia).
  split; [exact Hs|]. split; [exact (kmeans2_Ok 10)|].
  exact (DnsKMeans_Apply_seed (Dist := @EuclDist Qsqrt3_lib) 2 X2 10 (KMState (FltVV 0 []) 1%Z) _ Hs (kmeans2_Ok 10)).
Defined.
