(* ===== verification/DpMeans.v ===== *)
(** * DP-means ([TDpMeans], clustering.h lines 265-289)

    [TDpMeans] is the second subclass of [TAbsKMeans]: its constant fields
    [Lambda], [MnClusts] and [MxClusts] are [dp_params]; its [Apply] (body
    in clustering.cpp) follows section 4.5 of the specification:
    - a pass visits the instances in order; an instance whose distance to
      its nearest centroid exceeds [sqrt Lambda] opens a new cluster seeded
      at it while there are fewer than [MxClusts] clusters, otherwise it is
      assigned to its nearest centroid; a cluster opened during the pass is
      a candidate for the instances after it ([dp_assign_one], [dp_pass]);
    - the centroids are then recomputed as means and the clusters left
      without instances are dropped ([dp_update]);
    - passes repeat until the assignment is unchanged or [MaxIter] passes
      were made ([dp_loop], fuel [MaxIter] as in the source);
    - while there are fewer than [MnClusts] clusters, the instance of the
      largest-radius cluster farthest from its centroid becomes a singleton
      cluster ([dp_split], at most [MnClusts] splits);
    - fewer instances than [MnClusts], [MnClusts > MxClusts], [MxClusts = 0]
      or a split that cannot reach [MnClusts] are invalid arguments.
    The distances come from the engine's distance strategy [TDist]; the
    initial centroids are [MnClusts] instances drawn by
    [SelectInitCentroids].  The specification leaves the initial centroids
    and the order of the clusters after an update open; the model takes
    [MnClusts] random instances and keeps the surviving clusters in their
    order.

    The theorems: the cluster count of a returned model is at most
    [MxClusts] (for every distance strategy; at least [MnClusts] is the
    final check of [Apply]); invalid arguments are rejected; under the Euclidean distance a pass respects the
    threshold; the update keeps the partition and makes every centroid a
    mean; the centroids stay in the bounding box of the data.  Two computed
    examples give the scenario of the specification and a counterexample
    to the monotonicity in [Lambda] it states. *)

From Stdlib Require Import Sorted.
From S2P Require Import Prelude LinAlg Distance KMeans.

Local Open Scope Q_scope.

(** The constant fields of [TDpMeans] (lines 269-271). *)
Record dp_params := DpParams { Lambda : Q; MnClusts : nat; MxClusts : nat }.

(** The default arguments of the constructor [TDpMeans(Lambda, MnClusts=1,
    MxClusts=TInt::Mx, Rnd)] (lines 273-274). *)
Definition DpParams_default (Lambda : Q) : dp_params := DpParams Lambda 1 (Z.to_nat 2147483647).

Section DpEngine.
Context `{Dist : TDist} `{Sq : SqrtLib} `{Rnd : TRndLib}.
Context (p : dp_params).

(** A new cluster seeded at the instance [x] becomes the last column. *)
Definition add_centroid (C : fltvv) (x : vec) : fltvv := FltVV (vv_rows C) (vv_cols C ++ [x]).

(** One instance of a pass: with no centroid yet, or far from its nearest
    centroid while there is room, it opens a cluster; otherwise it joins
    the first nearest centroid. *)
Definition dp_assign_one (X : fltvv) (acc : fltvv * list nat) (j : nat) : res (fltvv * list nat) :=
  let '(C, A) := acc in
  let x := GetFtrCol X j in
  if Nat.eqb (GetCols C) 0 then Ok (add_centroid C x, A ++ [0%nat])
  else
    DistV <- GetDistV C x [] ;;
    let k := MinIdx DistV in
    if Qltb (Qsqrt (Lambda p)) (at0 DistV k) && Nat.ltb (GetCols C) (MxClusts p)
    then Ok (add_centroid C x, A ++ [GetCols C])
    else Ok (C, A ++ [k]).

(** A pass over all instances, from the current centroids. *)
Definition dp_pass (X C : fltvv) : res (fltvv * list nat) :=
  foldM (dp_assign_one X) (seq 0 (GetFtrVN X)) (C, []).

(** The clusters that have instances, in order, and the new index of a
    kept cluster: the number of kept clusters before it. *)
Definition kept (A : list nat) (K : nat) : list nat := filter (fun k => members A k <> []) (seq 0 K).
Definition rank (ks : list nat) (a : nat) : nat := length (filter (fun k => k < a)%nat ks).

(** The update after a pass: every kept cluster's centroid becomes the mean
    of its instances, the empty clusters are dropped and the assignment is
    renumbered. *)
Definition dp_update (X C : fltvv) (A : list nat) : fltvv * list nat :=
  let ks := kept A (GetCols C) in
  (FltVV (vv_rows C) (map (fun k => vmean (vv_rows C) (map (GetFtrCol X) (members A k))) ks),
   map (rank ks) A).

(** The outer loop, at most [MaxIter] passes, stopping when a pass
    reproduces the previous assignment. *)
Fixpoint dp_loop (X : fltvv) (fuel : nat) (first : bool) (C : fltvv) (OldA : list nat) :
    res (fltvv * list nat) :=
  match fuel with
  | O => Ok (C, OldA)
  | S f =>
      r <- dp_pass X C ;;
      let '(C1, A) := r in
      if negb first && bool_decide (A = OldA) then Ok (C1, A)
      else let '(C2, A2) := dp_update X C1 A in dp_loop X f false C2 A2
  end.

(** The first position of the greatest entry. *)
Definition MaxIdx (v : vec) : nat := MinIdx (map Qopp v).

(** The largest squared distance of an instance of cluster [k] to its
    centroid, in the matrix [D] of squared distances. *)
Definition radius (D : fltvv) (A : list nat) (k : nat) : Q :=
  fold_left Qmax (map (fun j => mat_at D k j) (members A k)) 0.

(** The forced splits: while there are fewer than [MnClusts] clusters, the
    instance of the largest-radius cluster farthest from its centroid
    becomes a singleton cluster, then the centroids are updated. *)
Fixpoint dp_split (X : fltvv) (fuel : nat) (C : fltvv) (A : list nat) : res (fltvv * list nat) :=
  match fuel with
  | O => Ok (C, A)
  | S f =>
      if decide (MnClusts p <= GetCols C)%nat then Ok (C, A) else
      let D := GetDist2VV C X (FltVV 0 []) in
      let k := MaxIdx (map (radius D A) (seq 0 (GetCols C))) in
      match members A k with
      | [] => Err EInvalidArg
      | ms =>
          let j := nth (MaxIdx (map (fun j => mat_at D k j) ms)) ms 0%nat in
          let '(C', A') := dp_update X (add_centroid C (GetFtrCol X j)) (<[j := GetCols C]> A) in
          dp_split X f C' A'
      end
  end.

(** [TDpMeans::Apply] (lines 284-285). *)
Definition DpMeans_Apply (X : fltvv) (NInst Dim MaxIter : nat) (st : kmeans_state) : res kmeans_state :=
  if decide (MnClusts p <= MxClusts p /\ 0 < MxClusts p /\ MnClusts p <= NInst)%nat then
    init <- SelectInitCentroids X (MnClusts p) (RndState st) ;;
    let '(C0, s') := init in
    r <- dp_loop X MaxIter true C0 [] ;;
    let '(C1, A1) := r in
    r2 <- dp_split X (MnClusts p) C1 A1 ;;
    let '(C2, _) := r2 in
    if decide (MnClusts p <= GetCols C2)%nat then Ok (KMState C2 s') else Err EInvalidArg
  else Err EInvalidArg.

End DpEngine.

(** [TDpMeans] with its parameters (lines 265-289). *)
#[export] Instance TDpMeans `{TDist} `{SqrtLib} `{TRndLib} (p : dp_params) : KMeansAlgo :=
  {| ApplyAlgo := DpMeans_Apply p |}.

(** DP-means with the Euclidean distance and glib's generator, at most
    [10] passes, on a model whose random state is [seed]. *)
Definition dpmeans (X : fltvv) (lam : Q) (mn mx : nat) (seed : Z) : res kmeans_state :=
  Apply (Rnd := ParkMiller) (H := TDpMeans (H := @EuclDist Qsqrt3_lib) (H0 := Qsqrt3_lib) (DpParams lam mn mx))
    X 10 (TAbsKMeans_new seed).

(** Five points on a line, on which a larger [Lambda] gives more clusters. *)
Definition X5 : fltvv := FltVV 1 [[1];[10];[9];[5];[11]].

(** ** Lemmas: the number of clusters *)

Section DpBounds.
Context `{Dist : TDist} `{Sq : SqrtLib} (p : dp_params).
Hypothesis Hmx : (0 < MxClusts p)%nat.

Lemma dp_assign_one_cols X C A j C' A' :
  (GetCols C <= MxClusts p)%nat -> dp_assign_one p X (C, A) j = Ok (C', A') ->
  (GetCols C <= GetCols C' <= MxClusts p)%nat /\ vv_rows C' = vv_rows C /\ length A' = S (length A).
Proof.
  intros HC. unfold dp_assign_one, add_centroid, GetCols in *.
  destruct (Nat.eqb_spec (length (vv_cols C)) 0) as [H0|H0].
  { intros [= <- <-]. simpl. rewrite !length_app. simpl. lia. }
  destruct (GetDistV C (GetFtrCol X j) []) as [DistV|e]; simpl; [|done].
  destruct (_ && _) eqn:Hb; intros [= <- <-]; simpl; rewrite ?length_app; simpl; [|lia].
  apply andb_true_iff in Hb as [_ Hb%Nat.ltb_lt]. lia.
Qed.

Lemma dp_pass_cols X C C' A :
  (GetCols C <= MxClusts p)%nat -> dp_pass p X C = Ok (C', A) ->
  (GetCols C <= GetCols C' <= MxClusts p)%nat /\ vv_rows C' = vv_rows C.
Proof.
  intros HC. unfold dp_pass.
  apply (foldM_ind (fun '(C1, A1) => (GetCols C <= GetCols C1 <= MxClusts p)%nat /\ vv_rows C1 = vv_rows C)).
  - split; [lia|done].
  - intros [C1 A1] j [C2 A2] _ [HC1 Hr1] Hs. apply dp_assign_one_cols in Hs as (? & ? & _); [|lia].
    split; [lia|congruence].
Qed.

Lemma length_kept A K : (length (kept A K) <= K)%nat.
Proof. unfold kept. etrans; [apply length_filter|]. by rewrite length_seq. Qed.

Lemma dp_update_cols X C A :
  (GetCols (dp_update X C A).1 <= GetCols C)%nat /\ vv_rows (dp_update X C A).1 = vv_rows C.
Proof. unfold GetCols. simpl. rewrite length_map. split; [apply length_kept|done]. Qed.

Lemma dp_loop_cols X fuel first C OldA C' A' :
  (GetCols C <= MxClusts p)%nat -> dp_loop p X fuel first C OldA = Ok (C', A') ->
  (GetCols C' <= MxClusts p)%nat.
Proof.
  revert first C OldA. induction fuel as [|f IH]; intros first C OldA HC; simpl; [by intros [= <- _]|].
  destruct (dp_pass p X C) as [[C1 A]|e] eqn:Hp; simpl; [|done].
  apply dp_pass_cols in Hp as [Hp _]; [|done].
  case_match; [intros [= <- _]; lia|].
  apply IH. pose proof (proj1 (dp_update_cols X C1 A)) as Hc. simpl in Hc. lia.
Qed.

Lemma dp_split_cols X fuel C A C' A' :
  (MnClusts p <= MxClusts p)%nat -> (GetCols C <= MxClusts p)%nat ->
  dp_split p X fuel C A = Ok (C', A') -> (GetCols C' <= MxClusts p)%nat.
Proof.
  intros Hmn. revert C A. induction fuel as [|f IH]; intros C A HC; simpl; [by intros [= <- _]|].
  case_decide as Hk; [by intros [= <- _]|]. case_match; [done|].
  apply IH. unfold GetCols at 1. simpl. rewrite length_map. etrans; [apply length_kept|].
  unfold add_centroid, GetCols in *. simpl. rewrite length_app. simpl. lia.
Qed.
End DpBounds.

(** ** Lemmas: the centroids keep the dimension of the data

    Whatever the distance, every centroid DP-means produces is an instance
    of the data or a mean of instances, and the assignment names instances
    of the data. *)

Lemma add_centroid_shape C x :
  GetCols (add_centroid C x) = S (GetCols C) /\ vv_rows (add_centroid C x) = vv_rows C /\
  (vv_wf C -> length x = vv_rows C -> vv_wf (add_centroid C x)).
Proof.
  unfold GetCols, add_centroid, vv_wf. simpl. rewrite length_app. simpl. split_and!; [lia|done|].
  intros Hw Hx. apply Forall_app. split; [done|]. by constructor.
Qed.

Section DpWf.
Context `{Dist : TDist} `{Sq : SqrtLib} (p : dp_params) (X : fltvv).
Hypothesis HX : vv_wf X.

Lemma GetFtrCol_dim j : (j < GetCols X)%nat -> length (GetFtrCol X j) = vv_rows X.
Proof. intros Hj. by apply vv_wf_col. Qed.

Lemma dp_assign_one_wf C A j C' A' :
  vv_wf C -> vv_rows C = vv_rows X -> (j < GetCols X)%nat ->
  dp_assign_one p X (C, A) j = Ok (C', A') ->
  vv_wf C' /\ vv_rows C' = vv_rows X /\ length A' = S (length A).
Proof.
  intros HC Hr Hj. pose proof (add_centroid_shape C (GetFtrCol X j)) as (_ & Hr' & Hw').
  assert (Hl : forall k, length (A ++ [k]) = S (length A)) by (intros; rewrite length_app; simpl; lia).
  unfold dp_assign_one. case_match.
  { intros [= <- <-]. rewrite Hl. split_and!; [apply Hw'|..]; rewrite ?Hr; auto using GetFtrCol_dim. }
  destruct (GetDistV C (GetFtrCol X j) []) as [DistV|e]; simpl; [|done].
  case_match; intros [= <- <-]; rewrite Hl; [|done].
  split_and!; [apply Hw'|..]; rewrite ?Hr; auto using GetFtrCol_dim.
Qed.

Lemma dp_pass_wf C C' A :
  vv_wf C -> vv_rows C = vv_rows X -> dp_pass p X C = Ok (C', A) ->
  vv_wf C' /\ vv_rows C' = vv_rows X /\ length A = GetCols X.
Proof.
  intros HC Hr Hp.
  refine (foldM_seq_ind (fun i '(C1, A1) => vv_wf C1 /\ vv_rows C1 = vv_rows X /\ length A1 = i)
            _ 0 _ _ _ _ _ Hp); [done|].
  intros i [C1 A1] [C2 A2] Hi (HC1 & Hr1 & Hl1) Hs.
  apply dp_assign_one_wf in Hs as (? & ? & ->); [|done|done|unfold GetFtrVN in Hi; lia]. split_and!; (done || lia).
Qed.

Lemma dp_update_wf C A :
  vv_rows C = vv_rows X -> (length A <= GetCols X)%nat ->
  vv_wf (dp_update X C A).1 /\ vv_rows (dp_update X C A).1 = vv_rows X /\
  length (dp_update X C A).2 = length A.
Proof.
  intros Hr HA. simpl. rewrite length_map. split_and!; [|done|done].
  apply Forall_forall. intros c (k & -> & _)%list_elem_of_fmap. simpl.
  apply length_vmean. rewrite Hr. by apply members_cols_dim.
Qed.

Lemma dp_loop_wf fuel first C OldA C' A' :
  vv_wf C -> vv_rows C = vv_rows X -> (length OldA <= GetCols X)%nat ->
  dp_loop p X fuel first C OldA = Ok (C', A') ->
  vv_wf C' /\ vv_rows C' = vv_rows X /\ (length A' <= GetCols X)%nat.
Proof.
  revert first C OldA. induction fuel as [|f IH]; intros first C OldA HC Hr HA; simpl; [by intros [= <- <-]|].
  destruct (dp_pass p X C) as [[C1 A]|e] eqn:Hp; simpl; [|done].
  apply dp_pass_wf in Hp as (HC1 & Hr1 & HlA); [|done|done].
  case_match; [intros [= <- <-]; split_and!; (done || lia)|].
  destruct (dp_update_wf C1 A Hr1 ltac:(lia)) as (Hw2 & Hr2 & _).
  apply IH; [exact Hw2|exact Hr2|]. simpl. rewrite length_map. lia.
Qed.

(** The instance a forced split picks is one of the data's. *)
Lemma nth_members_lt A k ms i :
  members A k = ms -> ms <> [] -> (length A <= GetCols X)%nat -> (nth i ms 0%nat < GetCols X)%nat.
Proof.
  intros Hm Hne HA. assert (Hms : forall x, x ∈ ms -> (x < length A)%nat) by (rewrite <- Hm; apply members_lt).
  destruct (nth_in_or_default i ms 0%nat) as [Hin| ->]; [apply list_elem_of_In, Hms in Hin; lia|].
  destruct ms as [|m ms]; [done|]. pose proof (Hms m ltac:(constructor)). lia.
Qed.

Lemma dp_split_wf fuel C A C' A' :
  vv_wf C -> vv_rows C = vv_rows X -> (length A <= GetCols X)%nat ->
  dp_split p X fuel C A = Ok (C', A') -> vv_wf C' /\ vv_rows C' = vv_rows X.
Proof.
  revert C A. induction fuel as [|f IH]; intros C A HC Hr HA; cbn [dp_split]; [by intros [= <- _]|].
  case_decide; [by intros [= <- _]|].
  match goal with |- context [members A ?k] => destruct (members A k) as [|m ms] eqn:Hm; [done|] end.
  match goal with |- context [nth ?i (m :: ms) 0%nat] => remember (nth i (m :: ms) 0%nat) as j eqn:Hj end.
  assert (Hjx : (j < GetCols X)%nat) by (subst j; by eapply nth_members_lt).
  cbv zeta. destruct (add_centroid_shape C (GetFtrCol X j)) as (_ & Hr' & Hw').
  pose proof (dp_update_wf (add_centroid C (GetFtrCol X j)) (<[j := GetCols C]> A)) as Hu.
  destruct (dp_update X _ _) as [C2 A2]. rewrite length_insert in Hu.
  destruct Hu as (Hw2 & Hr2 & Hl2); [congruence|lia|]. simpl in *. apply IH; (done || lia).
Qed.

(** ** Centroids stay in the bounding box of the data *)

Lemma add_centroid_box C j :
  all_box X C -> (j < GetCols X)%nat -> all_box X (add_centroid C (GetFtrCol X j)).
Proof.
  intros HC Hj k Hk. unfold add_centroid, all_box, GetCols, GetCol in *; simpl in *.
  rewrite length_app in Hk; simpl in Hk. destruct (decide (k < length (vv_cols C))%nat).
  - rewrite app_nth1 by done. by apply HC.
  - rewrite app_nth2 by lia. replace (k - length (vv_cols C))%nat with 0%nat by lia. by apply box_col.
Qed.

Lemma dp_assign_one_box C A j C' A' :
  all_box X C -> (j < GetCols X)%nat -> dp_assign_one p X (C, A) j = Ok (C', A') -> all_box X C'.
Proof.
  intros HC Hj. unfold dp_assign_one. case_match; [intros [= <- _]; by apply add_centroid_box|].
  destruct (GetDistV C (GetFtrCol X j) []) as [DistV|e]; simpl; [|done].
  case_match; intros [= <- _]; [by apply add_centroid_box|done].
Qed.

Lemma dp_pass_box C C' A : all_box X C -> dp_pass p X C = Ok (C', A) -> all_box X C'.
Proof.
  intros HC Hp. refine (foldM_seq_ind (fun i '(C1, A1) => all_box X C1) _ 0 _ _ _ _ _ Hp); [done|].
  intros i [C1 A1] [C2 A2] Hi HC1 Hs. eapply dp_assign_one_box; [exact HC1| |exact Hs].
  unfold GetFtrVN in Hi. lia.
Qed.

(** The update makes every centroid the mean of a non-empty cluster. *)
Lemma dp_update_box C A :
  vv_rows C = vv_rows X -> (length A <= GetCols X)%nat -> all_box X (dp_update X C A).1.
Proof.
  intros Hr HA k Hk. unfold GetCols, GetCol in *. simpl in *. rewrite length_map in Hk.
  rewrite (nth_map_lt _ _ _ _ 0%nat) by done. rewrite Hr. apply members_box; [done|done|].
  assert (Hin : nth k (kept A (length (vv_cols C))) 0%nat ∈ kept A (length (vv_cols C)))
    by (apply list_elem_of_In, nth_In; done).
  unfold kept in Hin. by apply list_elem_of_filter in Hin as [Hne _].
Qed.

Lemma dp_loop_box fuel first C OldA C' A' :
  vv_wf C -> vv_rows C = vv_rows X -> (length OldA <= GetCols X)%nat -> all_box X C ->
  dp_loop p X fuel first C OldA = Ok (C', A') -> all_box X C'.
Proof.
  revert first C OldA. induction fuel as [|f IH]; intros first C OldA HC Hr HA Hb; simpl; [by intros [= <- _]|].
  destruct (dp_pass p X C) as [[C1 A]|e] eqn:Hp; simpl; [|done].
  pose proof (dp_pass_box C C1 A Hb Hp) as Hb1.
  apply dp_pass_wf in Hp as (HC1 & Hr1 & HlA); [|done|done].
  case_match; [by intros [= <- _]|].
  destruct (dp_update_wf C1 A Hr1 ltac:(lia)) as (Hw2 & Hr2 & _).
  apply IH; [exact Hw2|exact Hr2|simpl; rewrite length_map; lia|by apply dp_update_box; [|lia]].
Qed.

Lemma dp_split_box fuel C A C' A' :
  vv_wf C -> vv_rows C = vv_rows X -> (length A <= GetCols X)%nat -> all_box X C ->
  dp_split p X fuel C A = Ok (C', A') -> all_box X C'.
Proof.
  revert C A. induction fuel as [|f IH]; intros C A HC Hr HA Hb; cbn [dp_split]; [by intros [= <- _]|].
  case_decide; [by intros [= <- _]|].
  match goal with |- context [members A ?k] => destruct (members A k) as [|m ms] eqn:Hm; [done|] end.
  match goal with |- context [nth ?i (m :: ms) 0%nat] => remember (nth i (m :: ms) 0%nat) as j eqn:Hj end.
  assert (Hjx : (j < GetCols X)%nat) by (subst j; by eapply nth_members_lt).
  cbv zeta. destruct (add_centroid_shape C (GetFtrCol X j)) as (_ & Hr' & Hw').
  pose proof (dp_update_wf (add_centroid C (GetFtrCol X j)) (<[j := GetCols C]> A)) as Hu.
  pose proof (dp_update_box (add_centroid C (GetFtrCol X j)) (<[j := GetCols C]> A)) as Hub.
  destruct (dp_update X _ _) as [C2 A2]. rewrite length_insert in Hu, Hub.
  destruct Hu as (Hw2 & Hr2 & Hl2); [congruence|lia|]. simpl in *.
  apply IH; [done|done|lia|apply Hub; [congruence|lia]].
Qed.

End DpWf.

(** ** Lemmas: renumbering the kept clusters *)

Section Rank.

Lemma kept_elem A K k : k ∈ kept A K <-> (k < K)%nat /\ members A k <> [].
Proof. unfold kept. rewrite list_elem_of_filter, elem_of_seq. split; intros [? ?]; split; (done || lia). Qed.

Lemma filter_seq_sorted (P : nat -> Prop) `{!forall x, Decision (P x)} s n :
  StronglySorted lt (filter P (seq s n)).
Proof.
  revert s. induction n as [|n IH]; intros s; simpl; [constructor|].
  rewrite filter_cons. case_decide; [|apply IH]. constructor; [apply IH|].
  apply Forall_forall. intros x Hx. rewrite list_elem_of_filter, elem_of_seq in Hx. lia.
Qed.

Lemma rank_least (ks : list nat) c : Forall (lt c) ks -> rank ks c = 0%nat.
Proof.
  unfold rank. induction 1 as [|x ks Hx _ IH]; [done|].
  rewrite filter_cons, decide_False by lia. done.
Qed.

(** In a strictly increasing list, the number of entries below the [i]-th
    one is [i]. *)
Lemma rank_nth (ks : list nat) i :
  StronglySorted lt ks -> (i < length ks)%nat -> rank ks (nth i ks 0%nat) = i.
Proof.
  revert i. induction ks as [|c ks IH]; intros i Hs Hi; simpl in *; [lia|].
  apply StronglySorted_inv in Hs as [Hs Hc]. destruct i as [|i]; unfold rank; rewrite filter_cons.
  - rewrite decide_False by lia. by apply rank_least.
  - assert (Hlt : (c < nth i ks 0)%nat).
    { rewrite Forall_forall in Hc. apply Hc, list_elem_of_In, nth_In. lia. }
    rewrite decide_True by done. simpl. f_equal. apply IH; [done|lia].
Qed.

(** A kept cluster is found back at its new index. *)
Lemma nth_rank (ks : list nat) a :
  StronglySorted lt ks -> a ∈ ks -> (rank ks a < length ks)%nat /\ nth (rank ks a) ks 0%nat = a.
Proof.
  intros Hs (i & Hi)%list_elem_of_lookup. pose proof (lookup_lt_Some _ _ _ Hi) as Hlt.
  apply (nth_lookup_Some _ _ 0%nat) in Hi. subst a. rewrite rank_nth by done. done.
Qed.

Lemma rank_inj (ks : list nat) a b :
  StronglySorted lt ks -> a ∈ ks -> b ∈ ks -> rank ks a = rank ks b -> a = b.
Proof.
  intros Hs Ha Hb Hab. destruct (nth_rank ks a Hs Ha) as [_ <-]. destruct (nth_rank ks b Hs Hb) as [_ <-].
  by rewrite Hab.
Qed.

Lemma members_elem A k j : j ∈ members A k <-> (j < length A)%nat /\ nth j A 0%nat = k.
Proof. unfold members. rewrite list_elem_of_filter, elem_of_seq. split; intros [? ?]; split; (done || lia). Qed.

(** The cluster of an assigned instance is kept. *)
Lemma assigned_kept A K j :
  (j < length A)%nat -> (nth j A 0%nat < K)%nat -> nth j A 0%nat ∈ kept A K.
Proof.
  intros Hj HK. apply kept_elem. split; [done|]. intros Hm.
  assert (Hin : j ∈ members A (nth j A 0%nat)) by (by apply members_elem). rewrite Hm in Hin. set_solver.
Qed.

End Rank.

(** ** Properties of DP-means *)

(** C8: the update after a pass keeps the partition of the instances:
    two instances share a cluster afterwards exactly when they did before,
    every instance has a cluster, no cluster is left empty (the empty ones
    are dropped), and every centroid is the mean of its instances. *)
Theorem dp_update_partition X C A :
  (forall j, (j < length A)%nat -> (nth j A 0%nat < GetCols C)%nat) ->
  let '(C', A') := dp_update X C A in
  length A' = length A /\
  (forall j, (j < length A)%nat -> (nth j A' 0%nat < GetCols C')%nat) /\
  (forall i j, (i < length A)%nat -> (j < length A)%nat ->
     nth i A' 0%nat = nth j A' 0%nat <-> nth i A 0%nat = nth j A 0%nat) /\
  (forall k, (k < GetCols C')%nat -> members A' k <> []) /\
  (forall j, (j < length A)%nat ->
     GetCol C' (nth j A' 0%nat) = vmean (vv_rows C) (map (GetFtrCol X) (members A (nth j A 0%nat)))).
Proof.
  intros HA. unfold dp_update. set (ks := kept A (GetCols C)).
  assert (Hs : StronglySorted lt ks) by apply filter_seq_sorted.
  assert (Hk : forall j, (j < length A)%nat -> nth j A 0%nat ∈ ks) by (intros j Hj; by apply assigned_kept, HA).
  assert (HA' : forall j, (j < length A)%nat -> nth j (map (rank ks) A) 0%nat = rank ks (nth j A 0%nat))
    by (intros j Hj; by apply nth_map_lt).
  unfold GetCols. simpl. rewrite !length_map. split_and!; [done| | | |].
  - intros j Hj. rewrite HA' by done. by apply nth_rank, Hk.
  - intros i j Hi Hj. rewrite !HA' by done. split; [|by intros ->]. apply rank_inj; [done|by apply Hk|by apply Hk].
  - intros k Hkl. set (a := nth k ks 0%nat).
    assert (Ha : a ∈ ks) by (apply list_elem_of_In, nth_In; lia).
    apply kept_elem in Ha as [_ Hne]. destruct (members A a) as [|j ms] eqn:Hm; [done|].
    assert (Hj : j ∈ members A a) by (rewrite Hm; set_solver). apply members_elem in Hj as [Hj Hja].
    assert (Hin : j ∈ members (map (rank ks) A) k).
    { apply members_elem. rewrite length_map, HA', Hja by done. split; [done|]. by apply rank_nth. }
    intros Hnil. rewrite Hnil in Hin. set_solver.
  - intros j Hj. rewrite HA' by done. unfold GetCol. simpl.
    destruct (nth_rank ks _ Hs (Hk j Hj)) as [Hlt Hnth].
    rewrite (nth_map_lt _ _ _ _ 0%nat) by done. by rewrite Hnth.
Qed.
(** ** Lemmas: a pass under the Euclidean distance *)

Section EuclPass.
Context `{Sq : SqrtLib} (p : dp_params) (X : fltvv).
Hypothesis HX : vv_wf X.

Lemma nth_snoc (l : list nat) x j :
  nth j (l ++ [x]) 0%nat = if decide (j < length l)%nat then nth j l 0%nat else if decide (j = length l) then x else 0%nat.
Proof.
  repeat case_decide; subst.
  - by apply app_nth1.
  - by rewrite nth_middle.
  - rewrite app_nth2 by lia. destruct (j - length l)%nat as [|[|k]] eqn:E; simpl; [lia|done|by destruct k].
Qed.

(** What a pass guarantees for the instances [0 .. i-1] it has visited:
    each has a cluster, and if the clusters are not saturated, it lies
    within [sqrt Lambda] of its centroid. *)
Definition pass_inv (i : nat) (acc : fltvv * list nat) : Prop :=
  let '(C, A) := acc in
  length A = i /\ vv_wf C /\ vv_rows C = vv_rows X /\
  (forall j, (j < i)%nat -> (nth j A 0%nat < GetCols C)%nat) /\
  ((GetCols C < MxClusts p)%nat ->
   forall j, (j < i)%nat -> ~ Qsqrt (Lambda p) < Qsqrt (sqdist (GetCol C (nth j A 0%nat)) (GetFtrCol X j))).

Lemma GetCol_add_centroid C x k :
  GetCol (add_centroid C x) k = if decide (k < GetCols C)%nat then GetCol C k else if decide (k = GetCols C) then x else [].
Proof.
  unfold GetCol, add_centroid, GetCols. simpl. repeat case_decide; subst.
  - by apply app_nth1.
  - by rewrite nth_middle.
  - rewrite app_nth2 by lia. destruct (k - length (vv_cols C))%nat as [|[|m]] eqn:E; simpl; [lia|done|by destruct m].
Qed.

Lemma pass_inv_seed i C A :
  (i < GetFtrVN X)%nat -> pass_inv i (C, A) ->
  pass_inv (S i) (add_centroid C (GetFtrCol X i), A ++ [GetCols C]).
Proof.
  intros Hi (Hl & Hw & Hr & Hlt & Hth). assert (Hx : length (GetFtrCol X i) = vv_rows X) by by apply vv_wf_col.
  destruct (add_centroid_shape C (GetFtrCol X i)) as (Hc & Hr' & Hw').
  unfold pass_inv. rewrite Hc, Hr', length_app. simpl. split_and!; [lia|apply Hw'; congruence|done| |].
  - intros j Hj. rewrite nth_snoc. repeat case_decide; [|lia|lia]. specialize (Hlt j ltac:(lia)). lia.
  - intros HK j Hj. rewrite nth_snoc, GetCol_add_centroid. destruct (decide (j < length A)%nat).
    + specialize (Hlt j ltac:(lia)). rewrite decide_True by done. apply Hth; lia.
    + assert (j = length A) as -> by lia. destruct (decide (length A = length A)); [|lia].
      destruct (decide (GetCols C < GetCols C)%nat); [lia|]. destruct (decide (GetCols C = GetCols C)); [|lia].
      rewrite Hl, sqdist_diag, Qsqrt_0. pose proof (Qsqrt_nonneg (Lambda p)). lra.
Qed.

Lemma pass_inv_nearest i C A k :
  (i < GetFtrVN X)%nat -> pass_inv i (C, A) -> (k < GetCols C)%nat ->
  ((GetCols C < MxClusts p)%nat -> ~ Qsqrt (Lambda p) < Qsqrt (sqdist (GetCol C k) (GetFtrCol X i))) ->
  pass_inv (S i) (C, A ++ [k]).
Proof.
  intros Hi (Hl & Hw & Hr & Hlt & Hth) Hk Hnear. unfold pass_inv. rewrite length_app. simpl.
  split_and!; [lia|done|done| |].
  - intros j Hj. rewrite nth_snoc. repeat case_decide; [apply Hlt; lia|done|lia].
  - intros HK j Hj. rewrite nth_snoc. destruct (decide (j < length A)%nat); [apply Hth; [done|lia]|].
    rewrite decide_True by lia. replace j with i by lia. by apply Hnear.
Qed.

Lemma pass_inv_step i acc acc' :
  (i < GetFtrVN X)%nat -> pass_inv i acc -> @dp_assign_one EuclDist Sq p X acc i = Ok acc' -> pass_inv (S i) acc'.
Proof.
  destruct acc as [C A]. intros Hi Hinv. pose proof Hinv as (Hl & Hw & Hr & Hlt & Hth).
  unfold dp_assign_one. destruct (Nat.eqb_spec (GetCols C) 0) as [H0|H0].
  { intros [= <-]. rewrite <- H0. by apply pass_inv_seed. }
  cbn [GetDistV EuclDist]. rewrite GetDistV_result. cbn [res_bind].
  set (DistV := map _ (seq 0 (GetCols C))).
  assert (Hlen : length DistV = GetCols C) by (unfold DistV; by rewrite length_map, length_seq).
  pose proof (MinIdx_lt DistV ltac:(lia)) as Hk. rewrite Hlen in Hk.
  destruct (_ && _) eqn:Hb; intros [= <-]; [by apply pass_inv_seed|].
  apply pass_inv_nearest; [done..|]. intros HK.
  apply andb_false_iff in Hb as [Hb%Qltb_false|Hb%Nat.ltb_ge]; [|lia].
  assert (Hx : length (GetFtrCol X i) = vv_rows C) by (rewrite Hr; by apply vv_wf_col).
  pose proof (at0_GetDistV_result C (GetFtrCol X i) (MinIdx DistV) Hw Hx Hk) as Heq.
  fold DistV in Heq. lra.
Qed.

(** C18: a DP-means pass gives every instance a cluster, and unless the
    number of clusters reached [MxClusts], every instance lies within
    [sqrt Lambda] of the centroid of its cluster: the instances farther
    from every centroid seeded clusters of their own. *)
Theorem dp_pass_threshold C C' A :
  vv_wf C -> vv_rows C = vv_rows X -> @dp_pass EuclDist Sq p X C = Ok (C', A) ->
  length A = GetFtrVN X /\ (forall j, (j < GetFtrVN X)%nat -> (nth j A 0%nat < GetCols C')%nat) /\
  ((GetCols C' < MxClusts p)%nat -> forall j, (j < GetFtrVN X)%nat ->
     ~ Qsqrt (Lambda p) < Qsqrt (sqdist (GetCol C' (nth j A 0%nat)) (GetFtrCol X j))).
Proof.
  intros Hw Hr Hp. apply (foldM_seq_ind pass_inv) in Hp as (Hl & _ & _ & Hlt & Hth).
  - by split_and!.
  - unfold pass_inv. split_and!; try done; intros j Hj; lia.
  - intros i acc acc' Hi. apply pass_inv_step. lia.
Qed.
End EuclPass.

(** A successful [TDpMeans::Apply] passed its checks and ran the three
    phases: initial centroids, the loop, the forced splits. *)
Lemma Apply_DpMeans_run `{TDist} `{SqrtLib} `{TRndLib} p X MaxIter st st' :
  Apply (H := TDpMeans p) X MaxIter st = Ok st' ->
  (0 < GetFtrVDim X)%nat /\ (MnClusts p <= MxClusts p /\ 0 < MxClusts p /\ MnClusts p <= GetFtrVN X)%nat /\
  exists C0 C1 A1 A2, SelectInitCentroids X (MnClusts p) (RndState st) = Ok (C0, RndState st') /\
    dp_loop p X MaxIter true C0 [] = Ok (C1, A1) /\ dp_split p X (MnClusts p) C1 A1 = Ok (CentroidVV st', A2).
Proof.
  unfold Apply, GetFtrVV. simpl. case_decide as HD; [|done]. unfold DpMeans_Apply.
  case_decide as Hv; [|done].
  destruct (SelectInitCentroids X (MnClusts p) (RndState st)) as [[C0 s']|e] eqn:Hs; simpl; [|done].
  destruct (dp_loop p X MaxIter true C0 []) as [[C1 A1]|e] eqn:Hl; simpl; [|done].
  destruct (dp_split p X (MnClusts p) C1 A1) as [[C2 A2]|e] eqn:Hsp; simpl; [|done].
  try (case_decide; [|done]). intros [= <-]. split; [done|]. split; [done|].
  by exists C0, C1, A1, A2.
Qed.

(** The last check of [TDpMeans::Apply]: the forced splits reached
    [MnClusts] clusters. *)
Lemma Apply_DpMeans_cols `{TDist} `{SqrtLib} `{TRndLib} p X MaxIter st st' :
  Apply (H := TDpMeans p) X MaxIter st = Ok st' -> (GetCols (CentroidVV st') <= MxClusts p)%nat.
Proof.
  intros (_ & (Hmn & Hmx & _) & C0 & C1 & A1 & A2 & Hs & Hl & Hsp)%Apply_DpMeans_run.
  apply SelectInitCentroids_Ok in Hs as (_ & idx & -> & Hlen & _).
  eapply dp_split_cols; [done|done| |exact Hsp]. eapply dp_loop_cols; [done| |exact Hl].
  unfold GetCols. simpl. rewrite length_map. lia.
Qed.

(** C16: the model [TDpMeans::Apply] returns never has more than
    [MxClusts] clusters, whatever the threshold and the distance: a pass
    opens a cluster only while fewer than [MxClusts] exist, the update only
    drops clusters, and the forced splits stop at [MnClusts <= MxClusts]. *)
Theorem DpMeans_Apply_max_clusts `{TDist} `{SqrtLib} `{TRndLib} p X MaxIter st st' :
  Apply (H := TDpMeans p) X MaxIter st = Ok st' -> (GetClusts st' <= MxClusts p)%nat.
Proof. apply Apply_DpMeans_cols. Qed.
(** C22: [TDpMeans::Apply] rejects, before any clustering, an input without
    features, bounds with [MxClusts < MnClusts] or [MxClusts = 0], and an
    input with fewer instances than [MnClusts]. *)
Theorem DpMeans_Apply_invalid `{TDist} `{SqrtLib} `{TRndLib} p X MaxIter st :
  (GetFtrVDim X = 0 \/ MxClusts p < MnClusts p \/ MxClusts p = 0 \/ GetFtrVN X < MnClusts p)%nat ->
  Apply (H := TDpMeans p) X MaxIter st = Err EInvalidArg.
Proof.
  intros Hbad. unfold Apply, GetFtrVV. simpl. case_decide; [|done].
  unfold DpMeans_Apply. rewrite decide_False by lia. done.
Qed.

(** The scenario of the k-means specification under DP-means: with
    [Lambda = 4] (threshold distance [2]) the four points form the two
    groups, with centroids [[0,0.5]] and [[10,0.5]]. *)
Example DpMeans_scenario :
  match dpmeans X2 4 1 10 1 with
  | Ok st => GetClusts st = 2%nat /\ map (map Qred) (vv_cols (CentroidVV st)) = [[0; 1#2]; [10; 1#2]]
  | Err _ => False
  end.
Proof. vm_compute. split; reflexivity. Qed.

(** A larger threshold can give more clusters: on the points
    [{1,10,9,5,11}] in this order, [Lambda = 16] ends with two clusters and
    [Lambda = 25] with three, although the specification states that
    increasing [Lambda] does not increase the number of clusters. *)
Example DpMeans_lambda_not_monotone :
  match dpmeans X5 16 1 100 1, dpmeans X5 25 1 100 1 with
  | Ok st16, Ok st25 => GetClusts st16 = 2%nat /\ GetClusts st25 = 3%nat
  | _, _ => False
  end.
Proof. vm_compute. split; reflexivity. Qed.

(** ** Witnesses at concrete inputs *)

Lemma DpMeans_Apply_max_clusts_witness :
  dpmeans X2 4 1 10 1 = Ok (KMState (FltVV 2 [[0 # 2; 1 # 2]; [20 # 2; 1 # 2]]) 1622650073%Z) /\
  (GetClusts (KMState (Rnd := ParkMiller) (FltVV 2 [[0 # 2; 1 # 2]; [20 # 2; 1 # 2]]) 1622650073%Z) <= 10)%nat.
Proof.
  assert (H : dpmeans X2 4 1 10 1 = Ok (KMState (FltVV 2 [[0 # 2; 1 # 2]; [20 # 2; 1 # 2]]) 1622650073%Z))
    by (apply kmstate_of_obs; vm_compute; reflexivity).
  split; [exact H|]. exact (DpMeans_Apply_max_clusts (DpParams 4 1 10) X2 10 _ _ H).
Defined.
Lemma DpMeans_Apply_invalid_witness :
  (GetFtrVDim X2 = 0 \/ 10 < 5 \/ 10 = 0 \/ GetFtrVN X2 < 5)%nat /\ dpmeans X2 4 5 10 1 = Err EInvalidArg.
Proof.
  assert (H : (GetFtrVDim X2 = 0 \/ 10 < 5 \/ 10 = 0 \/ GetFtrVN X2 < 5)%nat)
    by (right; right; right; unfold GetFtrVN, GetCols; simpl; lia).
  split; [exact H|]. exact (DpMeans_Apply_invalid (DpParams 4 5 10) X2 10 _ H).
Defined.

Lemma dp_pass_threshold_witness :
  vv_wf (FltVV 2 [[0;0]]) /\ vv_rows (FltVV 2 [[0;0]]) = vv_rows X2 /\
  @dp_pass (@EuclDist Qsqrt3_lib) Qsqrt3_lib (DpParams 4 1 10) X2 (FltVV 2 [[0;0]]) =
    Ok (FltVV 2 [[0;0];[10;0]], [0;0;1;1]%nat) /\
  length [0;0;1;1]%nat = GetFtrVN X2 /\
  (forall j, (j < GetFtrVN X2)%nat -> lt (nth j [0;0;1;1]%nat 0%nat) (GetCols (FltVV 2 [[0;0];[10;0]]))) /\
  (lt (GetCols (FltVV 2 [[0;0];[10;0]])) 10 -> forall j, (j < GetFtrVN X2)%nat ->
     ~ Qsqrt3 4 < Qsqrt3 (sqdist (GetCol (FltVV 2 [[0;0];[10;0]]) (nth j [0;0;1;1]%nat 0%nat)) (GetFtrCol X2 j))).
Proof.
  assert (Hw : vv_wf (FltVV 2 [[0;0]])) by (unfold vv_wf; simpl; repeat constructor).
  assert (Hp : @dp_pass (@EuclDist Qsqrt3_lib) Qsqrt3_lib (DpParams 4 1 10) X2 (FltVV 2 [[0;0]]) =
    Ok (FltVV 2 [[0;0];[10;0]], [0;0;1;1]%nat)) by (vm_compute; reflexivity).
  split_and!; [exact Hw|reflexivity|exact Hp|..];
    apply (dp_pass_threshold (Sq := Qsqrt3_lib) (DpParams 4 1 10) X2 X2_wf _ _ _ Hw eq_refl Hp).
Defined.

Lemma dp_update_partition_witness :
  (forall j, (j < length [0;0;2;2]%nat)%nat -> lt (nth j [0;0;2;2]%nat 0%nat) (GetCols (FltVV 2 [[0;0];[5;5];[10;0]]))) /\
  let '(C', A') := dp_update X2 (FltVV 2 [[0;0];[5;5];[10;0]]) [0;0;2;2]%nat in
  length A' = length [0;0;2;2]%nat /\
  (forall j, (j < length [0;0;2;2]%nat)%nat -> (nth j A' 0%nat < GetCols C')%nat) /\
  (forall i j, (i < length [0;0;2;2]%nat)%nat -> (j < length [0;0;2;2]%nat)%nat ->
     nth i A' 0%nat = nth j A' 0%nat <-> nth i [0;0;2;2]%nat 0%nat = nth j [0;0;2;2]%nat 0%nat) /\
  (forall k, (k < GetCols C')%nat -> members A' k <> []) /\
  (forall j, (j < length [0;0;2;2]%nat)%nat ->
     GetCol C' (nth j A' 0%nat) = vmean 2 (map (GetFtrCol X2) (members [0;0;2;2]%nat (nth j [0;0;2;2]%nat 0%nat)))).
Proof.
  assert (H : forall j, (j < length [0;0;2;2]%nat)%nat ->
    lt (nth j [0;0;2;2]%nat 0%nat) (GetCols (FltVV 2 [[0;0];[5;5];[10;0]]))).
  { intros j Hj. simpl in Hj. unfold GetCols. simpl. destruct j as [|[|[|[|j]]]]; simpl; lia. }
  split; [exact H|]. exact (dp_update_partition X2 (FltVV 2 [[0;0];[5;5];[10;0]]) [0;0;2;2]%nat H).
Defined.
