(* ===== verification/Persistence.v ===== *)
(** * Persistence of a fitted engine ([TDist::Save], [TAbsKMeans::Save] and
    [TAbsKMeans::Load], clustering.h lines 22-23, 179-184, 253-256, 275-278)

    The header gives one body: [TDist::Save] writes the name of the concrete
    distance class ([GetType()]).  The rest is in clustering.cpp and follows
    the specification (section 6): a saved model is the type discriminator
    of the algorithm and of the distance, the centroid matrix, the
    parameters of the algorithm ([K], or [Lambda], [MnClusts], [MxClusts])
    and the state of the random source; loading reads them back in that
    order and rejects a discriminator that names no class.

    The framing of glib's binary streams ([TSOut], [TSIn]) is an injected
    collaborator: it is the class [TBinStream] of the writers and readers of
    the field types ([TInt], [TFlt], [TStr], [TFltVV]) with their round-trip
    laws, and the theorems are proved against those laws.  [TokStream] is
    one implementation, a stream of tagged items, on which the examples run.
    A polymorphic [TAbsKMeans*] is the record [engine]: its class
    ([kmeans_kind], with the fields of the subclass), its [TDist*] and the
    fields of [TAbsKMeans]. *)

From Stdlib Require Import String.
From stdpp Require Import strings.
From S2P Require Import Prelude LinAlg Distance KMeans DpMeans.

Local Open Scope Q_scope.

(** ** 32-bit integers *)

(** [TInt::Mx] and the range of a C++ [int]. *)
Definition TInt_Mx : Z := 2147483647.
Definition int32 (z : Z) : Prop := (- TInt_Mx - 1 <= z <= TInt_Mx)%Z.

(** ** The stream interface *)

(** A stream is the list of the items written so far; a reader consumes a
    prefix of the stream and returns what it read with the rest. *)
Class TBinStream := {
  sitem : Type;
  TInt_Save : Z -> list sitem;
  TInt_Load : list sitem -> res (Z * list sitem);
  TFlt_Save : Q -> list sitem;
  TFlt_Load : list sitem -> res (Q * list sitem);
  TStr_Save : string -> list sitem;
  TStr_Load : list sitem -> res (string * list sitem);
  TFltVV_Save : fltvv -> list sitem;
  TFltVV_Load : list sitem -> res (fltvv * list sitem);
  TInt_Load_Save : forall z s, int32 z -> TInt_Load (TInt_Save z ++ s) = Ok (z, s);
  TFlt_Load_Save : forall q s, TFlt_Load (TFlt_Save q ++ s) = Ok (q, s);
  TStr_Load_Save : forall t s, TStr_Load (TStr_Save t ++ s) = Ok (t, s);
  TFltVV_Load_Save : forall C s, vv_wf C -> int32 (Z.of_nat (GetRows C)) ->
    int32 (Z.of_nat (GetCols C)) -> TFltVV_Load (TFltVV_Save C ++ s) = Ok (C, s)
}.

(** The readers form a state-and-error monad over the unread stream. *)
Definition loader `{TBinStream} (A : Type) : Type := list sitem -> res (A * list sitem).
Definition lret `{TBinStream} {A} (a : A) : loader A := fun s => Ok (a, s).
Definition lfail `{TBinStream} {A} (e : err) : loader A := fun _ => Err e.
Definition lbind `{TBinStream} {A B} (m : loader A) (k : A -> loader B) : loader B :=
  fun s => res_bind (m s) (fun '(a, s') => k a s').

Notation "x <~ m ;; k" := (lbind m (fun x => k))
  (at level 100, m at next level, right associativity) : clust_scope.

(** ** The saved classes *)

(** [TDnsKMeans::GetType()] (line 262) and [TDpMeans::GetType()] (line 286). *)
Definition TDnsKMeans_TYPE : string := "kmeans".
Definition TDpMeans_TYPE : string := "dpmeans".

(** The concrete class of a [TAbsKMeans*] with the fields the subclass adds:
    [TDnsKMeans] and its [K] (lines 248-251), [TDpMeans] and its [Lambda],
    [MnClusts], [MxClusts] (lines 267-272). *)
Inductive kmeans_kind :=
  | DnsKMeansK (K : nat)
  | DpMeansK (p : dp_params).

(** The pure virtual [TAbsKMeans::GetType()] (line 243), dispatched. *)
Definition kind_GetType (a : kmeans_kind) : string :=
  match a with DnsKMeansK _ => TDnsKMeans_TYPE | DpMeansK _ => TDpMeans_TYPE end.

(** A [TAbsKMeans] object (lines 164-176): its class, [Dist] and the fields
    [CentroidVV] and [Rnd]. *)
Record engine := Engine {
  Algo : kmeans_kind;
  EngDist : TDist;
  EngState : @kmeans_state ParkMiller
}.

Section Persist.
Context `{Sq : SqrtLib} `{S : TBinStream}.

(** ** Saving *)

(** [TDist::Save] (line 22): the name of the concrete class. *)
Definition TDist_Save (d : TDist) : list sitem := TStr_Save (GetType (TDist := d)).

(** A count saved as a [TInt]. *)
Definition TNat_Save (n : nat) : list sitem := TInt_Save (Z.of_nat n).

(** The fields the subclass adds, as [TDnsKMeans::Save] and
    [TDpMeans::Save] write them. *)
Definition Params_Save (a : kmeans_kind) : list sitem :=
  match a with
  | DnsKMeansK K => TNat_Save K
  | DpMeansK p => TFlt_Save (Lambda p) ++ TNat_Save (MnClusts p) ++ TNat_Save (MxClusts p)
  end.

(** [Save] of a model (specification, section 6): the discriminators of the
    algorithm and of the distance, the centroids, the parameters and the
    seed of [TRnd]. *)
Definition TAbsKMeans_Save (e : engine) : list sitem :=
  TStr_Save (kind_GetType (Algo e)) ++ TDist_Save (EngDist e) ++
  TFltVV_Save (CentroidVV (EngState e)) ++ Params_Save (Algo e) ++
  TInt_Save (RndState (EngState e)).

(** ** Loading *)

(** [TDist::Load] (line 23): a new object of the class the name says. *)
Definition TDist_Load : loader TDist :=
  Type_ <~ TStr_Load ;;
  if decide (Type_ = Eucl.TYPE) then lret EuclDist
  else if decide (Type_ = Cos.TYPE) then lret CosDist
  else lfail ELoad.

(** A count read from a [TInt]; the model's counts are natural numbers, so
    a negative one is refused. *)
Definition TNat_Load : loader nat :=
  z <~ TInt_Load ;; if decide (0 <= z)%Z then lret (Z.to_nat z) else lfail ELoad.

(** The reader of the subclass the discriminator names, if any. *)
Definition Params_Load (Type_ : string) : option (loader kmeans_kind) :=
  if decide (Type_ = TDnsKMeans_TYPE) then Some (K <~ TNat_Load ;; lret (DnsKMeansK K))
  else if decide (Type_ = TDpMeans_TYPE) then
    Some (Lam <~ TFlt_Load ;; Mn <~ TNat_Load ;; Mx <~ TNat_Load ;; lret (DpMeansK (DpParams Lam Mn Mx)))
  else None.

(** [TAbsKMeans::Load] (line 184) with the constructors [TDnsKMeans(SIn)]
    and [TDpMeans(SIn)] it calls: an unknown discriminator is an error
    before anything else is read. *)
Definition TAbsKMeans_Load : loader engine :=
  Type_ <~ TStr_Load ;;
  match Params_Load Type_ with
  | None => lfail ELoad
  | Some LoadParams =>
      Dist <~ TDist_Load ;;
      C <~ TFltVV_Load ;;
      a <~ LoadParams ;;
      Seed <~ TInt_Load ;;
      lret (Engine a Dist (KMState C Seed))
  end.

(** ** The object behind the pointer *)

(** [Apply] through a [TAbsKMeans*] (lines 194-199): the public [Apply] with
    the algorithm of the object's class and its distance. *)
Definition engine_Apply (e : engine) (FtrVV : fltvv) (MaxIter : nat) : res engine :=
  let Dist := EngDist e in
  st' <- match Algo e with
         | DnsKMeansK K => Apply (H := @TDnsKMeans Dist ParkMiller K) FtrVV MaxIter (EngState e)
         | DpMeansK p => Apply (H := @TDpMeans Dist Sq ParkMiller p) FtrVV MaxIter (EngState e)
         end ;;
  Ok (Engine (Algo e) Dist st').

End Persist.

(** ** A stream of tagged items

    An implementation of [TBinStream] in which every value written is one
    item carrying it, and a matrix is its two dimensions followed by its
    entries column by column. *)

Inductive stok := KInt (z : Z) | KFlt (q : Q) | KStr (t : string).

Fixpoint read_flts (n : nat) (s : list stok) : res (list Q * list stok) :=
  match n, s with
  | O, _ => Ok ([], s)
  | S n', KFlt q :: s' => res_bind (read_flts n' s') (fun '(l, s'') => Ok (q :: l, s''))
  | S _, _ => Err ELoad
  end.

Fixpoint chunks (r c : nat) (l : list Q) : list vec :=
  match c with O => [] | S c' => take r l :: chunks r c' (drop r l) end.

Definition tok_int_load (s : list stok) : res (Z * list stok) :=
  match s with KInt z :: s' => Ok (z, s') | _ => Err ELoad end.
Definition tok_flt_load (s : list stok) : res (Q * list stok) :=
  match s with KFlt q :: s' => Ok (q, s') | _ => Err ELoad end.
Definition tok_str_load (s : list stok) : res (string * list stok) :=
  match s with KStr t :: s' => Ok (t, s') | _ => Err ELoad end.

Definition tok_fltvv_save (C : fltvv) : list stok :=
  KInt (Z.of_nat (GetRows C)) :: KInt (Z.of_nat (GetCols C)) :: map KFlt (concat (vv_cols C)).

Definition tok_fltvv_load (s : list stok) : res (fltvv * list stok) :=
  match s with
  | KInt r :: KInt c :: s' =>
      if decide (0 <= r /\ 0 <= c)%Z then
        res_bind (read_flts (Z.to_nat r * Z.to_nat c) s')
          (fun '(l, s'') => Ok (FltVV (Z.to_nat r) (chunks (Z.to_nat r) (Z.to_nat c) l), s''))
      else Err ELoad
  | _ => Err ELoad
  end.

Lemma read_flts_map l s : read_flts (length l) (map KFlt l ++ s) = Ok (l, s).
Proof. induction l as [|q l IH]; simpl; [done|]. by rewrite IH. Qed.

Lemma chunks_concat r (cols : list vec) :
  Forall (fun c => length c = r) cols -> chunks r (length cols) (concat cols) = cols.
Proof.
  induction 1 as [|c cols Hc _ IH]; simpl; [done|].
  rewrite <- Hc, take_app_length, drop_app_length. by rewrite Hc, IH.
Qed.

Lemma length_concat_wf r (cols : list vec) :
  Forall (fun c => length c = r) cols -> length (concat cols) = (r * length cols)%nat.
Proof. induction 1 as [|c cols Hc _ IH]; simpl; [lia|]. rewrite length_app, IH. lia. Qed.

Lemma tok_fltvv_load_save C s :
  vv_wf C -> tok_fltvv_load (tok_fltvv_save C ++ s) = Ok (C, s).
Proof.
  destruct C as [r cols]. intros Hwf. unfold tok_fltvv_save, tok_fltvv_load, GetRows, GetCols; simpl.
  rewrite decide_True by lia. rewrite !Nat2Z.id.
  rewrite <- (length_concat_wf r cols Hwf), read_flts_map. simpl.
  by rewrite (chunks_concat r cols Hwf).
Qed.

#[export] Instance TokStream : TBinStream := {|
  sitem := stok;
  TInt_Save z := [KInt z]; TInt_Load := tok_int_load;
  TFlt_Save q := [KFlt q]; TFlt_Load := tok_flt_load;
  TStr_Save t := [KStr t]; TStr_Load := tok_str_load;
  TFltVV_Save := tok_fltvv_save; TFltVV_Load := tok_fltvv_load;
  TInt_Load_Save z s _ := eq_refl;
  TFlt_Load_Save q s := eq_refl;
  TStr_Load_Save t s := eq_refl;
  TFltVV_Load_Save C s H _ _ := tok_fltvv_load_save C s H
|}.

(** ** What a loadable model is *)

(** The counts fit a [TInt]. *)
Definition params_wf (a : kmeans_kind) : Prop :=
  match a with
  | DnsKMeansK K => (Z.of_nat K <= TInt_Mx)%Z
  | DpMeansK p => (Z.of_nat (MnClusts p) <= TInt_Mx /\ Z.of_nat (MxClusts p) <= TInt_Mx)%Z
  end.

(** The object a [TAbsKMeans*] can point to: its distance is one of the two
    classes, its centroid matrix is a matrix whose dimensions are [int]s,
    its counts are [int]s and its seed is in the cycle of the generator. *)
Definition engine_wf `{Sq : SqrtLib} (e : engine) : Prop :=
  (EngDist e = EuclDist \/ EngDist e = CosDist) /\
  vv_wf (CentroidVV (EngState e)) /\
  int32 (Z.of_nat (GetRows (CentroidVV (EngState e)))) /\
  int32 (Z.of_nat (GetCols (CentroidVV (EngState e)))) /\
  params_wf (Algo e) /\ pm_seed (RndState (EngState e)).

Lemma lbind_Ok `{TBinStream} {A B} (m : loader A) (k : A -> loader B) s a s' :
  m s = Ok (a, s') -> lbind m k s = k a s'.
Proof. unfold lbind. by intros ->. Qed.

(** Rewrite a reader applied to what its writer wrote. *)
Ltac load_with H :=
  rewrite <- ?app_assoc; erewrite lbind_Ok by (apply H; first [assumption | unfold int32, TInt_Mx in *; lia]).

Section Roundtrip.
Context `{Sq : SqrtLib} `{S : TBinStream}.

Lemma TNat_Load_Save n s :
  (Z.of_nat n <= TInt_Mx)%Z -> TNat_Load (TNat_Save n ++ s) = Ok (n, s).
Proof.
  intros Hn. unfold TNat_Load, TNat_Save. load_with TInt_Load_Save.
  rewrite decide_True by lia. unfold lret. by rewrite Nat2Z.id.
Qed.

Lemma TDist_Load_Save (d : TDist) s :
  d = EuclDist \/ d = CosDist -> TDist_Load (TDist_Save d ++ s) = Ok (d, s).
Proof.
  unfold TDist_Load, TDist_Save. intros Hd. load_with TStr_Load_Save.
  by destruct Hd as [-> | ->].
Qed.

(** The discriminator of a class selects the reader of its own fields. *)
Lemma Params_Load_Save a :
  params_wf a -> exists L, Params_Load (kind_GetType a) = Some L /\
  forall s, L (Params_Save a ++ s) = Ok (a, s).
Proof.
  destruct a as [K|[lam mn mx]]; simpl; intros Hp; unfold Params_Load.
  - rewrite decide_True by done. eexists; split; [done|]. intros s.
    load_with TNat_Load_Save. done.
  - rewrite decide_False, decide_True by done. eexists; split; [done|]. intros s.
    load_with TFlt_Load_Save. load_with TNat_Load_Save. load_with TNat_Load_Save. done.
Qed.

End Roundtrip.

(** ** The object after [Apply] *)

Section ApplyObj.
Context `{Sq : SqrtLib}.

(** [Apply] keeps the class, its parameters and the distance, and starts
    from the initial centroids [SelectInitCentroids] draws. *)
Lemma engine_Apply_init e X MaxIter e' :
  engine_Apply e X MaxIter = Ok e' ->
  Algo e' = Algo e /\ EngDist e' = EngDist e /\
  exists K C0, SelectInitCentroids (Rnd := ParkMiller) X K (RndState (EngState e)) =
               Ok (C0, RndState (EngState e')).
Proof.
  destruct e as [[K|p] d st]; unfold engine_Apply; simpl.
  - destruct (Apply _ _ _) as [st'|] eqn:Ha; simpl; [|done]. intros [= <-]. simpl.
    apply Apply_DnsKMeans_init in Ha as (_ & C0 & Hs & _). split_and!; eauto.
  - destruct (Apply _ _ _) as [st'|] eqn:Ha; simpl; [|done]. intros [= <-]. simpl.
    apply Apply_DpMeans_run in Ha as (_ & _ & C0 & _ & _ & _ & Hs & _). split_and!; eauto.
Qed.

(** The two distance classes assign every instance of the data, or none. *)
Lemma length_Assign_known (d : TDist) C X :
  d = EuclDist \/ d = CosDist -> (length (Assign (Dist := d) C X) <= GetCols X)%nat.
Proof. intros [-> | ->]; [rewrite length_Assign; lia|simpl; lia]. Qed.

(** The centroids of a model after [Apply] keep the dimension of the data,
    and their number fits an [int]. *)
Lemma engine_Apply_centroids e X MaxIter e' :
  engine_wf e -> vv_wf X -> engine_Apply e X MaxIter = Ok e' ->
  vv_wf (CentroidVV (EngState e')) /\ GetRows (CentroidVV (EngState e')) = GetRows X /\
  (GetCols (CentroidVV (EngState e')) <= GetCols X \/
   exists p, Algo e = DpMeansK p /\ GetCols (CentroidVV (EngState e')) <= MxClusts p)%nat.
Proof.
  destruct e as [[K|p] d st]; intros (Hd & _) HX; unfold engine_Apply; simpl in *.
  - destruct (Apply _ _ _) as [st'|] eqn:Ha; simpl; [|done]. intros [= <-]. simpl.
    apply Apply_DnsKMeans_init in Ha as (_ & C0 & Hs & ->).
    apply SelectInitCentroids_shape in Hs as (HC0 & Hr0 & Hc0 & HK); [|done].
    destruct (lloyd_vv_wf X MaxIter true C0 []) as (Hw & Hr & Hc); [intros; by apply length_Assign_known|done..|].
    split_and!; [done|done|left]. lia.
  - destruct (Apply _ _ _) as [st'|] eqn:Ha; simpl; [|done]. intros [= <-]. simpl.
    pose proof (Apply_DpMeans_cols _ _ _ _ _ Ha) as Hcols.
    apply Apply_DpMeans_run in Ha as (_ & _ & C0 & C1 & A1 & A2 & Hs & Hl & Hsp).
    apply SelectInitCentroids_shape in Hs as (HC0 & Hr0 & _); [|done].
    apply dp_loop_wf in Hl as (HC1 & Hr1 & HA1); [|done|done|done|simpl; lia].
    apply dp_split_wf in Hsp as [Hw Hr]; [|done..].
    split_and!; [done|done|right; eauto].
Qed.

End ApplyObj.

(** ** Round trip and rejection *)

(** C9: a model saved by [TAbsKMeans::Save] and read back by
    [TAbsKMeans::Load] is the same model: same class and parameters, same
    distance, identical centroids and seed, and the reader stops where the
    model ends, so that whatever follows in the stream is left unread. *)
Theorem TAbsKMeans_Load_Save `{Sq : SqrtLib} `{S : TBinStream} e s :
  engine_wf e -> TAbsKMeans_Load (TAbsKMeans_Save e ++ s) = Ok (e, s).
Proof.
  destruct e as [a d [C seed]]. intros (Hd & HC & Hr & Hc & Hp & Hs). simpl in *.
  assert (Hs' : int32 seed) by (unfold pm_seed, int32, TInt_Mx in *; lia).
  unfold TAbsKMeans_Load, TAbsKMeans_Save; simpl.
  load_with TStr_Load_Save.
  destruct (Params_Load_Save a Hp) as (L & -> & HL).
  load_with TDist_Load_Save. load_with TFltVV_Load_Save. load_with HL.
  load_with TInt_Load_Save. done.
Qed.

(** C24: [TAbsKMeans::Load] rejects a stream whose algorithm discriminator
    names neither [TDnsKMeans] nor [TDpMeans] before it reads anything
    else, and a stream whose distance discriminator names neither
    [TEuclDist] nor [TCosDist]. *)
Theorem TAbsKMeans_Load_reject `{Sq : SqrtLib} `{S : TBinStream} t a s :
  (t <> TDnsKMeans_TYPE -> t <> TDpMeans_TYPE -> TAbsKMeans_Load (TStr_Save t ++ s) = Err ELoad) /\
  (t <> Eucl.TYPE -> t <> Cos.TYPE ->
   TAbsKMeans_Load (TStr_Save (kind_GetType a) ++ TStr_Save t ++ s) = Err ELoad).
Proof.
  split.
  - intros H1 H2. unfold TAbsKMeans_Load. load_with TStr_Load_Save.
    unfold Params_Load. by rewrite !decide_False.
  - intros H1 H2. unfold TAbsKMeans_Load. load_with TStr_Load_Save.
    assert (Hsome : exists L, Params_Load (kind_GetType a) = Some L)
      by (unfold Params_Load; destruct a; simpl; eauto).
    destruct Hsome as (L & ->). unfold TDist_Load, lbind at 1. load_with TStr_Load_Save.
    by rewrite !decide_False.
Qed.

(** ** Witnesses at concrete inputs *)

(** The fitted model of the k-means scenario: [K = 2], the Euclidean
    distance, the centroids [C2] and seed 1. *)
Definition e2 : engine := Engine (DnsKMeansK 2) (@EuclDist Qsqrt3_lib) (KMState C2 1%Z).

Lemma e2_wf : engine_wf (Sq := Qsqrt3_lib) e2.
Proof.
  unfold engine_wf, int32, pm_seed, TInt_Mx, GetRows, GetCols, C2; simpl.
  split; [by left|]. split; [repeat constructor|]. repeat split; unfold TInt_Mx; lia.
Qed.

Lemma TAbsKMeans_Load_Save_witness :
  engine_wf (Sq := Qsqrt3_lib) e2 /\
  TAbsKMeans_Load (S := TokStream) (TAbsKMeans_Save e2 ++ [KStr "next"]) = Ok (e2, [KStr "next"]).
Proof. split; [apply e2_wf|]. exact (TAbsKMeans_Load_Save (S := TokStream) e2 [KStr "next"] e2_wf). Defined.

Lemma TAbsKMeans_Load_reject_witness :
  TAbsKMeans_Load (Sq := Qsqrt3_lib) (S := TokStream) (TStr_Save "kmean" ++ []) = Err ELoad /\
  TAbsKMeans_Load (Sq := Qsqrt3_lib) (S := TokStream)
    (TStr_Save (kind_GetType (DnsKMeansK 2)) ++ TStr_Save "euclidean" ++ []) = Err ELoad.
Proof.
  split.
  - apply (TAbsKMeans_Load_reject "kmean" (DnsKMeansK 2) []); discriminate.
  - apply (TAbsKMeans_Load_reject "euclidean" (DnsKMeansK 2) []); discriminate.
Defined.


(** The k-means scenario through the pointer, from an empty model with
    seed 1. *)
Definition e0 : engine := Engine (DnsKMeansK 2) (@EuclDist Qsqrt3_lib) (TAbsKMeans_new 1%Z).
Definition e0_fit : engine := res_get e0 (engine_Apply (Sq := Qsqrt3_lib) e0 X2 10).

Lemma e0_fit_run : engine_Apply (Sq := Qsqrt3_lib) e0 X2 10 = Ok e0_fit.
Proof. apply res_get_ok. vm_compute. reflexivity. Qed.


(** C14: a model fitted by [Apply] through the pointer is again a model
    [TAbsKMeans::Load] can read back: whatever its class and distance, on
    data whose dimensions are [int]s, the centroids form a matrix of the
    data's dimension with an [int] number of columns, the class, its
    parameters and the distance are unchanged, and the seed stays in the
    generator's cycle. *)
Theorem engine_Apply_wf `{Sq : SqrtLib} e X MaxIter e' :
  engine_wf e -> vv_wf X -> int32 (Z.of_nat (GetRows X)) -> int32 (Z.of_nat (GetCols X)) ->
  engine_Apply e X MaxIter = Ok e' -> engine_wf e'.
Proof.
  intros He HX Hr Hc Ha. pose proof He as (Hd & _ & _ & _ & Hp & Hs).
  destruct (engine_Apply_centroids e X MaxIter e' He HX Ha) as (Hw & Hrows & Hcols).
  destruct (engine_Apply_init e X MaxIter e' Ha) as (Ha' & Hd' & K & C0 & Hsel%SelectInitCentroids_seed).
  assert (Hs' : pm_seed (RndState (EngState e'))) by (rewrite Hsel; by apply PM_iter).
  unfold engine_wf. rewrite Ha', Hd', Hrows. split_and!; try done.
  destruct Hcols as [Hcols|(p & Hpe & Hcols)]; unfold int32 in *; [lia|].
  rewrite Hpe in Hp. simpl in Hp. unfold TInt_Mx in *. lia.
Qed.

(** C15: every centroid of a model fitted by [Apply] through the pointer,
    for either class, lies in the bounding box of the data: each of its
    coordinates is within every bound that all instances respect. Initial
    centroids are instances, and every update makes a centroid an instance
    or the mean of instances, or leaves it unchanged. *)
Theorem engine_Apply_in_box `{Sq : SqrtLib} e X MaxIter e' :
  engine_wf e -> vv_wf X -> engine_Apply e X MaxIter = Ok e' ->
  forall k, (k < GetClusts (EngState e'))%nat -> box_bounded X (GetCentroid (EngState e') k).
Proof.
  enough (H : engine_wf e -> vv_wf X -> engine_Apply e X MaxIter = Ok e' ->
              all_box X (CentroidVV (EngState e'))) by exact H.
  destruct e as [[K|p] d st]; intros (Hd & _) HX; unfold engine_Apply; simpl in *;
    destruct (Apply _ _ _) as [st'|] eqn:Ha; simpl; try done; intros [= <-]; simpl.
  - apply Apply_DnsKMeans_init in Ha as (_ & C0 & Hs & ->).
    pose proof (SelectInitCentroids_box _ _ _ _ _ Hs) as Hb0.
    apply SelectInitCentroids_shape in Hs as (HC0 & Hr0 & _); [|done].
    apply lloyd_box; [intros; by apply length_Assign_known|done|done|done].
  - apply Apply_DpMeans_run in Ha as (_ & _ & C0 & C1 & A1 & A2 & Hs & Hl & Hsp).
    pose proof (SelectInitCentroids_box _ _ _ _ _ Hs) as Hb0.
    apply SelectInitCentroids_shape in Hs as (HC0 & Hr0 & _); [|done].
    destruct (dp_loop_wf p X HX MaxIter true C0 [] C1 A1 HC0 Hr0 ltac:(simpl; lia) Hl) as (HC1 & Hr1 & HA1).
    eapply (dp_split_box p X HX); [exact HC1|exact Hr1|exact HA1| |exact Hsp].
    exact (dp_loop_box p X HX MaxIter true C0 [] C1 A1 HC0 Hr0 ltac:(simpl; lia) Hb0 Hl).
Qed.

Lemma e0_wf : engine_wf (Sq := Qsqrt3_lib) e0.
Proof.
  unfold engine_wf, int32, pm_seed, TInt_Mx, GetRows, GetCols; simpl.
  split; [by left|]. split; [constructor|]. repeat split; unfold TInt_Mx; lia.
Qed.

Lemma engine_Apply_wf_witness :
  engine_wf (Sq := Qsqrt3_lib) e0 /\ vv_wf X2 /\ int32 (Z.of_nat (GetRows X2)) /\
  int32 (Z.of_nat (GetCols X2)) /\ engine_Apply (Sq := Qsqrt3_lib) e0 X2 10 = Ok e0_fit /\
  engine_wf (Sq := Qsqrt3_lib) e0_fit.
Proof.
  assert (HX : vv_wf X2) by (repeat constructor).
  assert (Hr : int32 (Z.of_nat (GetRows X2))) by (unfold int32, TInt_Mx; simpl; lia).
  assert (Hc : int32 (Z.of_nat (GetCols X2))) by (unfold int32, TInt_Mx, GetCols, X2; simpl; lia).
  split_and!; [exact e0_wf|exact HX|exact Hr|exact Hc|exact e0_fit_run|].
  exact (engine_Apply_wf e0 X2 10 e0_fit e0_wf HX Hr Hc e0_fit_run).
Defined.

Lemma engine_Apply_in_box_witness :
  engine_wf (Sq := Qsqrt3_lib) e0 /\ vv_wf X2 /\ engine_Apply (Sq := Qsqrt3_lib) e0 X2 10 = Ok e0_fit /\
  forall k, (k < GetClusts (EngState e0_fit))%nat -> box_bounded X2 (GetCentroid (EngState e0_fit) k).
Proof.
  assert (HX : vv_wf X2) by (repeat constructor).
  split_and!; [exact e0_wf|exact HX|exact e0_fit_run|].
  exact (engine_Apply_in_box e0 X2 10 e0_fit e0_wf HX e0_fit_run).
Defined.
